(** * Gossip simulation engine: a shallow embedding of [gossip_algorithm.py]

    The development follows the Python module top to bottom: the data model
    ([NodeState], [Message], [GossipNode], [GossipSimulator]), the ambient
    interpreter state the engine reads (the global pseudorandom generator,
    the clock, the store of [Message] objects), the methods of the two
    classes written in a small state-and-exception monad, and then the
    properties of the engine.

    Modelling conventions.
    - Python [int] is [Z]; node identifiers, which only ever come out of
      [range], are [nat]. Python [float] is modelled by exact rationals [Q]:
      rounding is not represented.
    - [self.nodes] is a dictionary whose keys are exactly [0 .. n-1], filled
      in that order; it is a list, the key being the position. Membership
      [k in self.nodes] is [is_Some (nodes !! k)].
    - A [set] is a [gset]; where the code iterates over a set the model
      iterates over [elements], an order no property below depends on.
    - A [Message] is a mutable object shared by reference: the objects live
      in a store ([heap]) and nodes hold positions in it.
    - The module-level generator [random] is a tape of raw draws with a read
      cursor; every theorem quantifies over the tape. *)

From Stdlib Require Import QArith Ascii Lqa.
From stdpp Require Import gmap strings list pretty.

(* The solvers of stdpp clear hypotheses that may be gone already. *)
Set Warnings "-clear-no-such-hyp".

Local Open Scope Z_scope.

(** ** Data model *)

Inductive NodeState := SUSCEPTIBLE | INFECTED | REMOVED.

#[global] Instance NodeState_eq_dec : EqDecision NodeState.
Proof. solve_decision. Defined.

(** A reference to a [Message] object: its position in the store. *)
Definition ref := nat.

Record Message := mkMessage {
  id : string;
  content : string;
  timestamp : Q;
  source_node : nat;
  hop_count : Z;
}.

Record GossipNode := mkGossipNode {
  node_id : nat;
  x : Q;
  y : Q;
  state : NodeState;
  messages : gmap string ref;
  neighbors : gset nat;
  infection_probability : Q;
  recovery_probability : Q;
  is_active : bool;
  message_history : list ref;
}.

Record GossipSimulator := mkGossipSimulator {
  num_nodes : Z;
  width : Z;
  height : Z;
  nodes : list GossipNode;
  running : bool;
  step_count : Z;
  message_counter : Z;
  gossip_fanout : Z;
  transmission_probability : Q;
  max_hop_count : Z;
  simulation_speed : Q;
}.

(** The interpreter state around one engine: the engine object itself, the
    store of message objects, the generator and the clock. *)
Record World := mkWorld {
  sim : GossipSimulator;
  heap : list Message;
  tape : nat → N;
  cursor : nat;
  clock : nat → Q;
  ticks : nat;
}.

(** Field updates. *)

Definition set_hop_count (h : Z) (m : Message) : Message :=
  mkMessage (id m) (content m) (timestamp m) (source_node m) h.

Definition set_state (st : NodeState) (n : GossipNode) : GossipNode :=
  mkGossipNode (node_id n) (x n) (y n) st (messages n) (neighbors n)
    (infection_probability n) (recovery_probability n) (is_active n)
    (message_history n).

Definition set_messages (ms : gmap string ref) (n : GossipNode) : GossipNode :=
  mkGossipNode (node_id n) (x n) (y n) (state n) ms (neighbors n)
    (infection_probability n) (recovery_probability n) (is_active n)
    (message_history n).

Definition set_message_history (h : list ref) (n : GossipNode) : GossipNode :=
  mkGossipNode (node_id n) (x n) (y n) (state n) (messages n) (neighbors n)
    (infection_probability n) (recovery_probability n) (is_active n) h.

Definition set_neighbors (ns : gset nat) (n : GossipNode) : GossipNode :=
  mkGossipNode (node_id n) (x n) (y n) (state n) (messages n) ns
    (infection_probability n) (recovery_probability n) (is_active n)
    (message_history n).

Definition set_infection_probability (p : Q) (n : GossipNode) : GossipNode :=
  mkGossipNode (node_id n) (x n) (y n) (state n) (messages n) (neighbors n)
    p (recovery_probability n) (is_active n) (message_history n).

Definition set_recovery_probability (p : Q) (n : GossipNode) : GossipNode :=
  mkGossipNode (node_id n) (x n) (y n) (state n) (messages n) (neighbors n)
    (infection_probability n) p (is_active n) (message_history n).

Definition set_num_nodes (v : Z) (s : GossipSimulator) : GossipSimulator :=
  mkGossipSimulator v (width s) (height s) (nodes s) (running s)
    (step_count s) (message_counter s) (gossip_fanout s)
    (transmission_probability s) (max_hop_count s) (simulation_speed s).

Definition set_width (v : Z) (s : GossipSimulator) : GossipSimulator :=
  mkGossipSimulator (num_nodes s) v (height s) (nodes s) (running s)
    (step_count s) (message_counter s) (gossip_fanout s)
    (transmission_probability s) (max_hop_count s) (simulation_speed s).

Definition set_height (v : Z) (s : GossipSimulator) : GossipSimulator :=
  mkGossipSimulator (num_nodes s) (width s) v (nodes s) (running s)
    (step_count s) (message_counter s) (gossip_fanout s)
    (transmission_probability s) (max_hop_count s) (simulation_speed s).

Definition set_nodes (v : list GossipNode) (s : GossipSimulator)
  : GossipSimulator :=
  mkGossipSimulator (num_nodes s) (width s) (height s) v (running s)
    (step_count s) (message_counter s) (gossip_fanout s)
    (transmission_probability s) (max_hop_count s) (simulation_speed s).

Definition set_running (v : bool) (s : GossipSimulator) : GossipSimulator :=
  mkGossipSimulator (num_nodes s) (width s) (height s) (nodes s) v
    (step_count s) (message_counter s) (gossip_fanout s)
    (transmission_probability s) (max_hop_count s) (simulation_speed s).

Definition set_step_count (v : Z) (s : GossipSimulator) : GossipSimulator :=
  mkGossipSimulator (num_nodes s) (width s) (height s) (nodes s) (running s)
    v (message_counter s) (gossip_fanout s)
    (transmission_probability s) (max_hop_count s) (simulation_speed s).

Definition set_message_counter (v : Z) (s : GossipSimulator)
  : GossipSimulator :=
  mkGossipSimulator (num_nodes s) (width s) (height s) (nodes s) (running s)
    (step_count s) v (gossip_fanout s)
    (transmission_probability s) (max_hop_count s) (simulation_speed s).

Definition set_gossip_fanout (v : Z) (s : GossipSimulator) : GossipSimulator :=
  mkGossipSimulator (num_nodes s) (width s) (height s) (nodes s) (running s)
    (step_count s) (message_counter s) v
    (transmission_probability s) (max_hop_count s) (simulation_speed s).

Definition set_transmission_probability (v : Q) (s : GossipSimulator)
  : GossipSimulator :=
  mkGossipSimulator (num_nodes s) (width s) (height s) (nodes s) (running s)
    (step_count s) (message_counter s) (gossip_fanout s)
    v (max_hop_count s) (simulation_speed s).

Definition set_max_hop_count (v : Z) (s : GossipSimulator) : GossipSimulator :=
  mkGossipSimulator (num_nodes s) (width s) (height s) (nodes s) (running s)
    (step_count s) (message_counter s) (gossip_fanout s)
    (transmission_probability s) v (simulation_speed s).

Definition set_simulation_speed (v : Q) (s : GossipSimulator)
  : GossipSimulator :=
  mkGossipSimulator (num_nodes s) (width s) (height s) (nodes s) (running s)
    (step_count s) (message_counter s) (gossip_fanout s)
    (transmission_probability s) (max_hop_count s) v.

Definition set_sim (s : GossipSimulator) (w : World) : World :=
  mkWorld s (heap w) (tape w) (cursor w) (clock w) (ticks w).

Definition set_heap (h : list Message) (w : World) : World :=
  mkWorld (sim w) h (tape w) (cursor w) (clock w) (ticks w).

Definition set_cursor (c : nat) (w : World) : World :=
  mkWorld (sim w) (heap w) (tape w) c (clock w) (ticks w).

Definition set_ticks (t : nat) (w : World) : World :=
  mkWorld (sim w) (heap w) (tape w) (cursor w) (clock w) t.

(** ** The state-and-exception monad

    A method either returns, raises a Python exception, or is [Stuck]: the
    run has left what the model describes (an attribute rebound to a value
    of another type, a special attribute name, a traversal out of fuel).
    The world at the point of an exception is kept: Python does not roll
    back the mutations made before a [raise]. *)

Inductive exn := ValueError | KeyError | IndexError | TypeError.

Inductive outcome (A : Type) :=
  | Return (a : A)
  | Raise (e : exn)
  | Stuck.
Arguments Return {A} a.
Arguments Raise {A} e.
Arguments Stuck {A}.

Definition M (A : Type) : Type := World → outcome A * World.

#[global] Instance M_ret : MRet M := λ A a w, (Return a, w).

#[global] Instance M_bind : MBind M := λ A B f m w,
  match m w with
  | (Return a, w') => f a w'
  | (Raise e, w') => (Raise e, w')
  | (Stuck, w') => (Stuck, w')
  end.

Definition raise {A} (e : exn) : M A := λ w, (Raise e, w).
Definition stuck {A} : M A := λ w, (Stuck, w).
Definition get : M World := λ w, (Return w, w).
Definition modify (f : World → World) : M unit := λ w, (Return tt, f w).
Definition get_sim : M GossipSimulator := λ w, (Return (sim w), w).
Definition modify_sim (f : GossipSimulator → GossipSimulator) : M unit :=
  modify (λ w, set_sim (f (sim w)) w).

(** [for a in l: body(a)] *)
Fixpoint for_ {A} (l : list A) (body : A → M unit) : M unit :=
  match l with
  | [] => mret tt
  | a :: l' => body a ;; for_ l' body
  end.

(** ** The interpreter services the engine calls *)

Definition Qltb (a b : Q) : bool := negb (Qle_bool b a).

(** One raw draw of the generator. *)
Definition draw : M N := λ w,
  (Return (tape w (cursor w)), set_cursor (S (cursor w)) w).

(** [random.random()]: a float at least 0 and below 1, a multiple of
    [2^-53]. *)
Definition random_random : M Q :=
  r ← draw; mret (Z.of_N (r `mod` 2 ^ 53)%N # 2 ^ 53)%Q.

(** [random.uniform(a, b)] is [a + (b - a) * random()]. *)
Definition random_uniform (a b : Q) : M Q :=
  u ← random_random; mret (a + (b - a) * u)%Q.

(** A position below [n], for [n > 0]. *)
Definition randbelow (n : nat) : M nat :=
  r ← draw; mret (N.to_nat (r `mod` N.of_nat n)%N).

(** [random.choice(seq)]; [IndexError] on an empty sequence. *)
Definition random_choice {A} (l : list A) : M A :=
  match l with
  | [] => raise IndexError
  | d :: _ => j ← randbelow (length l); mret (nth j l d)
  end.

(** Selection without replacement: one position of the remaining
    population per draw. The interpreter's own selection procedure consumes
    the generator differently; what is kept is that the result is made of
    [k] distinct positions of the population chosen by the tape. *)
Fixpoint sample_loop {A} (k : nat) (pool : list A) : M (list A) :=
  match k, pool with
  | S k', d :: _ =>
      j ← randbelow (length pool);
      rest ← sample_loop k' (delete j pool);
      mret (nth j pool d :: rest)
  | _, _ => mret []
  end.

(** [random.sample(population, k)]: [k] distinct positions of the
    population, in the order drawn; [ValueError] unless
    [0 <= k <= len(population)]. *)
Definition random_sample {A} (population : list A) (k : Z) : M (list A) :=
  if (k <? 0) || (Z.of_nat (length population) <? k)
  then raise ValueError
  else sample_loop (Z.to_nat k) population.

(** [time.time()] *)
Definition time_time : M Q := λ w,
  (Return (clock w (ticks w)), set_ticks (S (ticks w)) w).

(** Allocation of a [Message] object; the reference is returned. *)
Definition new_message (m : Message) : M ref := λ w,
  (Return (length (heap w)), set_heap (heap w ++ [m]) w).

(** Reading through a reference. References are only ever produced by
    [new_message], so the read is of an allocated object. *)
Definition deref (r : ref) : M Message := λ w,
  match heap w !! r with
  | Some m => (Return m, w)
  | None => (Stuck, w)
  end.

Definition update_message (r : ref) (f : Message → Message) : M unit :=
  modify (λ w, set_heap (alter f r (heap w)) w).

(** [self.nodes[i]]; [KeyError] when [i] is not a key. *)
Definition get_node (i : nat) : M GossipNode := λ w,
  match nodes (sim w) !! i with
  | Some n => (Return n, w)
  | None => (Raise KeyError, w)
  end.

(** Mutation of the node object stored under key [i]. *)
Definition modify_node (i : nat) (f : GossipNode → GossipNode) : M unit :=
  modify_sim (λ s, set_nodes (alter f i (nodes s)) s).

(** [self.nodes[i]] followed by a mutation of that node. *)
Definition node_do (i : nat) (f : GossipNode → GossipNode) : M unit :=
  _ ← get_node i; modify_node i f.

(** ** class GossipNode *)

Definition GossipNode_init (node_id : nat) (x y : Q) : GossipNode :=
  mkGossipNode node_id x y SUSCEPTIBLE ∅ ∅ (1 # 10) (5 # 100) true [].

Definition add_neighbor (neighbor_id : nat) (n : GossipNode) : GossipNode :=
  set_neighbors (neighbors n ∪ {[neighbor_id]}) n.

Definition remove_neighbor (neighbor_id : nat) (n : GossipNode) : GossipNode :=
  set_neighbors (neighbors n ∖ {[neighbor_id]}) n.

Definition infect (n : GossipNode) : GossipNode :=
  if decide (state n = SUSCEPTIBLE) then set_state INFECTED n else n.

(** [recover]: the draw is made only for an INFECTED node ([and] is
    short-circuit). *)
Definition recover (i : nat) : M unit :=
  n ← get_node i;
  if decide (state n = INFECTED) then
    u ← random_random;
    if Qltb u (recovery_probability n)
    then modify_node i (set_state REMOVED)
    else mret tt
  else mret tt.

Definition receive_message (i : nat) (message : ref) : M unit :=
  n ← get_node i;
  m ← deref message;
  match messages n !! id m with
  | Some _ => mret tt
  | None =>
      modify_node i (λ n, set_messages (<[id m := message]> (messages n)) n);;
      modify_node i (λ n,
        set_message_history (message_history n ++ [message]) n);;
      n ← get_node i;
      if decide (state n = SUSCEPTIBLE) then
        u ← random_random;
        if Qltb u (infection_probability n)
        then modify_node i infect
        else mret tt
      else mret tt
  end.

(** ** class GossipSimulator *)

(** [self.nodes[i] = v] on the list that stands for the dictionary: the key
    [i] is either present or the next one. *)
Definition dict_set (i : nat) (v : GossipNode) (l : list GossipNode)
  : list GossipNode :=
  if decide (i < length l)%nat then <[i := v]> l else l ++ [v].

(** [k in self.nodes] for an integer [k]. *)
Definition in_nodes (k : Z) (s : GossipSimulator) : bool :=
  (0 <=? k) && bool_decide (is_Some (nodes s !! Z.to_nat k)).

(** [range(n)] and [range(a, n)]. *)
Definition range (n : Z) : list nat := seq 0 (Z.to_nat n).
Definition range_from (a : nat) (n : Z) : list nat :=
  seq a (Z.to_nat n - a).

Definition _initialize_nodes : M unit :=
  s ← get_sim;
  for_ (range (num_nodes s)) (λ i,
    s ← get_sim;
    x ← random_uniform 50 (inject_Z (width s - 50));
    y ← random_uniform 50 (inject_Z (height s - 50));
    modify_sim (λ s, set_nodes (dict_set i (GossipNode_init i x y) (nodes s)) s)).

(** [((x1-x2)**2 + (y1-y2)**2) ** 0.5 <= r], decided on the squares: a
    distance is never negative, so the test fails for a negative [r]. *)
Definition within_radius (node1 node2 : GossipNode) (r : Q) : bool :=
  Qle_bool 0 r &&
  Qle_bool ((x node1 - x node2) ^ 2 + (y node1 - y node2) ^ 2) (r ^ 2).

(** The recursive helper of [_ensure_connectivity]. The closure variable
    [visited] is threaded through; [fuel] bounds the recursion depth, and
    as many units as there are nodes are enough ([dfs_fuel] below). *)
Fixpoint dfs (fuel : nat) (node_id : nat) (visited : gset nat)
  : M (gset nat) :=
  if decide (node_id ∈ visited) then mret visited else
  match fuel with
  | O => stuck
  | S fuel' =>
      n ← get_node node_id;
      foldr (λ neighbor k visited,
               visited' ← dfs fuel' neighbor visited; k visited')
            mret (elements (neighbors n)) (visited ∪ {[node_id]})
  end.

Definition _ensure_connectivity : M unit :=
  s ← get_sim;
  visited ← (match nodes s with
             | [] => mret ∅
             | _ => dfs (length (nodes s)) 0 ∅
             end);
  let unvisited : gset nat := list_to_set (range (num_nodes s)) ∖ visited in
  foldr (λ node_id k (visited : gset nat),
           if decide (visited = ∅) then k visited else
           target ← random_choice (elements visited);
           node_do node_id (add_neighbor target);;
           node_do target (add_neighbor node_id);;
           k (visited ∪ {[node_id]}))
        (λ _, mret tt) (elements unvisited) visited.

Definition _build_network_topology : M unit :=
  s ← get_sim;
  let connection_radius :=
    (inject_Z (Z.min (width s) (height s)) * (15 # 100))%Q in
  for_ (range (num_nodes s)) (λ i,
    for_ (range_from (i + 1) (num_nodes s)) (λ j,
      node1 ← get_node i;
      node2 ← get_node j;
      if within_radius node1 node2 connection_radius then
        modify_node i (add_neighbor j);;
        modify_node j (add_neighbor i)
      else mret tt));;
  _ensure_connectivity.

Definition GossipSimulator_init (num_nodes width height : Z) : M unit :=
  modify_sim (λ _,
    mkGossipSimulator num_nodes width height [] false 0 0
      3 (8 # 10) 10 1);;
  _initialize_nodes;;
  _build_network_topology.

(** The reset applied to every node by [start_gossip] and
    [reset_simulation]. *)
Definition reset_node (n : GossipNode) : GossipNode :=
  set_message_history [] (set_messages ∅ (set_state SUSCEPTIBLE n)).

Definition start_gossip (initial_infected : option (list Z)) : M unit :=
  let initial_infected := default [0] initial_infected in
  modify_sim (λ s, set_nodes (reset_node <$> nodes s) s);;
  for_ initial_infected (λ node_id,
    s ← get_sim;
    if in_nodes node_id s
    then modify_node (Z.to_nat node_id) infect
    else mret tt);;
  modify_sim (set_step_count 0);;
  modify_sim (set_running true).

(** The keys of the nodes whose state is [st], in dictionary order. *)
Definition nodes_in_state (st : NodeState) (l : list GossipNode) : list nat :=
  filter (λ i, state <$> l !! i = Some st) (seq 0 (length l)).

Definition message_id (counter : Z) (node_id : nat) : string :=
  "msg_" +:+ pretty counter +:+ "_" +:+ pretty node_id.

Definition _gossip_step (i : nat) : M unit :=
  node ← get_node i;
  if decide (neighbors node = ∅) then mret tt else
  let available_neighbors := elements (neighbors node) in
  s ← get_sim;
  let num_targets :=
    Z.min (gossip_fanout s) (Z.of_nat (length available_neighbors)) in
  targets ← random_sample available_neighbors num_targets;
  s ← get_sim;
  now ← time_time;
  message ← new_message
    (mkMessage (message_id (message_counter s) (node_id node))
               ("Gossip from node " +:+ pretty (node_id node))
               now (node_id node) 0);
  modify_sim (λ s, set_message_counter (message_counter s + 1) s);;
  for_ targets (λ target_id,
    s ← get_sim;
    if in_nodes (Z.of_nat target_id) s then
      u ← random_random;
      if Qltb u (transmission_probability s) then
        m ← deref message;
        if hop_count m <? max_hop_count s then
          update_message message (λ m, set_hop_count (hop_count m + 1) m);;
          receive_message target_id message
        else mret tt
      else mret tt
    else mret tt).

Definition step : M unit :=
  s ← get_sim;
  if negb (running s) then mret tt else
  modify_sim (λ s, set_step_count (step_count s + 1) s);;
  s ← get_sim;
  let infected_nodes := nodes_in_state INFECTED (nodes s) in
  match infected_nodes with
  | [] => modify_sim (set_running false)
  | _ =>
      for_ infected_nodes _gossip_step;;
      s ← get_sim;
      for_ (seq 0 (length (nodes s))) recover
  end.

Record Statistics := mkStatistics {
  stat_step : Z;
  stat_susceptible : nat;
  stat_infected : nat;
  stat_removed : nat;
  stat_total_messages : nat;
  stat_running : bool;
}.

(** [sum(1 for node in ... if node.state == st)] *)
Definition count_state (st : NodeState) (l : list GossipNode) : nat :=
  length (filter (λ n, state n = st) l).

Definition statistics (s : GossipSimulator) : Statistics :=
  mkStatistics
    (step_count s)
    (count_state SUSCEPTIBLE (nodes s))
    (count_state INFECTED (nodes s))
    (count_state REMOVED (nodes s))
    (sum_list ((λ n, size (messages n)) <$> nodes s))
    (running s).

Definition get_statistics : M Statistics :=
  s ← get_sim; mret (statistics s).

Definition reset_simulation : M unit :=
  modify_sim (set_running false);;
  modify_sim (set_step_count 0);;
  modify_sim (set_message_counter 0);;
  modify_sim (λ s, set_nodes (reset_node <$> nodes s) s).

(** *** [update_parameters] and its keyword arguments

    The keyword arguments are an insertion-ordered dictionary from names to
    Python values, here the list of its items (a call cannot repeat a
    keyword, so the names are distinct). The keyword [self] collides with
    the receiver of the method: such a call raises [TypeError] before the
    body runs. [hasattr] is decided on the attributes the instance and
    its class define; for a special name ([__...]) the answer depends on the
    interpreter and the model is stuck. [setattr] is modelled where the new
    value has the type the attribute already has; rebinding an attribute to
    a value of another type, or rebinding [nodes] or a method, is stuck. *)

Inductive pyval :=
  | PInt (z : Z)
  | PFloat (q : Q)
  | PBool (b : bool)
  | PStr (s : string)
  | PNone.

Fixpoint assoc {V} (key : string) (l : list (string * V)) : option V :=
  match l with
  | [] => None
  | (k, v) :: l' => if decide (k = key) then Some v else assoc key l'
  end.

Definition int_attributes
  : list (string * (Z → GossipSimulator → GossipSimulator)) :=
  [("num_nodes", set_num_nodes); ("width", set_width);
   ("height", set_height); ("step_count", set_step_count);
   ("message_counter", set_message_counter);
   ("gossip_fanout", set_gossip_fanout);
   ("max_hop_count", set_max_hop_count)].

Definition float_attributes
  : list (string * (Q → GossipSimulator → GossipSimulator)) :=
  [("transmission_probability", set_transmission_probability);
   ("simulation_speed", set_simulation_speed)].

Definition bool_attributes
  : list (string * (bool → GossipSimulator → GossipSimulator)) :=
  [("running", set_running)].

Definition methods : list string :=
  ["_initialize_nodes"; "_build_network_topology"; "_ensure_connectivity";
   "start_gossip"; "step"; "_gossip_step"; "get_statistics";
   "update_parameters"; "reset_simulation"].

Definition attribute_names : list string :=
  int_attributes.*1 ++ float_attributes.*1 ++ bool_attributes.*1
  ++ ["nodes"] ++ methods.

Definition is_special (key : string) : bool := String.prefix "__" key.

Definition hasattr (key : string) : M bool :=
  if is_special key then stuck
  else mret (bool_decide (key ∈ attribute_names)).

Definition setattr (key : string) (value : pyval) : M unit :=
  match value with
  | PInt z =>
      match assoc key int_attributes with
      | Some set => modify_sim (set z)
      | None => stuck
      end
  | PFloat q =>
      match assoc key float_attributes with
      | Some set => modify_sim (set q)
      | None => stuck
      end
  | PBool b =>
      match assoc key bool_attributes with
      | Some set => modify_sim (set b)
      | None => stuck
      end
  | _ => stuck
  end.

(** [for node in self.nodes.values(): node.<field> = value] for a
    probability field, which holds a float. *)
Definition set_all_nodes (set : Q → GossipNode → GossipNode) (value : pyval)
  : M unit :=
  match value with
  | PFloat q => modify_sim (λ s, set_nodes (set q <$> nodes s) s)
  | _ => stuck
  end.

Definition update_parameters (kwargs : list (string * pyval)) : M unit :=
  if bool_decide ("self" ∈ kwargs.*1) then raise TypeError else
  for_ kwargs (λ kv,
    b ← hasattr kv.1;
    if (b : bool) then setattr kv.1 kv.2 else mret tt);;
  (match assoc "infection_probability" kwargs with
   | Some value => set_all_nodes set_infection_probability value
   | None => mret tt
   end);;
  (match assoc "recovery_probability" kwargs with
   | Some value => set_all_nodes set_recovery_probability value
   | None => mret tt
   end).

(** ** Vocabulary of the properties *)

(** The epidemic states of the nodes, in dictionary order. *)
Definition states (w : World) : list NodeState := state <$> nodes (sim w).

(** SUSCEPTIBLE < INFECTED < REMOVED *)
Definition rank (st : NodeState) : nat :=
  match st with SUSCEPTIBLE => 0 | INFECTED => 1 | REMOVED => 2 end.

Definition state_le (a b : NodeState) : Prop := (rank a ≤ rank b)%nat.

(** One node over one phase: unchanged, or SUSCEPTIBLE to INFECTED. *)
Definition infects (a b : NodeState) : Prop :=
  a = b ∨ (a = SUSCEPTIBLE ∧ b = INFECTED).

(** One node over one phase: unchanged, or INFECTED to REMOVED. *)
Definition recovers (a b : NodeState) : Prop :=
  a = b ∨ (a = INFECTED ∧ b = REMOVED).

(** The world [step] leaves behind when it finds no infected node. *)
Definition halted (w : World) : World :=
  set_sim (set_running false
            (set_step_count (step_count (sim w) + 1) (sim w))) w.

(** [k] calls of [step] in a row, as long as each returns. *)
Fixpoint steps (k : nat) : M unit :=
  match k with
  | O => mret tt
  | S k' => step ;; steps k'
  end.

(** ** Example worlds *)

(** A world in which no engine has been built yet: an empty store and the
    given tape. The engine slot holds a placeholder that
    [GossipSimulator_init] overwrites. *)
Definition fresh_world (t : nat → N) : World :=
  mkWorld (mkGossipSimulator 0 0 0 [] false 0 0 0 0 0 0) [] t 0 (λ _, 0%Q) 0.

(** The world after [m], whatever its outcome. *)
Definition after {A} (m : M A) (w : World) : World := (m w).2.

(** Two nodes on an 800 x 600 field. With the all-zero tape both are placed
    at (50, 50), so they are neighbours, and every Bernoulli trial
    succeeds. *)
Definition pair_world : World :=
  after (GossipSimulator_init 2 800 600) (fresh_world (λ _, 0%N)).

(** The pair engine started with no initially infected node. *)
Definition idle_world : World := after (start_gossip (Some [])) pair_world.

(** ** Histories *)

(** The public operations of the engine. *)
Inductive op :=
  | Start (initial_infected : option (list Z))
  | Step
  | UpdateParameters (kwargs : list (string * pyval))
  | GetStatistics
  | ResetSimulation.

Definition exec (o : op) : M unit :=
  match o with
  | Start initial_infected => start_gossip initial_infected
  | Step => step
  | UpdateParameters kwargs => update_parameters kwargs
  | GetStatistics => _ ← get_statistics; mret tt
  | ResetSimulation => reset_simulation
  end.

(** The world after a history of calls, oldest first. An exception goes to
    the caller, who may go on calling; a history ends where the model is
    stuck. *)
Fixpoint run (ops : list op) (w : World) : World :=
  match ops with
  | [] => w
  | o :: ops' =>
      match exec o w with
      | (Stuck, _) => w
      | (_, w') => run ops' w'
      end
  end.

(** Two worlds hold the same nodes up to [P], key by key. *)
Definition node_rel (P : relation GossipNode) : relation World :=
  λ w w', Forall2 P (nodes (sim w)) (nodes (sim w')).

(** ** The neighbour graph *)

(** [j] is in the neighbour set of the node under key [i]. *)
Definition adj (l : list GossipNode) (i j : nat) : Prop :=
  ∃ n, l !! i = Some n ∧ j ∈ neighbors n.

Definition symmetric_graph (l : list GossipNode) : Prop :=
  ∀ i j, adj l i j → adj l j i.

(** Every neighbour is the key of a node. *)
Definition closed_graph (l : list GossipNode) : Prop :=
  ∀ i j, adj l i j → (j < length l)%nat.

(** Every node can be reached from every other along neighbour links. *)
Definition connected_graph (l : list GossipNode) : Prop :=
  ∀ i j, (i < length l)%nat → (j < length l)%nat → rtc (adj l) i j.

(** Computations that leave the engine object alone. *)
Definition keeps_sim {A} (m : M A) : Prop := ∀ w, sim (m w).2 = sim w.

(** The two mutations that link [i] and [j]. *)
Definition linked (i j : nat) (l : list GossipNode) : list GossipNode :=
  alter (add_neighbor i) j (alter (add_neighbor j) i l).

(** The well-formedness of a topology over [N] nodes. *)
Definition graph_inv (N : nat) (l : list GossipNode) : Prop :=
  length l = N ∧ symmetric_graph l ∧ closed_graph l.

(** ** Arguments the engine does not know *)

(** A keyword of [update_parameters] that the engine passes over: it names
    no attribute of the engine object, is neither of the two per-node
    probabilities, and is not the receiver's name [self]. *)
Definition ignored (key : string) : bool :=
  negb (is_special key)
  && negb (bool_decide (key = "self"))
  && negb (bool_decide (key ∈ attribute_names))
  && negb (bool_decide (key = "infection_probability"))
  && negb (bool_decide (key = "recovery_probability")).

(** The keyword arguments without the ignored ones. *)
Definition known_kwargs (kwargs : list (string * pyval))
  : list (string * pyval) :=
  filter (λ kv, ignored kv.1 = false) kwargs.

(** The identifiers of [initial_infected] that are keys of [self.nodes]. *)
Definition existing_ids (s : GossipSimulator) (ids : list Z) : list Z :=
  filter (λ k, in_nodes k s = true) ids.

(** The operations that neither start nor reset a simulation. *)
Inductive quiet_op :=
  | QStep
  | QUpdateParameters (kwargs : list (string * pyval))
  | QGetStatistics.

Definition op_of (q : quiet_op) : op :=
  match q with
  | QStep => Step
  | QUpdateParameters kwargs => UpdateParameters kwargs
  | QGetStatistics => GetStatistics
  end.

(** A relation on epidemic states, read on nodes. *)
Definition on_state (R : relation NodeState) : relation GossipNode :=
  λ n n', R (state n) (state n').

(** ** The message store over time *)

(** Nothing is created: the store and the message counter are as before. *)
Definition same_store : relation World :=
  λ w w', heap w' = heap w
          ∧ message_counter (sim w') = message_counter (sim w).

(** The object under reference [r], the last one allocated, keeps its
    identifier and its origin; nothing else in the store changes. *)
Definition last_kept (r : ref) : relation World :=
  λ w w', message_counter (sim w') = message_counter (sim w) ∧
          ∀ H m, heap w = H ++ [m] → length H = r →
                 ∃ m', heap w' = H ++ [m'] ∧ source_node m' = source_node m
                       ∧ id m' = id m.

(** What one gossip round leaves in the store: nothing, or one message
    whose origin is the node under key [i] and whose identifier is made of
    the message counter and that node's identifier. *)
Definition round_created (i : nat) (w w' : World) : Prop :=
  same_store w w' ∨
  ∃ m n, heap w' = heap w ++ [m] ∧ nodes (sim w) !! i = Some n ∧
         source_node m = node_id n ∧
         id m = message_id (message_counter (sim w)) (node_id n) ∧
         message_counter (sim w') = message_counter (sim w) + 1.

(** The identifiers of the nodes under the given keys. *)
Definition node_ids_at (l : list GossipNode) (keys : list nat) : list nat :=
  omap (λ i, node_id <$> l !! i) keys.

(** Two node records for the same node. *)
Definition same_id : relation GossipNode :=
  λ n n', node_id n = node_id n'.

(** The operations of a simulation that is not reset: starting and
    stepping. *)
Inductive live_op :=
  | LStart (initial_infected : option (list Z))
  | LStep.

Definition op_of_live (o : live_op) : op :=
  match o with
  | LStart initial_infected => Start initial_infected
  | LStep => Step
  end.

(** From [w] to [w'] the store has only grown, by messages numbered with
    the successive values of the message counter. *)
Definition created : relation World :=
  λ w w', ∃ new,
    heap w' = heap w ++ new ∧
    message_counter (sim w')
    = message_counter (sim w) + Z.of_nat (length new) ∧
    ∀ j m, new !! j = Some m →
           ∃ k, id m = message_id (message_counter (sim w) + Z.of_nat j) k.

(** A string without the separator of message identifiers. *)
Fixpoint no_underscore (s : string) : Prop :=
  match s with
  | EmptyString => True
  | String a s' => a ≠ "_"%char ∧ no_underscore s'
  end.

(** ** One gossip round, as the specification words it

    The two definitions below do not come from the code: they follow the
    specification of a gossip round, and are compared with [_gossip_step]
    further down. *)

(** "For each selected target, independently perform a Bernoulli trial with
    the transmission probability; if it succeeds and the message's hop
    count is still below the max-hop limit, increment the message's hop
    count by one and deliver the message to the target via
    [receiveMessage]." *)
Definition spec_attempt (message : ref) (target_id : nat) : M unit :=
  u ← random_random;
  s ← get_sim;
  m ← deref message;
  if Qltb u (transmission_probability s) && (hop_count m <? max_hop_count s)
  then
    update_message message (λ m, set_hop_count (hop_count m + 1) m);;
    receive_message target_id message
  else mret tt.

(** "Sample up to [fanout] distinct neighbors [...]. Synthesize exactly one
    new Message for this round (fresh unique id, hop count starting at 0,
    origin = this node)", then one attempt per selected target. *)
Definition spec_round (i : nat) : M unit :=
  node ← get_node i;
  s ← get_sim;
  targets ← random_sample (elements (neighbors node))
               (Z.min (gossip_fanout s) (Z.of_nat (size (neighbors node))));
  now ← time_time;
  message ← new_message
    (mkMessage (message_id (message_counter s) (node_id node))
               ("Gossip from node " +:+ pretty (node_id node))
               now (node_id node) 0);
  modify_sim (λ s, set_message_counter (message_counter s + 1) s);;
  for_ targets (spec_attempt message).

(** The body of the delivery loop of [_gossip_step], under a name. *)
Definition attempt (message : ref) (target_id : nat) : M unit :=
  s ← get_sim;
  if in_nodes (Z.of_nat target_id) s then
    u ← random_random;
    if Qltb u (transmission_probability s) then
      m ← deref message;
      if hop_count m <? max_hop_count s then
        update_message message (λ m, set_hop_count (hop_count m + 1) m);;
        receive_message target_id message
      else mret tt
    else mret tt
  else mret tt.

(** The history of a node has only grown, by copies of the reference
    [r]. *)
Definition shares (r : ref) : relation GossipNode :=
  λ n n', ∃ k, message_history n' = message_history n ++ replicate k r.

(** The engine parameters, the node collection left aside, are as
    before. *)
Definition same_params : relation World :=
  λ w w', set_nodes [] (sim w') = set_nodes [] (sim w).

(** Three nodes, all placed at (50, 50) by the all-zero tape: each is a
    neighbour of the other two. *)
Definition trio_world : World :=
  after (GossipSimulator_init 3 800 600) (fresh_world (λ _, 0%N)).

(** Node 0 of the pair engine. *)
Definition pair_node0 : GossipNode :=
  default (GossipNode_init 0 0 0) (nodes (sim pair_world) !! 0%nat).

(** ** Vocabulary of the further properties *)

(** What [receive_message] does to a node that does not know the
    identifier [k] yet: the object is filed under [k] and appended to the
    history. *)
Definition record (k : string) (r : ref) (n : GossipNode) : GossipNode :=
  set_message_history (message_history n ++ [r])
    (set_messages (<[k := r]> (messages n)) n).

(** A value [random.random()] can return. *)
Definition unit_draw (u : Q) : Prop := (0 <= u)%Q ∧ (u < 1)%Q.

(** The part of a node that construction fixes: identifier, position and
    neighbours. *)
Definition same_place : relation GossipNode :=
  λ n n', node_id n' = node_id n ∧ x n' = x n ∧ y n' = y n
          ∧ neighbors n' = neighbors n.

(** A node as [GossipNode.__init__] leaves it, but for its neighbours. *)
Definition pristine (i : nat) (n : GossipNode) : Prop :=
  n = set_neighbors (neighbors n) (GossipNode_init i (x n) (y n)).

(** No node is its own neighbour. *)
Definition irreflexive_graph (l : list GossipNode) : Prop :=
  ∀ i, ¬ adj l i i.

(** The connection radius of [_build_network_topology]. *)
Definition connection_radius (s : GossipSimulator) : Q :=
  (inject_Z (Z.min (width s) (height s)) * (15 # 100))%Q.

(** Positions are kept and neighbour sets only grow. *)
Definition grows : relation GossipNode :=
  λ n n', x n' = x n ∧ y n' = y n ∧ neighbors n ⊆ neighbors n'.

(** Everything of a node but its neighbours is kept. *)
Definition but_neighbors : relation GossipNode :=
  λ n n', n' = set_neighbors (neighbors n') n.

(** A coordinate drawn by [random.uniform(50, size - 50)]. *)
Definition placed_coordinate (size : Z) (c : Q) : Prop :=
  ∃ u, unit_draw u ∧ c = (50 + (inject_Z (size - 50) - 50) * u)%Q.

(** The store and every engine field but the node collection are as
    before. *)
Definition same_rest : relation World :=
  λ w w', heap w' = heap w ∧ set_nodes [] (sim w') = set_nodes [] (sim w).

(** The pair [i], [j] is linked both ways if it is within the radius
    [r]. *)
Definition linked_if_close (r : Q) (i j : nat) (l : list GossipNode) : Prop :=
  ∀ n1 n2, l !! i = Some n1 → l !! j = Some n2 →
    within_radius n1 n2 r = true → j ∈ neighbors n1 ∧ i ∈ neighbors n2.

(** From [w] to [w'] no node has become its own neighbour. *)
Definition keeps_irreflexive : relation World :=
  λ w w', irreflexive_graph (nodes (sim w)) →
          irreflexive_graph (nodes (sim w')).

(** The world after the first step of the pair engine started at node 0:
    one message in the store, known to node 1 and not to node 0. *)
Definition stepped_world : World := run [Start None; Step] pair_world.

(** Node 0 of that world, and the message of the step. *)
Definition stepped_node0 : GossipNode :=
  default (GossipNode_init 0 0 0) (nodes (sim stepped_world) !! 0%nat).
Definition stepped_message : Message :=
  default (mkMessage "" "" 0 0 0) (heap stepped_world !! 0%nat).

(** The pair engine started at node 0. *)
Definition started_world : World := run [Start None] pair_world.
Definition started_node0 : GossipNode :=
  default (GossipNode_init 0 0 0) (nodes (sim started_world) !! 0%nat).

(** The node under key [k] as [start_gossip] leaves it for the identifiers
    [ids]: reset, and INFECTED if [k] is among them. *)
Definition seeded (ids : list Z) (k : nat) (n : GossipNode) : GossipNode :=
  if bool_decide (Z.of_nat k ∈ ids)
  then set_state INFECTED (reset_node n)
  else reset_node n.

(** The engine fields a step has no business with: the size of the
    population and of the field, and the four tunables. *)
Definition same_settings : relation World :=
  λ w w',
    num_nodes (sim w') = num_nodes (sim w) ∧
    width (sim w') = width (sim w) ∧
    height (sim w') = height (sim w) ∧
    gossip_fanout (sim w') = gossip_fanout (sim w) ∧
    transmission_probability (sim w') = transmission_probability (sim w) ∧
    max_hop_count (sim w') = max_hop_count (sim w) ∧
    simulation_speed (sim w') = simulation_speed (sim w).

(** The step count and the running flag are as before. *)
Definition same_progress : relation World :=
  λ w w', step_count (sim w') = step_count (sim w)
          ∧ running (sim w') = running (sim w).

(** The started pair engine after its fanout has been set to -1. *)
Definition negative_fanout_world : World :=
  after (update_parameters [("gossip_fanout", PInt (-1))]) started_world.

(** The history of a node is as long as its message dictionary is large. *)
Definition history_matches (n : GossipNode) : Prop :=
  length (message_history n) = size (messages n).

(** A property of nodes that holds afterwards if it held before. *)
Definition keeps (I : GossipNode → Prop) : relation GossipNode :=
  λ n n', I n → I n'.

(** From [n] to [n'] the state has not moved backward and no message has
    been forgotten. *)
Definition advances : relation GossipNode :=
  λ n n', state_le (state n) (state n') ∧ messages n ⊆ messages n'.

(** Everything of a node but its two probabilities is kept. *)
Definition but_probabilities : relation GossipNode :=
  λ n n', set_infection_probability 0 (set_recovery_probability 0 n')
          = set_infection_probability 0 (set_recovery_probability 0 n).

(** The message store is as before. *)
Definition same_heap : relation World := λ w w', heap w' = heap w.

(** One node over a recovery: its state is unchanged or goes from INFECTED
    to REMOVED, and its recovery probability is kept. *)
Definition recovering : relation GossipNode :=
  λ n n', recovers (state n) (state n')
          ∧ recovery_probability n' = recovery_probability n.

(** The recovery probability of a node is kept. *)
Definition same_recovery : relation GossipNode :=
  λ n n', recovery_probability n' = recovery_probability n.



(** No delivery can happen: the transmission probability is 0 or less, or
    the hop limit is. *)
Definition blocked (s : GossipSimulator) : Prop :=
  (transmission_probability s <= 0)%Q ∨ max_hop_count s ≤ 0.

(** The nodes and the two parameters that block deliveries are as
    before. *)
Definition undelivered : relation World :=
  λ w w', nodes (sim w') = nodes (sim w) ∧
          transmission_probability (sim w') = transmission_probability (sim w)
          ∧ max_hop_count (sim w') = max_hop_count (sim w).

(** [undelivered], as long as deliveries were blocked to begin with. *)
Definition stays_undelivered : relation World :=
  λ w w', blocked (sim w) → undelivered w w'.

(** A node has received nothing and has not been infected: its messages
    and history are as before, and its state is unchanged or has gone from
    INFECTED to REMOVED. *)
Definition undisturbed : relation GossipNode :=
  λ n n', messages n' = messages n ∧
          message_history n' = message_history n ∧
          recovers (state n) (state n').

(** The started pair engine after its transmission probability has been
    set to 0. *)
Definition blocked_world : World :=
  after (update_parameters [("transmission_probability", PFloat 0)])
    started_world.

(** A node without neighbours keeps none, and holds no message if it held
    none. *)
Definition stays_alone : relation GossipNode :=
  λ n n', neighbors n' = neighbors n ∧ (messages n = ∅ → messages n' = ∅).

(** No node has a neighbour. *)
Definition no_links (l : list GossipNode) : Prop :=
  Forall (λ n, neighbors n = ∅) l.

(** Every node newly visited has all its neighbours visited. *)
Definition explored (l : list GossipNode) (visited visited' : gset nat)
  : Prop :=
  ∀ v n, v ∈ visited' → v ∉ visited → l !! v = Some n →
         neighbors n ⊆ visited'.



(** A node forgets no message, and if it was SUSCEPTIBLE and no longer is,
    it holds more messages than before. *)
Definition caught : relation GossipNode :=
  λ n n', messages n ⊆ messages n' ∧
          (state n = SUSCEPTIBLE → state n' ≠ SUSCEPTIBLE →
           (size (messages n) < size (messages n'))%nat).

(** Two different nodes within the radius [r] of each other. *)
Definition close (r : Q) (l : list GossipNode) (i j : nat) : Prop :=
  i ≠ j ∧ ∃ n1 n2, l !! i = Some n1 ∧ l !! j = Some n2
                   ∧ within_radius n1 n2 r = true.

(** Only nodes within the radius [r] of each other are linked. *)
Definition only_close (r : Q) (l : list GossipNode) : Prop :=
  ∀ i j, adj l i j → close r l i j.

(** Node 1 of the pair engine. *)
Definition pair_node1 : GossipNode :=
  default (GossipNode_init 0 0 0) (nodes (sim pair_world) !! 1%nat).

(** How many different identifiers of [ids] are keys of [self.nodes]. *)
Definition seeds (s : GossipSimulator) (ids : list Z) : nat :=
  size (list_to_set (C := gset Z) (existing_ids s ids)).

(** Outside the keys in [T] the nodes are as before. *)
Definition only_at (T : nat → Prop) : relation World :=
  λ w w', ∀ t, ¬ T t → nodes (sim w') !! t = nodes (sim w) !! t.

(** [t] is a neighbour of one of the nodes of [l] under the keys [keys]. *)
Definition targeted (l : list GossipNode) (keys : list nat) (t : nat) : Prop :=
  ∃ i n, i ∈ keys ∧ l !! i = Some n ∧ t ∈ neighbors n.

(** As long as the topology is the one of [w0], only nodes targeted from
    [keys] are touched and the topology stays that of [w0]. *)
Definition spreads_from (w0 : World) (keys : list nat) : relation World :=
  λ w w', node_rel same_place w0 w →
          node_rel same_place w0 w'
          ∧ only_at (targeted (nodes (sim w0)) keys) w w'.



(** * Properties *)

(** ** Running monadic code *)

Lemma bind_run {A B} (m : M A) (f : A → M B) (w : World) :
  (m ≫= f) w =
  match m w with
  | (Return a, w') => f a w'
  | (Raise e, w') => (Raise e, w')
  | (Stuck, w') => (Stuck, w')
  end.
Proof. reflexivity. Qed.

Lemma ret_run {A} (a : A) (w : World) : (mret a : M A) w = (Return a, w).
Proof. reflexivity. Qed.

Lemma for_nil {A} (body : A → M unit) w : for_ [] body w = (Return tt, w).
Proof. reflexivity. Qed.

Lemma for_cons {A} (a : A) l (body : A → M unit) w :
  for_ (a :: l) body w = (body a ;; for_ l body) w.
Proof. reflexivity. Qed.

Lemma for_app {A} (l1 l2 : list A) (body : A → M unit) w :
  for_ (l1 ++ l2) body w = (for_ l1 body ;; for_ l2 body) w.
Proof.
  revert w. induction l1 as [|a l1 IH]; intros w; simpl.
  - reflexivity.
  - rewrite !bind_run. destruct (body a w) as [[[]|e|] w1]; try reflexivity.
    rewrite IH. reflexivity.
Qed.

(** A loop whose body does nothing on the elements it meets. *)
Lemma for_skip {A} (l : list A) (body : A → M unit) w :
  (∀ a, a ∈ l → body a w = (Return tt, w)) → for_ l body w = (Return tt, w).
Proof.
  induction l as [|a l IH]; intros H; simpl; [reflexivity|].
  rewrite bind_run, H by left. apply IH. intros b Hb. apply H. by right.
Qed.

(** A relation between the world before and the world after is kept by
    sequencing and by loops. *)
Section Rel.
Context (R : relation World) `{!PreOrder R}.

Lemma bind_rel {A B} (m : M A) (f : A → M B) w :
  R w (m w).2 →
  (∀ a w', m w = (Return a, w') → R w' (f a w').2) →
  R w ((m ≫= f) w).2.
Proof.
  intros Hm Hf. rewrite bind_run.
  destruct (m w) as [[a|e|] w'] eqn:E; simpl in *; try done.
  etrans; [exact Hm|]. by apply Hf.
Qed.

Lemma for_rel {A} (l : list A) (body : A → M unit) w :
  (∀ a w', a ∈ l → R w' (body a w').2) → R w (for_ l body w).2.
Proof.
  revert w. induction l as [|a l IH]; intros w H; simpl; [done|].
  apply bind_rel.
  - apply H. by left.
  - intros _ w' _. apply IH. intros b w'' Hb. apply H. by right.
Qed.
End Rel.

(** One step of symbolic execution: the outermost bind is run and the
    primitive it exposes is computed, the engine's own methods staying
    folded. *)
Ltac mcbn :=
  cbn -[for_ nodes_in_state _gossip_step recover receive_message
        count_state in_nodes random_sample random_random random_choice
        dfs elements].
Ltac mrun := mcbn; repeat (rewrite bind_run; mcbn).

(** ** Statistics *)

Lemma count_state_partition (l : list GossipNode) :
  (count_state SUSCEPTIBLE l + count_state INFECTED l
   + count_state REMOVED l = length l)%nat.
Proof.
  unfold count_state. induction l as [|n l IH]; [reflexivity|].
  rewrite !filter_cons. destruct (state n) eqn:E;
    repeat case_decide; try congruence; simpl; lia.
Qed.

Lemma count_state_reset (st : NodeState) (l : list GossipNode) :
  count_state st (reset_node <$> l)
  = if decide (st = SUSCEPTIBLE) then length l else 0%nat.
Proof.
  unfold count_state. induction l as [|n l IH].
  - by case_decide.
  - rewrite fmap_cons, filter_cons.
    change (state (reset_node n)) with SUSCEPTIBLE.
    destruct st; repeat case_decide; try congruence; simpl; congruence.
Qed.

Lemma total_messages_reset (l : list GossipNode) :
  sum_list ((λ n, size (messages n)) <$> (reset_node <$> l)) = 0%nat.
Proof.
  induction l as [|n l IH]; [reflexivity|].
  rewrite !fmap_cons. cbn [sum_list sum_list_with]. rewrite IH. reflexivity.
Qed.

(** Whatever the world, [reset_simulation] returns and the statistics read
    afterwards are those of a fresh engine over the same nodes. *)
Lemma reset_statistics_any (w : World) :
  ∃ w', reset_simulation w = (Return tt, w') ∧
        get_statistics w'
        = (Return (mkStatistics 0 (length (nodes (sim w))) 0 0 0 false), w').
Proof.
  eexists. split; [reflexivity|].
  unfold get_statistics, statistics. rewrite bind_run.
  cbn -[count_state fmap sum_list_with].
  rewrite !count_state_reset, total_messages_reset. reflexivity.
Qed.

(** C10. Every statistics snapshot partitions the nodes: the susceptible,
    infected and removed counts add up to the number of nodes, in any world
    (so at any point of the engine's lifetime). *)
Theorem statistics_counts_partition (w : World) :
  ∃ st, get_statistics w = (Return st, w) ∧
        (stat_susceptible st + stat_infected st + stat_removed st
         = length (nodes (sim w)))%nat.
Proof.
  eexists. split; [reflexivity|]. cbn. apply count_state_partition.
Qed.

(** ** [step] on an engine that has stopped or has nothing left to spread *)

Lemma step_not_running (w : World) :
  running (sim w) = false → step w = (Return tt, w).
Proof. intros H. unfold step. mrun. by rewrite H. Qed.

Lemma step_no_infected (w : World) :
  running (sim w) = true → nodes_in_state INFECTED (nodes (sim w)) = [] →
  step w = (Return tt, halted w).
Proof.
  intros Hr Hi. unfold step. mrun. rewrite Hr. mrun. rewrite Hi. reflexivity.
Qed.

Lemma steps_not_running (k : nat) (w : World) :
  running (sim w) = false → steps k w = (Return tt, w).
Proof.
  intros H. induction k as [|k IH]; [reflexivity|].
  simpl. rewrite bind_run, step_not_running by done. exact IH.
Qed.

Lemma start_gossip_returns (ids : option (list Z)) (w : World) :
  ∃ w', start_gossip ids w = (Return tt, w') ∧ running (sim w') = true
        ∧ step_count (sim w') = 0.
Proof.
  unfold start_gossip. rewrite bind_run. cbn.
  set (w1 := set_sim _ w). clearbody w1.
  rewrite bind_run.
  assert (∃ w2, for_ (default [0] ids)
     (λ node_id, s ← get_sim;
        if in_nodes node_id s then modify_node (Z.to_nat node_id) infect
        else mret tt) w1 = (Return tt, w2)) as [w2 ->].
  { generalize (default [0] ids). intros l. revert w1.
    induction l as [|a l IH]; intros w1; [by eexists|].
    simpl. rewrite !bind_run. cbn.
    destruct (in_nodes a (sim w1)); cbn; apply IH. }
  eexists. split; [reflexivity|]. done.
Qed.

(** C8. When the engine is not running, [step] returns at once and changes
    nothing; when it is running and no node is INFECTED at the start of the
    step, [step] returns with [running] false. From then on any number of
    further [step] calls leaves the world as it is, and the next
    [start_gossip] sets [running] again. *)
Theorem step_stops_and_stays_stopped (w : World) :
  running (sim w) = false ∨ nodes_in_state INFECTED (nodes (sim w)) = [] →
  let w' := if running (sim w) then halted w else w in
  step w = (Return tt, w') ∧
  running (sim w') = false ∧
  (∀ k, steps k w' = (Return tt, w')) ∧
  (∀ ids, ∃ w'', start_gossip ids w' = (Return tt, w'')
                 ∧ running (sim w'') = true).
Proof.
  intros H. destruct (running (sim w)) eqn:Hr; simpl.
  - destruct H as [H|H]; [done|].
    split; [by apply step_no_infected|]. split; [done|]. split.
    + intros k. by apply steps_not_running.
    + intros ids. destruct (start_gossip_returns ids (halted w)) as (w''&?&?&?).
      eauto.
  - split; [by apply step_not_running|]. split; [done|]. split.
    + intros k. by apply steps_not_running.
    + intros ids. destruct (start_gossip_returns ids w) as (w''&?&?&?). eauto.
Qed.

Lemma step_stops_and_stays_stopped_witness :
  (running (sim idle_world) = false
   ∨ nodes_in_state INFECTED (nodes (sim idle_world)) = []) ∧
  step idle_world = (Return tt, halted idle_world) ∧
  running (sim (halted idle_world)) = false.
Proof.
  split; [right; reflexivity|].
  destruct (step_stops_and_stays_stopped idle_world) as (H1 & H2 & _).
  { right. reflexivity. }
  split; [exact H1|exact H2].
Defined.

(** ** What the operations do to the node collection

    Every operation changes the nodes in place, key by key. For a preorder
    [P] on nodes that the elementary mutations respect, the nodes before and
    after an operation are related by [P] at every key. *)

#[global] Instance node_rel_preorder (P : relation GossipNode) :
  PreOrder P → PreOrder (node_rel P).
Proof.
  intros HP. split.
  - intros w. unfold node_rel. apply Forall2_same_length_lookup.
    split; [done|]. intros i a b Ha Hb. simplify_eq. reflexivity.
  - intros w1 w2 w3. unfold node_rel. intros H12 H23.
    eapply Forall2_trans; [|exact H12|exact H23].
    intros a b c. apply transitivity.
Qed.

Lemma keeps_sim_bind {A B} (m : M A) (f : A → M B) :
  keeps_sim m → (∀ a, keeps_sim (f a)) → keeps_sim (m ≫= f).
Proof.
  intros Hm Hf w. rewrite bind_run. specialize (Hm w).
  destruct (m w) as [[a|e|] w']; simpl in *; try done.
  rewrite Hf. exact Hm.
Qed.

Lemma keeps_sim_ret {A} (a : A) : keeps_sim (mret a).
Proof. done. Qed.

Lemma keeps_sim_draw : keeps_sim draw.
Proof. done. Qed.

Lemma keeps_sim_random_random : keeps_sim random_random.
Proof. done. Qed.

Lemma keeps_sim_randbelow n : keeps_sim (randbelow n).
Proof. done. Qed.

Lemma keeps_sim_random_choice {A} (l : list A) : keeps_sim (random_choice l).
Proof. by destruct l. Qed.

Lemma keeps_sim_sample_loop {A} k (pool : list A) :
  keeps_sim (sample_loop k pool).
Proof.
  revert pool. induction k as [|k IH]; intros [|d pool]; try done.
  cbn [sample_loop]. apply keeps_sim_bind; [done|]. intros j.
  apply keeps_sim_bind; [apply IH|done].
Qed.

Lemma keeps_sim_random_sample {A} (l : list A) k :
  keeps_sim (random_sample l k).
Proof.
  unfold random_sample. case_match; [done|]. apply keeps_sim_sample_loop.
Qed.

Lemma keeps_sim_get_node i : keeps_sim (get_node i).
Proof. intros w. unfold get_node. by case_match. Qed.

Lemma keeps_sim_deref r : keeps_sim (deref r).
Proof. intros w. unfold deref. by case_match. Qed.

Lemma keeps_sim_rel {A} (R : relation World) (m : M A) w :
  (∀ w w', sim w' = sim w → R w w') → keeps_sim m → R w (m w).2.
Proof. intros HR Hm. apply HR, Hm. Qed.

Section NodeRel.
Context (P : relation GossipNode) `{!PreOrder P}.

Lemma node_rel_same_sim w w' : sim w' = sim w → node_rel P w w'.
Proof. unfold node_rel. intros ->. apply (reflexivity (R:=node_rel P) w). Qed.

Lemma node_rel_same_nodes w w' :
  nodes (sim w') = nodes (sim w) → node_rel P w w'.
Proof. unfold node_rel. intros ->. apply (reflexivity (R:=node_rel P) w). Qed.

Lemma keeps_sim_node_rel {A} (m : M A) w :
  keeps_sim m → node_rel P w (m w).2.
Proof. intros Hm. apply node_rel_same_sim, Hm. Qed.

Lemma node_rel_length w w' :
  node_rel P w w' → length (nodes (sim w)) = length (nodes (sim w')).
Proof. apply Forall2_length. Qed.

Lemma modify_node_rel i f w :
  (∀ n, nodes (sim w) !! i = Some n → P n (f n)) →
  node_rel P w (modify_node i f w).2.
Proof.
  intros H. unfold node_rel. cbn.
  apply Forall2_same_length_lookup. split; [by rewrite length_alter|].
  intros j a b Ha Hb. destruct (decide (i = j)) as [->|Hne].
  - rewrite list_lookup_alter_eq, Ha in Hb. simplify_eq/=. by apply H.
  - rewrite list_lookup_alter_ne in Hb by done. simplify_eq. reflexivity.
Qed.

Lemma map_nodes_rel f w :
  (∀ n, P n (f n)) →
  node_rel P w (modify_sim (λ s, set_nodes (f <$> nodes s) s) w).2.
Proof.
  intros H. unfold node_rel. cbn. apply Forall2_fmap_r, Forall_Forall2_diag.
  apply Forall_forall. auto.
Qed.
End NodeRel.

Lemma get_node_inv i w n w' :
  get_node i w = (Return n, w') → w' = w ∧ nodes (sim w) !! i = Some n.
Proof. unfold get_node. case_match; naive_solver. Qed.

Lemma get_sim_inv w s w' : get_sim w = (Return s, w') → w' = w ∧ s = sim w.
Proof. unfold get_sim. naive_solver. Qed.

Lemma keeps_sim_inv {A} (m : M A) w o w' :
  keeps_sim m → m w = (o, w') → sim w' = sim w.
Proof. intros Hm E. specialize (Hm w). by rewrite E in Hm. Qed.

Section Operations.
Context (P : relation GossipNode) `{!PreOrder P}.

Hypothesis P_messages : ∀ n ms, P n (set_messages ms n).
Hypothesis P_history : ∀ n h, P n (set_message_history h n).
Hypothesis P_infect : ∀ n, state n = SUSCEPTIBLE → P n (set_state INFECTED n).
Hypothesis P_recover : ∀ n, state n = INFECTED → P n (set_state REMOVED n).
Hypothesis P_infection_probability :
  ∀ n q, P n (set_infection_probability q n).
Hypothesis P_recovery_probability :
  ∀ n q, P n (set_recovery_probability q n).
Hypothesis P_reset : ∀ n, P n (reset_node n).

Lemma infect_rel n : P n (infect n).
Proof. unfold infect. case_decide; [by apply P_infect|reflexivity]. Qed.

Lemma receive_message_rel i message w :
  node_rel P w (receive_message i message w).2.
Proof.
  unfold receive_message.
  apply (bind_rel (node_rel P)); [by apply (keeps_sim_node_rel P), keeps_sim_get_node|].
  intros n w1 _.
  apply (bind_rel (node_rel P)); [by apply (keeps_sim_node_rel P), keeps_sim_deref|].
  intros m w2 _. case_match; [reflexivity|].
  apply (bind_rel (node_rel P)); [by apply (modify_node_rel P)|]. intros _ w3 _.
  apply (bind_rel (node_rel P)); [by apply (modify_node_rel P)|]. intros _ w4 _.
  apply (bind_rel (node_rel P)); [by apply (keeps_sim_node_rel P), keeps_sim_get_node|].
  intros n' w5 _. case_decide; [|reflexivity].
  apply (bind_rel (node_rel P)); [by apply (keeps_sim_node_rel P)|].
  intros u w6 _. case_match; [|reflexivity].
  apply (modify_node_rel P). intros; apply infect_rel.
Qed.

Lemma recover_rel i w : node_rel P w (recover i w).2.
Proof.
  unfold recover.
  apply (bind_rel (node_rel P)); [by apply (keeps_sim_node_rel P), keeps_sim_get_node|].
  intros n w1 [-> Hn]%get_node_inv. case_decide as Hst; [|reflexivity].
  apply (bind_rel (node_rel P)); [by apply (keeps_sim_node_rel P)|].
  intros u w2 Hw2%(keeps_sim_inv _ _ _ _ keeps_sim_random_random).
  case_match; [|reflexivity].
  apply (modify_node_rel P). intros n'. rewrite Hw2, Hn.
  intros [= <-]. by apply P_recover.
Qed.

Lemma gossip_step_rel i w : node_rel P w (_gossip_step i w).2.
Proof.
  unfold _gossip_step.
  apply (bind_rel (node_rel P)); [by apply (keeps_sim_node_rel P), keeps_sim_get_node|].
  intros node w1 _. case_decide; [reflexivity|].
  apply (bind_rel (node_rel P)); [by apply (keeps_sim_node_rel P)|]. intros s w2 _.
  apply (bind_rel (node_rel P));
    [by apply (keeps_sim_node_rel P), keeps_sim_random_sample|].
  intros targets w3 _.
  apply (bind_rel (node_rel P)); [by apply (keeps_sim_node_rel P)|]. intros s' w4 _.
  apply (bind_rel (node_rel P)); [by apply (keeps_sim_node_rel P)|]. intros now w5 _.
  apply (bind_rel (node_rel P)); [by apply (keeps_sim_node_rel P)|]. intros message w6 _.
  apply (bind_rel (node_rel P)); [by apply (node_rel_same_nodes P)|]. intros _ w7 _.
  apply (for_rel (node_rel P)). intros target_id w8 _.
  apply (bind_rel (node_rel P)); [by apply (keeps_sim_node_rel P)|]. intros s'' w9 _.
  case_match; [|reflexivity].
  apply (bind_rel (node_rel P)); [by apply (keeps_sim_node_rel P)|]. intros u w10 _.
  case_match; [|reflexivity].
  apply (bind_rel (node_rel P)); [by apply (keeps_sim_node_rel P), keeps_sim_deref|].
  intros m w11 _. case_match; [|reflexivity].
  apply (bind_rel (node_rel P)); [by apply (keeps_sim_node_rel P)|]. intros _ w12 _.
  apply receive_message_rel.
Qed.

Lemma step_rel w : node_rel P w (step w).2.
Proof.
  unfold step.
  apply (bind_rel (node_rel P)); [by apply (keeps_sim_node_rel P)|]. intros s w1 _.
  case_match; [reflexivity|].
  apply (bind_rel (node_rel P)); [by apply (node_rel_same_nodes P)|]. intros _ w2 _.
  apply (bind_rel (node_rel P)); [by apply (keeps_sim_node_rel P)|]. intros s' w3 _.
  case_match; [by apply (node_rel_same_nodes P)|].
  apply (bind_rel (node_rel P)).
  { apply (for_rel (node_rel P)). intros. apply gossip_step_rel. }
  intros _ w4 _.
  apply (bind_rel (node_rel P)); [by apply (keeps_sim_node_rel P)|]. intros s'' w5 _.
  apply (for_rel (node_rel P)). intros. apply recover_rel.
Qed.

Lemma setattr_rel key value w : node_rel P w (setattr key value w).2.
Proof.
  unfold setattr. repeat case_match; try reflexivity;
    apply (node_rel_same_nodes P); cbn;
    unfold int_attributes, float_attributes, bool_attributes in *;
    cbn in *; repeat case_decide; by simplify_eq.
Qed.

Lemma set_all_nodes_rel set value w :
  (∀ n q, P n (set q n)) → node_rel P w (set_all_nodes set value w).2.
Proof.
  intros H. unfold set_all_nodes. case_match; try reflexivity.
  by apply (map_nodes_rel P).
Qed.

Lemma update_parameters_rel kwargs w :
  node_rel P w (update_parameters kwargs w).2.
Proof.
  unfold update_parameters. case_match; [reflexivity|].
  apply (bind_rel (node_rel P)).
  { apply (for_rel (node_rel P)). intros kv w1 _.
    apply (bind_rel (node_rel P)).
    - apply (node_rel_same_sim P). unfold hasattr. by case_match.
    - intros b w2 _. destruct b; [apply setattr_rel|reflexivity]. }
  intros _ w1 _. apply (bind_rel (node_rel P)).
  { case_match; [by apply set_all_nodes_rel|reflexivity]. }
  intros _ w2 _. case_match; [by apply set_all_nodes_rel|reflexivity].
Qed.

Lemma start_gossip_rel ids w : node_rel P w (start_gossip ids w).2.
Proof.
  unfold start_gossip.
  apply (bind_rel (node_rel P)); [by apply (map_nodes_rel P)|]. intros _ w1 _.
  apply (bind_rel (node_rel P)).
  { apply (for_rel (node_rel P)). intros node_id w2 _.
    apply (bind_rel (node_rel P)); [by apply (keeps_sim_node_rel P)|]. intros s w3 _.
    case_match; [|reflexivity].
    apply (modify_node_rel P). intros; apply infect_rel. }
  intros _ w2 _.
  apply (bind_rel (node_rel P)); by intros; apply (node_rel_same_nodes P).
Qed.

Lemma reset_simulation_rel w : node_rel P w (reset_simulation w).2.
Proof.
  unfold reset_simulation.
  apply (bind_rel (node_rel P)); [by apply (node_rel_same_nodes P)|]. intros _ w1 _.
  apply (bind_rel (node_rel P)); [by apply (node_rel_same_nodes P)|]. intros _ w2 _.
  apply (bind_rel (node_rel P)); [by apply (node_rel_same_nodes P)|]. intros _ w3 _.
  by apply (map_nodes_rel P).
Qed.

Lemma exec_rel o w : node_rel P w (exec o w).2.
Proof.
  destruct o; simpl.
  - apply start_gossip_rel.
  - apply step_rel.
  - apply update_parameters_rel.
  - by apply (node_rel_same_sim P).
  - apply reset_simulation_rel.
Qed.

Lemma run_rel ops w : node_rel P w (run ops w).
Proof.
  revert w. induction ops as [|o ops IH]; intros w; simpl; [reflexivity|].
  pose proof (exec_rel o w) as H.
  destruct (exec o w) as [[[]|e|] w']; simpl in H; try reflexivity;
    (etrans; [exact H|apply IH]).
Qed.
End Operations.

(** ** Construction: the nodes *)

Lemma random_random_run w :
  random_random w
  = (Return (Z.of_N (tape w (cursor w) `mod` 2 ^ 53)%N # 2 ^ 53)%Q,
     set_cursor (S (cursor w)) w).
Proof. reflexivity. Qed.

Lemma random_uniform_run a b w :
  random_uniform a b w
  = (Return (a + (b - a)
                 * (Z.of_N (tape w (cursor w) `mod` 2 ^ 53)%N # 2 ^ 53))%Q,
     set_cursor (S (cursor w)) w).
Proof. reflexivity. Qed.

Lemma randbelow_run n w :
  randbelow n w
  = (Return (N.to_nat (tape w (cursor w) `mod` N.of_nat n)%N),
     set_cursor (S (cursor w)) w).
Proof. reflexivity. Qed.

Lemma initialize_nodes_loop (k a : nat) (w : World) :
  length (nodes (sim w)) = a →
  Forall (λ n, neighbors n = ∅) (nodes (sim w)) →
  ∃ w',
    for_ (seq a k) (λ i,
      s ← get_sim;
      x ← random_uniform 50 (inject_Z (width s - 50));
      y ← random_uniform 50 (inject_Z (height s - 50));
      modify_sim (λ s,
        set_nodes (dict_set i (GossipNode_init i x y) (nodes s)) s)) w
    = (Return tt, w') ∧
    length (nodes (sim w')) = (a + k)%nat ∧
    Forall (λ n, neighbors n = ∅) (nodes (sim w')) ∧
    num_nodes (sim w') = num_nodes (sim w).
Proof.
  revert a w. induction k as [|k IH]; intros a w Hlen Hemp.
  - exists w. rewrite Nat.add_0_r. done.
  - cbn [seq]. rewrite for_cons, bind_run. mrun.
    rewrite random_uniform_run. mrun. rewrite random_uniform_run. mrun.
    match goal with |- context [for_ _ _ ?w1] => set (w1' := w1) end.
    destruct (IH (S a) w1') as (w' & Hrun & Hl & He & Hn).
    + subst w1'. cbn. unfold dict_set.
      rewrite decide_False by lia. rewrite length_app. simpl. lia.
    + subst w1'. cbn. unfold dict_set.
      rewrite decide_False by lia. apply Forall_app. split; [done|].
      by repeat constructor.
    + exists w'. rewrite Hrun. split; [done|]. split; [lia|]. done.
Qed.

Lemma initialize_nodes_run (w : World) :
  nodes (sim w) = [] →
  ∃ w', _initialize_nodes w = (Return tt, w') ∧
    length (nodes (sim w')) = Z.to_nat (num_nodes (sim w)) ∧
    Forall (λ n, neighbors n = ∅) (nodes (sim w')) ∧
    num_nodes (sim w') = num_nodes (sim w).
Proof.
  intros Hnil. unfold _initialize_nodes. rewrite bind_run. mcbn.
  unfold range.
  destruct (initialize_nodes_loop (Z.to_nat (num_nodes (sim w))) 0 w)
    as (w' & Hrun & Hl & He & Hn).
  - by rewrite Hnil.
  - rewrite Hnil. constructor.
  - exists w'. done.
Qed.

(** A loop that returns at every turn and keeps an invariant. *)
Lemma for_inv {A} (I : World → Prop) (l : list A) (body : A → M unit) w :
  I w →
  (∀ a w, a ∈ l → I w → ∃ w', body a w = (Return tt, w') ∧ I w') →
  ∃ w', for_ l body w = (Return tt, w') ∧ I w'.
Proof.
  revert w. induction l as [|a l IH]; intros w Hw Hbody.
  - by exists w.
  - destruct (Hbody a w) as (w1 & E1 & Hw1); [by left|done|].
    destruct (IH w1) as (w2 & E2 & Hw2); [done| |].
    { intros b w' Hb. apply Hbody. by right. }
    exists w2. by rewrite for_cons, bind_run, E1.
Qed.

(** ** Construction: the links *)

Lemma adj_add_neighbor (l : list GossipNode) (i j a b : nat) :
  adj (alter (add_neighbor j) i l) a b
  ↔ adj l a b ∨ (a = i ∧ b = j ∧ (i < length l)%nat).
Proof.
  unfold adj. destruct (decide (i = a)) as [->|Hne].
  - rewrite list_lookup_alter_eq. split.
    + intros (n & Hn & Hb). destruct (l !! a) as [n0|] eqn:E; [|done].
      simplify_eq/=. apply elem_of_union in Hb as [Hb|Hb%elem_of_singleton].
      * left. eauto.
      * right. apply lookup_lt_Some in E. done.
    + intros [(n & Hn & Hb)|(_ & -> & Hlt)].
      * rewrite Hn. eexists. split; [done|]. simpl. set_solver.
      * apply lookup_lt_is_Some in Hlt as [n Hn]. rewrite Hn.
        eexists. split; [done|]. simpl. set_solver.
  - rewrite list_lookup_alter_ne by done. naive_solver.
Qed.

Lemma adj_linked (l : list GossipNode) (i j a b : nat) :
  (i < length l)%nat → (j < length l)%nat →
  adj (linked i j l) a b ↔ adj l a b ∨ (a = i ∧ b = j) ∨ (a = j ∧ b = i).
Proof.
  intros Hi Hj. unfold linked. rewrite !adj_add_neighbor, length_alter.
  naive_solver.
Qed.

Lemma linked_length i j l : length (linked i j l) = length l.
Proof. unfold linked. by rewrite !length_alter. Qed.

Lemma linked_symmetric i j l :
  (i < length l)%nat → (j < length l)%nat →
  symmetric_graph l → symmetric_graph (linked i j l).
Proof.
  intros Hi Hj Hs a b. rewrite !adj_linked by done.
  intros [H|[H|H]]; [left; by apply Hs|..]; naive_solver.
Qed.

Lemma linked_closed i j l :
  (i < length l)%nat → (j < length l)%nat →
  closed_graph l → closed_graph (linked i j l).
Proof.
  intros Hi Hj Hc a b. rewrite adj_linked, linked_length by done.
  intros [H|[[-> ->]|[-> ->]]]; [by eapply Hc|done..].
Qed.

Lemma linked_rtc i j l a b :
  (i < length l)%nat → (j < length l)%nat →
  rtc (adj l) a b → rtc (adj (linked i j l)) a b.
Proof.
  intros Hi Hj. apply rtc_subrel. intros c d H. apply adj_linked; auto.
Qed.

Lemma modify_node_run i f w :
  modify_node i f w
  = (Return tt, set_sim (set_nodes (alter f i (nodes (sim w))) (sim w)) w).
Proof. reflexivity. Qed.

Lemma get_node_run i n w :
  nodes (sim w) !! i = Some n → get_node i w = (Return n, w).
Proof. intros H. unfold get_node. by rewrite H. Qed.

Lemma pairwise_loop (N : nat) (n : Z) (r : Q) (w : World) :
  Z.to_nat n = N →
  graph_inv N (nodes (sim w)) →
  ∃ w',
    for_ (range n) (λ i,
      for_ (range_from (i + 1) n) (λ j,
        node1 ← get_node i;
        node2 ← get_node j;
        if within_radius node1 node2 r then
          modify_node i (add_neighbor j);;
          modify_node j (add_neighbor i)
        else mret tt)) w
    = (Return tt, w') ∧
    graph_inv N (nodes (sim w')) ∧ num_nodes (sim w') = num_nodes (sim w).
Proof.
  intros HN Hw.
  apply (for_inv (λ w', graph_inv N (nodes (sim w'))
                        ∧ num_nodes (sim w') = num_nodes (sim w))); [done|].
  intros i w1 Hi [Hw1 Hn1]. unfold range in Hi.
  apply elem_of_seq in Hi.
  apply (for_inv (λ w', graph_inv N (nodes (sim w'))
                        ∧ num_nodes (sim w') = num_nodes (sim w))); [done|].
  intros j w2 Hj [(Hlen & Hsym & Hcl) Hn2]. unfold range_from in Hj.
  apply elem_of_seq in Hj.
  assert (i < length (nodes (sim w2)))%nat as Hi' by lia.
  assert (j < length (nodes (sim w2)))%nat as Hj' by lia.
  destruct (lookup_lt_is_Some_2 _ _ Hi') as [n1 Hn1'].
  destruct (lookup_lt_is_Some_2 _ _ Hj') as [n2 Hn2'].
  rewrite bind_run, (get_node_run _ _ _ Hn1').
  rewrite bind_run, (get_node_run _ _ _ Hn2').
  destruct (within_radius n1 n2 r).
  - rewrite bind_run, !modify_node_run. eexists. split; [reflexivity|].
    cbn. change (alter (add_neighbor i) j (alter (add_neighbor j) i ?l))
      with (linked i j l).
    split; [|done]. split; [|split].
    + rewrite linked_length. done.
    + by apply linked_symmetric.
    + by apply linked_closed.
  - eexists. split; [reflexivity|]. done.
Qed.

(** ** Construction: the traversal *)

Lemma dfs_unfold fuel node_id visited :
  dfs fuel node_id visited =
  if decide (node_id ∈ visited) then mret visited else
  match fuel with
  | O => stuck
  | S fuel' =>
      n ← get_node node_id;
      foldr (λ neighbor k visited,
               visited' ← dfs fuel' neighbor visited; k visited')
            mret (elements (neighbors n)) (visited ∪ {[node_id]})
  end.
Proof. by destruct fuel. Qed.

Section Traversal.
Context (w : World) (N root : nat).
Let l := nodes (sim w).
Hypothesis l_length : length l = N.
Hypothesis l_closed : closed_graph l.

(** What is known of a visited set: keys only, all reachable from the
    root. *)
Let sound (visited : gset nat) : Prop :=
  ∀ v, v ∈ visited → (v < N)%nat ∧ rtc (adj l) root v.

Let todo (visited : gset nat) : nat :=
  size (set_seq (C:=gset nat) 0 N ∖ visited).

Lemma todo_mono visited visited' :
  visited ⊆ visited' → (todo visited' ≤ todo visited)%nat.
Proof. intros H. unfold todo. apply subseteq_size. set_solver. Qed.

Lemma todo_visit visited node :
  (node < N)%nat → node ∉ visited →
  (todo (visited ∪ {[node]}) < todo visited)%nat.
Proof.
  intros Hlt Hnot. unfold todo. apply subset_size.
  apply strict_spec_alt. split.
  - set_solver.
  - intros Heq.
    assert (node ∈ set_seq (C:=gset nat) 0 N ∖ visited) as Hin.
    { apply elem_of_difference. split; [|done].
      apply elem_of_set_seq. lia. }
    rewrite <-Heq in Hin. set_solver.
Qed.

Lemma dfs_run fuel : ∀ node visited,
  (todo visited ≤ fuel)%nat →
  sound visited → (node < N)%nat → rtc (adj l) root node →
  ∃ visited',
    dfs fuel node visited w = (Return visited', w) ∧
    visited ⊆ visited' ∧ node ∈ visited' ∧ sound visited'.
Proof.
  induction fuel as [|fuel IH]; intros node visited Hfuel Hs Hlt Hreach;
    rewrite dfs_unfold; case_decide as Hin.
  - exists visited. done.
  - pose proof (todo_visit visited node Hlt Hin). lia.
  - exists visited. done.
  - destruct (lookup_lt_is_Some_2 l node) as [n Hn]; [lia|].
    rewrite bind_run, (get_node_run _ _ _ Hn).
    assert (∀ nb, nb ∈ elements (neighbors n) →
              (nb < N)%nat ∧ rtc (adj l) root nb) as Hnbs.
    { intros nb Hnb%elem_of_elements.
      assert (adj l node nb) as Hadj by (exists n; done).
      split; [rewrite <-l_length; by eapply l_closed|].
      by eapply rtc_r. }
    assert (sound (visited ∪ {[node]})) as Hs1.
    { intros v [Hv|Hv%elem_of_singleton]%elem_of_union; [by apply Hs|].
      by subst. }
    assert (todo (visited ∪ {[node]}) ≤ fuel)%nat as Hf1.
    { pose proof (todo_visit visited node Hlt Hin). lia. }
    assert (node ∈ visited ∪ {[node]}) as Hnode by set_solver.
    assert (visited ⊆ visited ∪ {[node]}) as Hsub by set_solver.
    revert Hs1 Hf1 Hnode Hsub.
    generalize (visited ∪ {[node]}) as cur.
    induction (elements (neighbors n)) as [|nb nbs IHn];
      intros cur Hs1 Hf1 Hnode Hsub.
    + exists cur. done.
    + cbn [foldr]. rewrite bind_run.
      destruct (IH nb cur) as (v1 & -> & Hsub1 & _ & Hs2);
        [done|done|apply Hnbs; by left|apply Hnbs; by left|].
      destruct (IHn) with (cur := v1) as (v2 & E2 & Hsub2 & Hn2 & Hs3).
      * intros nb' Hnb'. apply Hnbs. by right.
      * done.
      * pose proof (todo_mono cur v1 Hsub1). lia.
      * set_solver.
      * set_solver.
      * exists v2. done.
Qed.
End Traversal.

(** ** Construction: the repair *)

Lemma random_choice_run {A} (l : list A) (w : World) :
  l ≠ [] →
  ∃ a, a ∈ l ∧
       random_choice l w = (Return a, set_cursor (S (cursor w)) w).
Proof.
  intros Hl. destruct l as [|d l']; [done|].
  unfold random_choice. rewrite bind_run, randbelow_run.
  eexists. split; [|reflexivity].
  apply list_elem_of_In, nth_In.
  set (len := length (d :: l')).
  assert (0 < N.of_nat len)%N by (subst len; simpl; lia).
  pose proof (N.mod_lt (tape w (cursor w)) (N.of_nat len)). lia.
Qed.

Lemma node_do_run i f n w :
  nodes (sim w) !! i = Some n →
  node_do i f w
  = (Return tt, set_sim (set_nodes (alter f i (nodes (sim w))) (sim w)) w).
Proof.
  intros H. unfold node_do. by rewrite bind_run, (get_node_run _ _ _ H).
Qed.

Lemma repair_loop (N : nat) : ∀ (todo : list nat) (visited : gset nat) w,
  graph_inv N (nodes (sim w)) →
  (∀ v, v ∈ todo → (v < N)%nat) →
  (∀ v, v ∈ visited → (v < N)%nat ∧ rtc (adj (nodes (sim w))) 0%nat v) →
  (visited = ∅ → todo = []) →
  ∃ w',
    foldr (λ node_id k (visited : gset nat),
             if decide (visited = ∅) then k visited else
             target ← random_choice (elements visited);
             node_do node_id (add_neighbor target);;
             node_do target (add_neighbor node_id);;
             k (visited ∪ {[node_id]}))
          (λ _, mret tt) todo visited w = (Return tt, w') ∧
    graph_inv N (nodes (sim w')) ∧
    num_nodes (sim w') = num_nodes (sim w) ∧
    (∀ v, v ∈ visited ∨ v ∈ todo → rtc (adj (nodes (sim w'))) 0%nat v).
Proof.
  induction todo as [|node_id todo IH]; intros visited w Hinv Htodo Hvis Hne.
  - exists w. split; [done|]. split; [done|]. split; [done|].
    intros v [Hv|Hv]; [by apply Hvis|]. by apply elem_of_nil in Hv.
  - cbn [foldr]. case_decide as Hempty; [by specialize (Hne Hempty)|].
    destruct (random_choice_run (elements visited) w)
      as (target & Htarget%elem_of_elements & Hrun).
    { intros Hnil. apply Hempty. by apply elements_empty_inv, leibniz_equiv in Hnil. }
    rewrite bind_run, Hrun. clear Hrun.
    set (w1 := set_cursor _ w).
    destruct Hinv as (Hlen & Hsym & Hcl).
    assert (node_id < N)%nat as Hid by (apply Htodo; by left).
    destruct (Hvis target Htarget) as [Htg Hreach].
    destruct (lookup_lt_is_Some_2 (nodes (sim w1)) node_id) as [n1 Hn1];
      [subst w1; cbn; lia|].
    rewrite bind_run, (node_do_run _ _ _ _ Hn1).
    set (w2 := set_sim _ w1).
    destruct (lookup_lt_is_Some_2 (nodes (sim w2)) target) as [n2 Hn2].
    { subst w2 w1. cbn. rewrite length_alter. lia. }
    rewrite bind_run, (node_do_run _ _ _ _ Hn2).
    set (w3 := set_sim _ w2).
    assert (nodes (sim w3) = linked node_id target (nodes (sim w))) as Hw3
      by reflexivity.
    assert (node_id < length (nodes (sim w)))%nat as Hid' by lia.
    assert (target < length (nodes (sim w)))%nat as Htg' by lia.
    destruct (IH (visited ∪ {[node_id]}) w3) as (w' & E & Hinv' & Hnum & Hall).
    + rewrite Hw3. split; [|split].
      * by rewrite linked_length.
      * by apply linked_symmetric.
      * by apply linked_closed.
    + intros v Hv. apply Htodo. by right.
    + rewrite Hw3.
      intros v [Hv|Hv%elem_of_singleton]%elem_of_union.
      * split; [by apply Hvis|]. apply linked_rtc; [done..|]. by apply Hvis.
      * subst v. split; [done|].
        eapply rtc_r; [apply linked_rtc; [done..|exact Hreach]|].
        apply adj_linked; auto.
    + set_solver.
    + exists w'. split; [exact E|]. split; [done|]. split; [done|].
      intros v [Hv|[->|Hv]%elem_of_cons]; apply Hall; set_solver.
Qed.

Lemma rtc_symmetric_graph (l : list GossipNode) (i j : nat) :
  symmetric_graph l → rtc (adj l) i j → rtc (adj l) j i.
Proof.
  intros Hs. induction 1 as [|a b c Hab _ IH]; [done|].
  eapply rtc_r; [exact IH|]. by apply Hs.
Qed.

Lemma ensure_connectivity_run (N : nat) (w : World) :
  graph_inv N (nodes (sim w)) →
  Z.to_nat (num_nodes (sim w)) = N →
  ∃ w',
    _ensure_connectivity w = (Return tt, w') ∧
    graph_inv N (nodes (sim w')) ∧
    num_nodes (sim w') = num_nodes (sim w) ∧
    connected_graph (nodes (sim w')).
Proof.
  intros Hinv Hnum. unfold _ensure_connectivity. rewrite bind_run. mcbn.
  pose proof Hinv as (Hlen & Hsym & Hcl).
  assert (∃ visited,
    (match nodes (sim w) with
     | [] => mret ∅
     | _ => dfs (length (nodes (sim w))) 0 ∅
     end) w = (Return visited, w) ∧
    (∀ v, v ∈ visited → (v < N)%nat ∧ rtc (adj (nodes (sim w))) 0%nat v) ∧
    (visited = ∅ → N = 0%nat)) as (visited & Hdfs & Hsound & Hempty).
  { destruct (nodes (sim w)) as [|n0 l0] eqn:El.
    - exists ∅. split; [done|]. split; [set_solver|]. by rewrite <-Hlen.
    - rewrite <-El in *.
      destruct (dfs_run w N 0 Hlen Hcl (length (nodes (sim w))) 0%nat ∅)
        as (visited & E & _ & H0 & Hs).
      + assert (set_seq (C:=gset nat) 0 N ∖ ∅ = set_seq 0 N) as ->
          by set_solver.
        rewrite Hlen, size_set_seq. done.
      + set_solver.
      + rewrite <-Hlen, El. simpl. lia.
      + done.
      + exists visited. split; [done|]. split; [done|]. set_solver. }
  rewrite bind_run, Hdfs. unfold range. rewrite Hnum.
  destruct (repair_loop N
    (elements (list_to_set (C:=gset nat) (seq 0 N) ∖ visited)) visited w)
    as (w' & E & Hinv' & Hnum' & Hall); [done| |done| |].
  - intros v Hv%elem_of_elements. apply elem_of_difference in Hv as [Hv _].
    apply elem_of_list_to_set, elem_of_seq in Hv. lia.
  - intros Hv. rewrite (Hempty Hv). simpl.
    assert (∅ ∖ visited = (∅ : gset nat)) as -> by set_solver.
    apply elements_empty.
  - exists w'. split; [exact E|]. split; [done|]. split; [done|].
    destruct Hinv' as (Hlen' & Hsym' & _).
    assert (∀ v, (v < N)%nat → rtc (adj (nodes (sim w'))) 0%nat v) as Hfrom0.
    { intros v Hv. apply Hall.
      destruct (decide (v ∈ visited)); [by left|right].
      apply elem_of_elements, elem_of_difference. split; [|done].
      apply elem_of_list_to_set, elem_of_seq. lia. }
    intros i j Hi Hj. etrans.
    + apply rtc_symmetric_graph; [done|]. apply Hfrom0. lia.
    + apply Hfrom0. lia.
Qed.

(** ** Construction: the whole *)

Lemma empty_graph_inv (l : list GossipNode) :
  Forall (λ n, neighbors n = ∅) l → graph_inv (length l) l.
Proof.
  intros Hl.
  assert (∀ i j, ¬ adj l i j) as Hno.
  { intros i j (n & Hn & Hj).
    rewrite Forall_forall in Hl. rewrite (Hl n) in Hj; [set_solver|].
    by eapply list_elem_of_lookup_2. }
  split; [done|]. split; intros i j H; by apply Hno in H.
Qed.

Lemma build_network_topology_run (w : World) :
  length (nodes (sim w)) = Z.to_nat (num_nodes (sim w)) →
  Forall (λ n, neighbors n = ∅) (nodes (sim w)) →
  ∃ w',
    _build_network_topology w = (Return tt, w') ∧
    graph_inv (Z.to_nat (num_nodes (sim w))) (nodes (sim w')) ∧
    connected_graph (nodes (sim w')).
Proof.
  intros Hlen Hemp. unfold _build_network_topology. rewrite bind_run. mcbn.
  set (N := Z.to_nat (num_nodes (sim w))) in *.
  destruct (pairwise_loop N (num_nodes (sim w))
    (inject_Z (Z.min (width (sim w)) (height (sim w))) * (15 # 100))%Q w)
    as (w1 & E1 & Hinv1 & Hnum1); [done|..].
  { rewrite <-Hlen. by apply empty_graph_inv. }
  rewrite bind_run, E1.
  destruct (ensure_connectivity_run N w1) as (w2 & E2 & Hinv2 & _ & Hconn);
    [done|by rewrite Hnum1|].
  exists w2. done.
Qed.

(** The constructor returns, whatever the arguments and the tape, with as
    many nodes as asked for (none for a negative count) and a symmetric,
    closed and connected neighbour graph. *)
Lemma init_run (n wd ht : Z) (w0 : World) :
  ∃ w,
    GossipSimulator_init n wd ht w0 = (Return tt, w) ∧
    graph_inv (Z.to_nat n) (nodes (sim w)) ∧
    connected_graph (nodes (sim w)).
Proof.
  unfold GossipSimulator_init. rewrite bind_run. mcbn.
  set (w1 := set_sim _ w0).
  destruct (initialize_nodes_run w1) as (w2 & E2 & Hlen & Hemp & Hnum);
    [done|].
  rewrite bind_run, E2.
  destruct (build_network_topology_run w2) as (w3 & E3 & Hinv & Hconn).
  { by rewrite Hlen, Hnum. }
  { done. }
  exists w3. split; [done|]. rewrite Hnum in Hinv. done.
Qed.

Lemma connected_has_neighbor (l : list GossipNode) (i : nat) (n : GossipNode) :
  (2 ≤ length l)%nat → connected_graph l → l !! i = Some n →
  neighbors n ≠ ∅.
Proof.
  intros H2 Hc Hn.
  assert (i < length l)%nat as Hi by (by eapply lookup_lt_Some).
  set (j := if decide (i = 0)%nat then 1%nat else 0%nat).
  assert (j < length l)%nat as Hj by (subst j; case_decide; lia).
  assert (i ≠ j) as Hij by (subst j; case_decide; lia).
  destruct (Hc i j Hi Hj) as [|a b c (n' & Hn' & Hb) _]; [done|].
  simplify_eq. set_solver.
Qed.

(** C5. For a node count of at least 2, whatever the field size and the
    random draws, construction returns an engine with that many nodes whose
    neighbour relation is symmetric, in which every node has a neighbour,
    and whose graph is connected: every node is reachable from every
    other along neighbour links. *)
Theorem topology_symmetric_and_connected (n wd ht : Z) (w0 : World) :
  2 ≤ n →
  ∃ w,
    GossipSimulator_init n wd ht w0 = (Return tt, w) ∧
    length (nodes (sim w)) = Z.to_nat n ∧
    (∀ i j, adj (nodes (sim w)) i j ↔ adj (nodes (sim w)) j i) ∧
    (∀ i node, nodes (sim w) !! i = Some node → neighbors node ≠ ∅) ∧
    connected_graph (nodes (sim w)).
Proof.
  intros Hn.
  destruct (init_run n wd ht w0) as (w & E & (Hlen & Hsym & Hcl) & Hconn).
  exists w. split; [done|]. split; [done|]. split; [|split; [|done]].
  - intros i j. split; apply Hsym.
  - intros i node. apply connected_has_neighbor; [lia|done].
Qed.

Lemma topology_symmetric_and_connected_witness :
  2 ≤ 2 ∧
  ∃ w,
    GossipSimulator_init 2 800 600 (fresh_world (λ _, 0%N)) = (Return tt, w) ∧
    length (nodes (sim w)) = 2%nat ∧
    connected_graph (nodes (sim w)).
Proof.
  split; [lia|].
  destruct (topology_symmetric_and_connected 2 800 600
              (fresh_world (λ _, 0%N))) as (w & E & Hl & _ & _ & Hc); [lia|].
  exists w. auto.
Defined.

(** ** Reset *)

(** No operation adds or removes a node. *)
Lemma run_length (ops : list op) (w : World) :
  length (nodes (sim (run ops w))) = length (nodes (sim w)).
Proof.
  symmetry. apply (node_rel_length (λ _ _, True)).
  assert (PreOrder (λ _ _ : GossipNode, True)) by (by split).
  by apply run_rel.
Qed.

(** C9. Take an engine built for [n] nodes and any history of calls on it.
    After [reset_simulation] the statistics are: step 0, all of the nodes
    susceptible, none infected, none removed, no message held, not running.
    (The engine has [Z.to_nat n] nodes: [n] of them when [n] is not
    negative.) *)
Theorem reset_gives_initial_statistics
    (n wd ht : Z) (w0 : World) (ops : list op) :
  let w := run ops (after (GossipSimulator_init n wd ht) w0) in
  ∃ w',
    reset_simulation w = (Return tt, w') ∧
    get_statistics w'
    = (Return (mkStatistics 0 (Z.to_nat n) 0 0 0 false), w').
Proof.
  intros w.
  destruct (reset_statistics_any w) as (w' & E & Hst).
  exists w'. split; [done|]. rewrite Hst. repeat f_equal.
  subst w. rewrite run_length. unfold after.
  destruct (init_run n wd ht w0) as (w1 & -> & (Hlen & _) & _). done.
Qed.

(** ** [start_gossip] and identifiers that are not nodes *)

Lemma bind_modify_sim {B} f (k : unit → M B) w :
  (modify_sim f ≫= k) w = k tt (set_sim (f (sim w)) w).
Proof. reflexivity. Qed.

Lemma bind_get_sim {B} (k : GossipSimulator → M B) w :
  (get_sim ≫= k) w = k (sim w) w.
Proof. reflexivity. Qed.

Lemma in_nodes_length (k : Z) (s s' : GossipSimulator) :
  length (nodes s) = length (nodes s') → in_nodes k s = in_nodes k s'.
Proof.
  intros H. unfold in_nodes. f_equal. apply bool_decide_ext.
  rewrite !lookup_lt_is_Some, H. done.
Qed.

Lemma infect_loop_existing (s0 : GossipSimulator) (ids : list Z) :
  ∀ w, length (nodes (sim w)) = length (nodes s0) →
  for_ ids (λ node_id,
    s ← get_sim;
    if in_nodes node_id s
    then modify_node (Z.to_nat node_id) infect
    else mret tt) w
  = for_ (existing_ids s0 ids) (λ node_id,
    s ← get_sim;
    if in_nodes node_id s
    then modify_node (Z.to_nat node_id) infect
    else mret tt) w.
Proof.
  unfold existing_ids.
  induction ids as [|k ids IH]; intros w Hlen; [reflexivity|].
  rewrite filter_cons. rewrite <-(in_nodes_length k (sim w) s0 Hlen).
  destruct (in_nodes k (sim w)) eqn:Hk.
  - rewrite decide_True by done. rewrite !for_cons, !bind_run. mcbn.
    rewrite Hk, modify_node_run. apply IH. cbn. by rewrite length_alter.
  - rewrite decide_False by done. rewrite for_cons, !bind_run. mcbn.
    rewrite Hk. mcbn. by apply IH.
Qed.

(** C2, as the code has it. [start_gossip] never raises: it returns, and
    an identifier that is not the key of a node is passed over, the call
    having the effect it has on the existing identifiers alone. *)
Theorem start_gossip_skips_unknown_ids
    (initial_infected : option (list Z)) (w : World) :
  ∃ w',
    start_gossip initial_infected w = (Return tt, w') ∧
    start_gossip
      (Some (existing_ids (sim w) (default [0] initial_infected))) w
    = (Return tt, w').
Proof.
  destruct (start_gossip_returns initial_infected w) as (w' & E & _).
  exists w'. split; [done|]. rewrite <-E.
  unfold start_gossip. rewrite !bind_modify_sim.
  change (default [0] (Some ?l)) with l.
  rewrite !(bind_run (for_ _ _)).
  rewrite (infect_loop_existing (sim w) (default [0] initial_infected)).
  - rewrite (infect_loop_existing (sim w) (existing_ids _ _)).
    + assert (existing_ids (sim w)
                (existing_ids (sim w) (default [0] initial_infected))
              = existing_ids (sim w) (default [0] initial_infected)) as ->.
      { unfold existing_ids. rewrite list_filter_filter.
        apply list_filter_iff. naive_solver. }
      reflexivity.
    + cbn. by rewrite length_fmap.
  - cbn. by rewrite length_fmap.
Qed.

(** The claim as stated fails: identifier 5 is no node of the two-node
    engine, and [start_gossip([5])] returns normally, leaving every node
    susceptible and the engine running. *)
Lemma start_gossip_unknown_id_no_error :
  in_nodes 5 (sim pair_world) = false ∧
  (start_gossip (Some [5]) pair_world).1 = Return tt ∧
  states (after (start_gossip (Some [5])) pair_world)
  = [SUSCEPTIBLE; SUSCEPTIBLE] ∧
  running (sim (after (start_gossip (Some [5])) pair_world)) = true.
Proof. repeat split; vm_compute; reflexivity. Qed.

(** ** [update_parameters] and fields the engine does not know *)

Lemma hasattr_ignored key w :
  ignored key = true → hasattr key w = (Return false, w).
Proof.
  unfold ignored, hasattr. intros H.
  repeat (apply andb_prop in H as [H ?]).
  destruct (is_special key); [done|].
  destruct (bool_decide (key ∈ attribute_names)); [done|]. reflexivity.
Qed.

Lemma assoc_known {V} (key : string) (P : string → bool)
    (l : list (string * V)) :
  P key = true →
  assoc key (filter (λ kv, P kv.1 = true) l) = assoc key l.
Proof.
  intros HP. induction l as [|[k v] l IH]; [reflexivity|].
  rewrite filter_cons. simpl. case_decide as Hk; simpl.
  - case_decide; [done|exact IH].
  - rewrite decide_False; [exact IH|]. intros ->. congruence.
Qed.

Lemma setattr_loop_known (kwargs : list (string * pyval)) : ∀ w,
  for_ kwargs (λ kv,
    b ← hasattr kv.1;
    if (b : bool) then setattr kv.1 kv.2 else mret tt) w
  = for_ (known_kwargs kwargs) (λ kv,
    b ← hasattr kv.1;
    if (b : bool) then setattr kv.1 kv.2 else mret tt) w.
Proof.
  unfold known_kwargs.
  induction kwargs as [|kv kwargs IH]; intros w; [reflexivity|].
  rewrite filter_cons. destruct (ignored kv.1) eqn:Hkv.
  - rewrite decide_False by done. rewrite for_cons, bind_run, bind_run.
    rewrite hasattr_ignored by done. mcbn. apply IH.
  - rewrite decide_True by done. rewrite !for_cons, !(bind_run (_ ≫= _)).
    destruct ((hasattr kv.1 ≫= _) w) as [[[]|e|] w1]; try reflexivity.
    apply IH.
Qed.

Lemma known_kwargs_keys key kwargs :
  ignored key = false → key ∈ (known_kwargs kwargs).*1 ↔ key ∈ kwargs.*1.
Proof.
  intros H. unfold known_kwargs. rewrite !list_elem_of_fmap. split.
  - intros ([k v] & -> & [_ Hin]%list_elem_of_filter). by exists (k, v).
  - intros ([k v] & -> & Hin). exists (k, v). split; [done|].
    by apply list_elem_of_filter.
Qed.

Lemma known_kwargs_assoc key kwargs :
  ignored key = false → assoc key (known_kwargs kwargs) = assoc key kwargs.
Proof.
  intros H. unfold known_kwargs.
  rewrite <-(assoc_known key (λ k, negb (ignored k)) kwargs)
    by (by rewrite H).
  f_equal. apply list_filter_iff. intros [k v]. simpl.
  by destruct (ignored k).
Qed.

(** C1, as the code has it. [update_parameters] raises no error for a field
    the engine does not know: such a field is passed over, and the call has
    the effect of the call on the remaining fields. When no field remains
    the call returns with the world as it was, every engine parameter and
    every per-node probability included. *)
Theorem update_parameters_ignores_unknown_fields
    (kwargs : list (string * pyval)) (w : World) :
  update_parameters kwargs w = update_parameters (known_kwargs kwargs) w ∧
  update_parameters [] w = (Return tt, w).
Proof.
  split; [|reflexivity].
  unfold update_parameters.
  rewrite (bool_decide_ext _ _ (known_kwargs_keys "self" kwargs eq_refl)).
  case_bool_decide; [reflexivity|].
  rewrite !(bind_run (for_ _ _)), setattr_loop_known.
  rewrite !known_kwargs_assoc by reflexivity. reflexivity.
Qed.

(** The claim as stated fails: [unknownField] is not among the recognised
    parameters, and the call returns normally instead of raising; with a
    recognised field beside it, that field is applied all the same. *)
Lemma update_parameters_unknown_field_no_error :
  update_parameters [("unknownField", PInt 1)] pair_world
  = (Return tt, pair_world) ∧
  gossip_fanout (sim pair_world) = 3 ∧
  (update_parameters [("unknownField", PInt 1); ("gossip_fanout", PInt 7)]
     pair_world).1 = Return tt ∧
  gossip_fanout
    (sim (after (update_parameters
                   [("unknownField", PInt 1); ("gossip_fanout", PInt 7)])
            pair_world)) = 7.
Proof. repeat split; vm_compute; reflexivity. Qed.

(** ** The epidemic state only moves forward *)

#[global] Instance state_le_preorder : PreOrder state_le.
Proof. unfold state_le. split; [intros a; lia|intros a b c; lia]. Qed.

#[global] Instance infects_preorder : PreOrder infects.
Proof.
  unfold infects. split; [by left|].
  intros a b c [->|[-> ->]] [->|[? ->]]; auto; congruence.
Qed.

#[global] Instance recovers_preorder : PreOrder recovers.
Proof.
  unfold recovers. split; [by left|].
  intros a b c [->|[-> ->]] [->|[? ->]]; auto; congruence.
Qed.

#[global] Instance on_state_preorder (R : relation NodeState) :
  PreOrder R → PreOrder (on_state R).
Proof.
  intros HR. unfold on_state. split.
  - intros n. reflexivity.
  - intros a b c. apply transitivity.
Qed.


Lemma infects_le a b : infects a b → state_le a b.
Proof. unfold state_le. intros [->|[-> ->]]; simpl; lia. Qed.

Lemma recovers_le a b : recovers a b → state_le a b.
Proof. unfold state_le. intros [->|[-> ->]]; simpl; lia. Qed.






(** ** What the operations do to the message store *)

#[global] Instance same_store_preorder : PreOrder same_store.
Proof.
  unfold same_store. split; [done|].
  intros a b c [? ?] [? ?]. split; congruence.
Qed.

#[global] Instance last_kept_preorder (r : ref) : PreOrder (last_kept r).
Proof.
  unfold last_kept. split.
  - intros w. split; [done|]. intros H m Hw _. by exists m.
  - intros a b c [Hc1 H1] [Hc2 H2]. split; [congruence|].
    intros H m Ha Hr. destruct (H1 H m Ha Hr) as (m1 & Hb & ? & ?).
    destruct (H2 H m1 Hb Hr) as (m2 & Hc & ? & ?).
    exists m2. split; [done|]. split; congruence.
Qed.

Lemma same_store_last_kept r w w' : same_store w w' → last_kept r w w'.
Proof.
  intros [Hh Hc]. split; [done|]. intros H m Hw _. exists m. by rewrite Hh.
Qed.

Lemma same_store_modify_node i f w : same_store w (modify_node i f w).2.
Proof. done. Qed.

Lemma same_store_keeps_sim {A} (m : M A) w :
  keeps_sim m → heap (m w).2 = heap w → same_store w (m w).2.
Proof. intros Hs Hh. split; [done|]. by rewrite Hs. Qed.

Lemma heap_sample_loop {A} k : ∀ (pool : list A) w,
  heap (sample_loop k pool w).2 = heap w.
Proof.
  induction k as [|k IH]; intros [|d pool] w; try done.
  cbn [sample_loop]. rewrite bind_run, randbelow_run, bind_run.
  specialize (IH (delete (N.to_nat (tape w (cursor w)
                  `mod` N.of_nat (length (d :: pool)))%N) (d :: pool))
                 (set_cursor (S (cursor w)) w)).
  destruct (sample_loop k _ _) as [[a|e|] w']; simpl in *; done.
Qed.

Lemma heap_random_sample {A} (l : list A) k w :
  heap (random_sample l k w).2 = heap w.
Proof. unfold random_sample. case_match; [done|]. apply heap_sample_loop. Qed.

Lemma same_store_receive_message i message w :
  same_store w (receive_message i message w).2.
Proof.
  unfold receive_message.
  apply (bind_rel same_store).
  { apply same_store_keeps_sim; [apply keeps_sim_get_node|].
    unfold get_node. by case_match. }
  intros n w1 _. apply (bind_rel same_store).
  { apply same_store_keeps_sim; [apply keeps_sim_deref|].
    unfold deref. by case_match. }
  intros m w2 _. case_match; [reflexivity|].
  apply (bind_rel same_store); [done|]. intros _ w3 _.
  apply (bind_rel same_store); [done|]. intros _ w4 _.
  apply (bind_rel same_store).
  { apply same_store_keeps_sim; [apply keeps_sim_get_node|].
    unfold get_node. by case_match. }
  intros n' w5 _. case_decide; [|reflexivity].
  apply (bind_rel same_store); [done|]. intros u w6 _.
  case_match; [done|reflexivity].
Qed.

Lemma same_store_recover i w : same_store w (recover i w).2.
Proof.
  unfold recover. apply (bind_rel same_store).
  { apply same_store_keeps_sim; [apply keeps_sim_get_node|].
    unfold get_node. by case_match. }
  intros n w1 _. case_decide; [|reflexivity].
  apply (bind_rel same_store); [done|]. intros u w2 _.
  case_match; [done|reflexivity].
Qed.

(** The delivery loop of a round only touches the message of the round. *)
Lemma delivery_loop_last_kept (message : ref) (targets : list nat) w :
  last_kept message w
    (for_ targets (λ target_id,
      s ← get_sim;
      if in_nodes (Z.of_nat target_id) s then
        u ← random_random;
        if Qltb u (transmission_probability s) then
          m ← deref message;
          if hop_count m <? max_hop_count s then
            update_message message (λ m, set_hop_count (hop_count m + 1) m);;
            receive_message target_id message
          else mret tt
        else mret tt
      else mret tt) w).2.
Proof.
  apply (for_rel (last_kept message)). intros target_id w1 _.
  rewrite bind_get_sim. cbv beta. case_match; [|reflexivity].
  apply (bind_rel (last_kept message)).
  { by apply same_store_last_kept. }
  intros u w2 _. case_match; [|reflexivity].
  apply (bind_rel (last_kept message)).
  { apply same_store_last_kept. unfold deref. by case_match. }
  intros m w3 _. case_match; [|reflexivity].
  apply (bind_rel (last_kept message)).
  - split; [done|]. intros pre m0 Hw Hr. cbn. rewrite Hw. subst message.
    exists (set_hop_count (hop_count m0 + 1) m0).
    split; [|done].
    rewrite alter_app_r_alt by lia. rewrite Nat.sub_diag. reflexivity.
  - intros _ w4 _. apply same_store_last_kept, same_store_receive_message.
Qed.

Lemma gossip_step_created (i : nat) (w : World) :
  round_created i w (after (_gossip_step i) w).
Proof.
  unfold after. destruct (_gossip_step i w) as [o w'] eqn:E. simpl.
  revert E. unfold _gossip_step, round_created. rewrite bind_run.
  unfold get_node at 1. destruct (nodes (sim w) !! i) as [node|] eqn:Hn;
    [|intros [= <- <-]; by left].
  case_decide; [intros [= <- <-]; by left|].
  rewrite bind_get_sim. cbv beta. rewrite bind_run.
  pose proof (keeps_sim_random_sample (elements (neighbors node))
    (Z.min (gossip_fanout (sim w))
       (Z.of_nat (length (elements (neighbors node))))) w) as Hs1.
  pose proof (heap_random_sample (elements (neighbors node))
    (Z.min (gossip_fanout (sim w))
       (Z.of_nat (length (elements (neighbors node))))) w) as Hh1.
  destruct (random_sample _ _ w) as [[targets|e|] w1]; simpl in Hs1, Hh1;
    try (intros [= <- <-]; left; split; [done|by rewrite Hs1]).
  rewrite bind_get_sim. cbv beta. rewrite bind_run. cbn [time_time].
  rewrite bind_run. cbn [new_message]. rewrite bind_modify_sim.
  match goal with |- context [for_ targets ?body ?w2] =>
    pose proof (delivery_loop_last_kept (length (heap w1)) targets w2) as Hk;
    change (for_ targets _ w2) with (for_ targets body w2) in Hk;
    set (res := for_ targets body w2) in *; clearbody res
  end.
  intros ->. destruct Hk as [Hc Hl].
  simpl in Hc, Hl. cbn in Hc.
  edestruct Hl as (m' & Hheap & Hsrc & Hid); [reflexivity|reflexivity|].
  right. exists m', node. simpl in Hsrc, Hid.
  rewrite Hheap, Hsrc, Hid, Hh1, Hc, Hs1. done.
Qed.

(** ** Propagation works from the snapshot *)

#[global] Instance same_id_preorder : PreOrder same_id.
Proof. unfold same_id. split; [done|]. intros a b c. congruence. Qed.

Lemma node_ids_at_rel (l l' : list GossipNode) (keys : list nat) :
  Forall2 same_id l l' → node_ids_at l keys = node_ids_at l' keys.
Proof.
  intros H. unfold node_ids_at. apply list_omap_ext, Forall_Forall2_diag.
  apply Forall_forall. intros i _.
  destruct (l !! i) as [n|] eqn:E.
  - destruct (Forall2_lookup_l _ _ _ _ _ H E) as (n' & -> & Hid).
    simpl. by rewrite Hid.
  - apply lookup_ge_None in E. rewrite (Forall2_length _ _ _ H) in E.
    apply lookup_ge_None in E. by rewrite E.
Qed.

Lemma gossip_step_same_id i w : node_rel same_id w (after (_gossip_step i) w).
Proof. by apply (gossip_step_rel same_id). Qed.

Lemma rounds_sources (keys : list nat) : ∀ w,
  ∃ new,
    heap (after (for_ keys _gossip_step) w) = heap w ++ new ∧
    sublist (source_node <$> new) (node_ids_at (nodes (sim w)) keys).
Proof.
  induction keys as [|i keys IH]; intros w.
  - exists []. by rewrite app_nil_r.
  - unfold after. rewrite for_cons, bind_run.
    pose proof (gossip_step_created i w) as Hc.
    pose proof (gossip_step_same_id i w) as Hid.
    unfold after in Hc, Hid.
    destruct (_gossip_step i w) as [o w1]. simpl in Hc, Hid.
    assert (∃ new1, heap w1 = heap w ++ new1 ∧
      ∀ rest, sublist rest (node_ids_at (nodes (sim w)) keys) →
        sublist ((source_node <$> new1) ++ rest)
                (node_ids_at (nodes (sim w)) (i :: keys)))
      as (new1 & Hh1 & Hsub1).
    { destruct Hc as [[Hh _]|(m & n & Hh & Hn & Hsrc & _)].
      - exists []. split; [by rewrite app_nil_r|]. intros rest Hrest. simpl.
        unfold node_ids_at. cbn [omap list_omap].
        destruct (node_id <$> nodes (sim w) !! i); [by apply sublist_cons|done].
      - exists [m]. split; [done|]. intros rest Hrest.
        unfold node_ids_at. cbn [omap list_omap]. rewrite Hn. simpl.
        rewrite Hsrc. by apply sublist_skip. }
    destruct o as [[]|e|].
    + destruct (IH w1) as (new2 & Hh2 & Hsub2). unfold after in Hh2.
      exists (new1 ++ new2). split.
      * rewrite Hh2, Hh1. by rewrite app_assoc.
      * rewrite fmap_app. apply Hsub1.
        by rewrite (node_ids_at_rel _ _ _ Hid).
    + exists new1. split; [done|].
      rewrite <-(app_nil_r (source_node <$> new1)). apply Hsub1.
      apply sublist_nil_l.
    + exists new1. split; [done|].
      rewrite <-(app_nil_r (source_node <$> new1)). apply Hsub1.
      apply sublist_nil_l.
Qed.

Lemma node_ids_at_infected (l : list GossipNode) (k : nat) :
  k ∈ node_ids_at l (nodes_in_state INFECTED l) →
  ∃ i n, l !! i = Some n ∧ state n = INFECTED ∧ k = node_id n.
Proof.
  unfold node_ids_at, nodes_in_state.
  intros (i & Hi & Hk)%list_elem_of_omap.
  apply list_elem_of_filter in Hi as [Hst _].
  destruct (l !! i) as [n|] eqn:E; [|done]. simplify_eq/=. eauto.
Qed.

Lemma recover_loop_same_store (keys : list nat) (w : World) :
  same_store w (after (for_ keys recover) w).
Proof.
  apply (for_rel same_store). intros. apply same_store_recover.
Qed.

(** C7. The messages a [step] creates come from the nodes that were
    INFECTED when the step began: read in creation order, their origins
    pick out, one message per node at most, nodes of the list of INFECTED
    nodes taken at the start. A node that becomes INFECTED during the
    propagation is not in that list, so it creates no message, that is, runs
    no gossip round, in the same step. *)
Theorem step_gossips_from_snapshot (w : World) :
  ∃ new,
    heap (after step w) = heap w ++ new ∧
    sublist (source_node <$> new)
      (node_ids_at (nodes (sim w))
         (nodes_in_state INFECTED (nodes (sim w)))) ∧
    ∀ m, m ∈ new →
      ∃ i n, nodes (sim w) !! i = Some n ∧ state n = INFECTED
             ∧ source_node m = node_id n.
Proof.
  assert (∃ new,
    heap (after step w) = heap w ++ new ∧
    sublist (source_node <$> new)
      (node_ids_at (nodes (sim w))
         (nodes_in_state INFECTED (nodes (sim w))))) as (new & Hh & Hsub).
  { unfold after, step. rewrite bind_get_sim. cbv beta.
    destruct (running (sim w)); cbn [negb]; cbv iota.
    2:{ exists []. split; [by rewrite app_nil_r|apply sublist_nil_l]. }
    rewrite bind_modify_sim, bind_get_sim. cbv beta.
    set (w1 := set_sim _ w).
    change (nodes (sim w1)) with (nodes (sim w)).
    destruct (nodes_in_state INFECTED (nodes (sim w))) as [|i keys] eqn:Es.
    { exists []. split; [by rewrite app_nil_r|apply sublist_nil_l]. }
    rewrite <-Es. clear Es. rewrite bind_run.
    destruct (rounds_sources (nodes_in_state INFECTED (nodes (sim w))) w1)
      as (new & Hh & Hsub).
    unfold after in Hh. exists new.
    destruct (for_ _ _gossip_step w1) as [[[]|e|] w2]; simpl in Hh;
      try (split; [exact Hh|exact Hsub]).
    split; [|exact Hsub]. rewrite bind_get_sim. cbv beta.
    destruct (recover_loop_same_store (seq 0 (length (nodes (sim w2)))) w2)
      as [Hr _].
    unfold after in Hr. rewrite Hr. exact Hh. }
  exists new. split; [done|]. split; [done|].
  intros m Hm. apply node_ids_at_infected.
  eapply elem_of_sublist; [|exact Hsub]. by apply list_elem_of_fmap_2.
Qed.

(** On the two-node engine started at node 0, node 1 is infected (and, in
    the recovery phase, removed) during the first step; the only message
    of that step is the one of node 0. *)
Example step_gossips_from_snapshot_pair :
  states (run [Start None] pair_world) = [INFECTED; SUSCEPTIBLE] ∧
  states (run [Start None; Step] pair_world) = [REMOVED; REMOVED] ∧
  source_node <$> heap (run [Start None; Step] pair_world) = [0%nat].
Proof. repeat split; vm_compute; reflexivity. Qed.

(** ** Message identifiers *)

Lemma pretty_N_go_no_underscore (x : N) : ∀ s,
  no_underscore s → no_underscore (pretty_N_go x s).
Proof.
  induction (N.lt_wf_0 x) as [x _ IH]; intros s Hs.
  assert (x = 0 ∨ 0 < x)%N as [->|Hx] by lia.
  - by rewrite pretty_N_go_0.
  - rewrite pretty_N_go_step by done. apply IH.
    + by apply N.div_lt.
    + split; [|done]. unfold pretty_N_char. by repeat case_match.
Qed.

Lemma pretty_N_no_underscore (x : N) : no_underscore (pretty x).
Proof.
  unfold pretty, pretty_N. case_decide; [by split|].
  by apply pretty_N_go_no_underscore.
Qed.

Lemma pretty_Z_no_underscore (z : Z) : no_underscore (pretty z).
Proof.
  destruct z as [|p|p]; unfold pretty, pretty_Z.
  - by split.
  - apply pretty_N_no_underscore.
  - split; [done|]. apply pretty_N_no_underscore.
Qed.

(** The part before the first separator is determined by the whole. *)
Lemma append_underscore_inj (s1 s2 t1 t2 : string) :
  no_underscore s1 → no_underscore s2 →
  s1 +:+ "_" +:+ t1 = s2 +:+ "_" +:+ t2 → s1 = s2.
Proof.
  revert s2. induction s1 as [|a s1 IH]; intros [|b s2] H1 H2 E;
    simpl in *; simplify_eq; try done.
  - by destruct H2.
  - by destruct H1.
  - f_equal. destruct H1, H2. eapply IH; eauto.
Qed.

Lemma message_id_counter_inj (c c' : Z) (k k' : nat) :
  message_id c k = message_id c' k' → c = c'.
Proof.
  unfold message_id. intros E. simpl in E. simplify_eq.
  apply (inj pretty).
  eapply append_underscore_inj; eauto using pretty_Z_no_underscore.
Qed.

#[global] Instance created_preorder : PreOrder created.
Proof.
  unfold created. split.
  - intros w. exists []. rewrite app_nil_r. split; [done|].
    split; [simpl; lia|]. intros j m Hj. by rewrite lookup_nil in Hj.
  - intros a b c (n1 & Hh1 & Hc1 & Hi1) (n2 & Hh2 & Hc2 & Hi2).
    exists (n1 ++ n2). split; [by rewrite Hh2, Hh1, app_assoc|].
    split; [rewrite length_app; lia|].
    intros j m Hj. apply lookup_app_Some in Hj as [Hj|[Hge Hj]].
    + by apply Hi1.
    + destruct (Hi2 _ _ Hj) as [k Hk]. exists k. rewrite Hk. f_equal. lia.
Qed.

Lemma same_store_created w w' : same_store w w' → created w w'.
Proof.
  intros [Hh Hc]. exists []. rewrite app_nil_r. split; [done|].
  split; [simpl; lia|]. intros j m Hj. by rewrite lookup_nil in Hj.
Qed.

Lemma round_created_created i w w' : round_created i w w' → created w w'.
Proof.
  intros [H|(m & n & Hh & _ & _ & Hid & Hc)]; [by apply same_store_created|].
  exists [m]. split; [done|]. split; [simpl; lia|].
  intros [|j] m' Hj; simplify_eq/=. exists (node_id n).
  rewrite Hid. f_equal. lia.
Qed.

Lemma step_created (w : World) : created w (after step w).
Proof.
  unfold after, step. rewrite bind_get_sim. cbv beta.
  destruct (running (sim w)); cbn [negb]; cbv iota; [|reflexivity].
  rewrite bind_modify_sim, bind_get_sim. cbv beta.
  set (w1 := set_sim _ w).
  assert (created w w1) as H1 by (by apply same_store_created).
  etrans; [exact H1|].
  destruct (nodes_in_state INFECTED (nodes (sim w1))) as [|i keys] eqn:Es.
  { by apply same_store_created. }
  rewrite <-Es. clear Es. apply (bind_rel created).
  - apply (for_rel created). intros i' w2 _.
    apply (round_created_created i'), gossip_step_created.
  - intros _ w2 _. rewrite bind_get_sim. cbv beta.
    apply same_store_created, recover_loop_same_store.
Qed.

Lemma start_gossip_same_store ids w :
  same_store w (after (start_gossip ids) w).
Proof.
  unfold after, start_gossip. rewrite bind_modify_sim.
  set (w1 := set_sim _ w).
  assert (same_store w w1) as H1 by done.
  etrans; [exact H1|]. apply (bind_rel same_store).
  - apply (for_rel same_store). intros k w2 _.
    rewrite bind_get_sim. cbv beta. by case_match.
  - intros _ w2 _. by rewrite !bind_modify_sim.
Qed.

Lemma live_run_created (ls : list live_op) : ∀ w,
  created w (run (op_of_live <$> ls) w).
Proof.
  assert (∀ o w, created w (exec (op_of_live o) w).2) as Ho.
  { intros [ids|] w; simpl.
    - apply same_store_created, start_gossip_same_store.
    - apply step_created. }
  induction ls as [|o ls IH]; intros w; [reflexivity|].
  rewrite fmap_cons. cbn [run]. specialize (Ho o w).
  destruct (exec (op_of_live o) w) as [[[]|e|] w']; simpl in Ho;
    try reflexivity; (etrans; [exact Ho|apply IH]).
Qed.

(** C3, amended. Over any interleaving of [start_gossip] and [step] calls
    with no [reset_simulation] among them, from any state of the engine (the
    freshly built one in particular), the messages created all have
    different identifiers. *)
Theorem message_ids_unique_without_reset (ls : list live_op) (w : World) :
  ∃ new,
    heap (run (op_of_live <$> ls) w) = heap w ++ new ∧
    NoDup (id <$> new).
Proof.
  destruct (live_run_created ls w) as (new & Hh & _ & Hid).
  exists new. split; [done|]. apply NoDup_alt.
  intros j1 j2 s H1 H2.
  apply list_lookup_fmap_Some in H1 as (m1 & -> & H1).
  apply list_lookup_fmap_Some in H2 as (m2 & E & H2).
  destruct (Hid _ _ H1) as [k1 E1]. destruct (Hid _ _ H2) as [k2 E2].
  rewrite E1, E2 in E. apply message_id_counter_inj in E. lia.
Qed.

(** The claim as stated fails: [reset_simulation] puts the message counter
    back to 0, and the first message after the reset has the identifier of
    the first message before it. *)
Lemma message_id_reused_after_reset :
  id <$> heap (run [Start None; Step; ResetSimulation; Start None; Step]
                 pair_world)
  = ["msg_0_0"; "msg_0_0"].
Proof. vm_compute. reflexivity. Qed.

(** ** One gossip round *)

Lemma gossip_step_unfold (i : nat) :
  _gossip_step i =
  (node ← get_node i;
   if decide (neighbors node = ∅) then mret tt else
   s ← get_sim;
   targets ← random_sample (elements (neighbors node))
     (Z.min (gossip_fanout s)
        (Z.of_nat (length (elements (neighbors node)))));
   s ← get_sim;
   now ← time_time;
   message ← new_message
     (mkMessage (message_id (message_counter s) (node_id node))
                ("Gossip from node " +:+ pretty (node_id node))
                now (node_id node) 0);
   modify_sim (λ s, set_message_counter (message_counter s + 1) s);;
   for_ targets (attempt message)).
Proof. reflexivity. Qed.

Lemma sample_loop_run {A} (k : nat) : ∀ (pool : list A) (w : World),
  (k ≤ length pool)%nat →
  ∃ ts w1,
    sample_loop k pool w = (Return ts, w1) ∧
    sim w1 = sim w ∧ heap w1 = heap w ∧
    length ts = k ∧ ts ⊆ pool.
Proof.
  induction k as [|k IH]; intros pool w Hk.
  - exists [], w. destruct pool; repeat split; try done; set_solver.
  - destruct pool as [|d pool']; [simpl in Hk; lia|].
    cbn [sample_loop]. rewrite bind_run, randbelow_run.
    set (pool := d :: pool') in *.
    set (j := N.to_nat (tape w (cursor w) `mod` N.of_nat (length pool))%N).
    assert (j < length pool)%nat as Hj.
    { subst j. assert (0 < N.of_nat (length pool))%N by (simpl; lia).
      pose proof (N.mod_lt (tape w (cursor w)) (N.of_nat (length pool))).
      lia. }
    destruct (IH (delete j pool) (set_cursor (S (cursor w)) w))
      as (ts & w1 & E & Hs & Hh & Hlen & Hsub).
    { rewrite length_delete by (by apply lookup_lt_is_Some). lia. }
    rewrite bind_run, E. exists (nth j pool d :: ts), w1.
    split; [done|]. split; [done|]. split; [done|].
    split; [simpl; lia|].
    intros t [->|Ht]%elem_of_cons.
    + by apply list_elem_of_In, nth_In.
    + apply Hsub in Ht. eapply elem_of_sublist; [exact Ht|].
      apply sublist_delete.
Qed.

Lemma random_sample_run {A} (population : list A) (k : Z) (w : World) :
  0 ≤ k ≤ Z.of_nat (length population) →
  ∃ ts w1,
    random_sample population k w = (Return ts, w1) ∧
    sim w1 = sim w ∧ heap w1 = heap w ∧
    Z.of_nat (length ts) = k ∧ ts ⊆ population.
Proof.
  intros Hk. unfold random_sample.
  rewrite orb_false_intro by lia.
  destruct (sample_loop_run (Z.to_nat k) population w) as
    (ts & w1 & E & Hs & Hh & Hlen & Hsub); [lia|].
  exists ts, w1. repeat split; try done. lia.
Qed.

#[global] Instance shares_preorder (r : ref) : PreOrder (shares r).
Proof.
  unfold shares. split.
  - intros n. exists 0%nat. by rewrite app_nil_r.
  - intros a b c [k1 H1] [k2 H2]. exists (k1 + k2)%nat.
    by rewrite H2, H1, replicate_add, app_assoc.
Qed.

#[global] Instance same_params_preorder : PreOrder same_params.
Proof.
  unfold same_params. split; [done|]. intros a b c. congruence.
Qed.

Lemma same_params_modify_node i f w : same_params w (modify_node i f w).2.
Proof. done. Qed.

Lemma same_params_keeps_sim {A} (m : M A) w :
  keeps_sim m → same_params w (m w).2.
Proof. intros H. unfold same_params. by rewrite H. Qed.

Lemma same_params_max_hop_count w w' :
  same_params w w' → max_hop_count (sim w') = max_hop_count (sim w).
Proof.
  unfold same_params. intros H.
  change (max_hop_count (set_nodes [] (sim w'))
          = max_hop_count (set_nodes [] (sim w))). by rewrite H.
Qed.

(** What [receive_message] keeps and what it changes. *)
Lemma receive_message_frame (i : nat) (message : ref) (w : World) :
  let w' := after (receive_message i message) w in
  same_params w w' ∧ node_rel (shares message) w w'.
Proof.
  unfold after, receive_message. split.
  - apply (bind_rel same_params);
      [apply same_params_keeps_sim, keeps_sim_get_node|].
    intros n w1 _. apply (bind_rel same_params);
      [apply same_params_keeps_sim, keeps_sim_deref|].
    intros m w2 _. case_match; [reflexivity|].
    apply (bind_rel same_params); [done|]. intros _ w3 _.
    apply (bind_rel same_params); [done|]. intros _ w4 _.
    apply (bind_rel same_params);
      [apply same_params_keeps_sim, keeps_sim_get_node|].
    intros n' w5 _. case_decide; [|reflexivity].
    apply (bind_rel same_params); [done|]. intros u w6 _.
    case_match; [done|reflexivity].
  - apply (bind_rel (node_rel (shares message)));
      [by apply (keeps_sim_node_rel _), keeps_sim_get_node|].
    intros n w1 _. apply (bind_rel (node_rel (shares message)));
      [by apply (keeps_sim_node_rel _), keeps_sim_deref|].
    intros m w2 _. case_match; [reflexivity|].
    apply (bind_rel (node_rel (shares message))).
    { apply (modify_node_rel _). intros n0 _. exists 0%nat.
      by rewrite app_nil_r. }
    intros _ w3 _. apply (bind_rel (node_rel (shares message))).
    { apply (modify_node_rel _). intros n0 _. by exists 1%nat. }
    intros _ w4 _. apply (bind_rel (node_rel (shares message)));
      [by apply (keeps_sim_node_rel _), keeps_sim_get_node|].
    intros n' w5 _. case_decide; [|reflexivity].
    apply (bind_rel (node_rel (shares message)));
      [by apply (keeps_sim_node_rel _)|].
    intros u w6 _. case_match; [|reflexivity].
    apply (modify_node_rel _). intros n0 _. exists 0%nat.
    rewrite app_nil_r. unfold infect. by case_decide.
Qed.

Lemma receive_message_returns (i : nat) (message : ref) (w : World) :
  (i < length (nodes (sim w)))%nat → is_Some (heap w !! message) →
  ∃ w', receive_message i message w = (Return tt, w').
Proof.
  intros [n Hn]%lookup_lt_is_Some [m Hm].
  unfold receive_message.
  rewrite bind_run, (get_node_run _ _ _ Hn), bind_run.
  unfold deref at 1. rewrite Hm.
  destruct (messages n !! id m); [by eexists|].
  rewrite bind_run, modify_node_run, bind_run, modify_node_run, bind_run.
  set (w1 := set_sim _ _).
  assert (is_Some (nodes (sim w1) !! i)) as [n1 Hn1].
  { apply lookup_lt_is_Some. subst w1. cbn. rewrite !length_alter.
    by eapply lookup_lt_Some. }
  rewrite (get_node_run _ _ _ Hn1). case_decide; [|by eexists].
  rewrite bind_run, random_random_run. case_match; by eexists.
Qed.

Lemma in_nodes_lt (t : nat) (s : GossipSimulator) :
  (t < length (nodes s))%nat → in_nodes (Z.of_nat t) s = true.
Proof.
  intros H. unfold in_nodes. rewrite Nat2Z.id.
  apply andb_true_intro. split; [lia|].
  by apply bool_decide_eq_true, lookup_lt_is_Some.
Qed.

(** One turn of the delivery loop on a target that is a node, the message
    of the round being the last object of the store. *)
Lemma attempt_run (message : ref) (t : nat) (w : World)
    (pre : list Message) (m : Message) :
  heap w = pre ++ [m] → length pre = message →
  (t < length (nodes (sim w)))%nat →
  attempt message t w = spec_attempt message t w ∧
  ∃ w' m',
    attempt message t w = (Return tt, w') ∧
    heap w' = pre ++ [m'] ∧
    source_node m' = source_node m ∧ id m' = id m ∧
    hop_count m ≤ hop_count m' ≤ hop_count m + 1 ∧
    hop_count m' ≤ Z.max (hop_count m) (max_hop_count (sim w)) ∧
    same_params w w' ∧ node_rel (shares message) w w'.
Proof.
  intros Hheap Hlen Ht.
  assert (heap w !! message = Some m) as Hm.
  { rewrite Hheap, lookup_app_r by lia. by rewrite Hlen, Nat.sub_diag. }
  unfold attempt, spec_attempt.
  rewrite bind_get_sim. cbv beta. rewrite (in_nodes_lt _ _ Ht).
  rewrite !bind_run, random_random_run. rewrite bind_get_sim. cbv beta.
  set (w1 := set_cursor _ w).
  change (sim w1) with (sim w).
  assert (deref message w1 = (Return m, w1)) as Hd.
  { unfold deref. change (heap w1) with (heap w). by rewrite Hm. }
  rewrite (bind_run (deref message)), Hd.
  destruct (Qltb _ (transmission_probability (sim w))); cbn [andb].
  2:{ split; [reflexivity|]. exists w1, m.
      repeat split; try done; try lia; try reflexivity;
        by apply (node_rel_same_sim _). }
  rewrite bind_run, Hd.
  destruct (hop_count m <? max_hop_count (sim w)) eqn:Hhop.
  2:{ split; [reflexivity|]. exists w1, m.
      repeat split; try done; try lia; try reflexivity;
        by apply (node_rel_same_sim _). }
  split; [reflexivity|].
  rewrite bind_run. cbn [update_message modify fst snd].
  set (w2 := set_heap _ w1).
  assert (heap w2 = pre ++ [set_hop_count (hop_count m + 1) m]) as Hh2.
  { subst w2 w1. cbn. rewrite Hheap, <-Hlen.
    rewrite alter_app_r_alt by lia. by rewrite Nat.sub_diag. }
  destruct (receive_message_returns t message w2) as [w3 E3].
  { done. }
  { rewrite Hh2, lookup_app_r by lia. rewrite Hlen, Nat.sub_diag. by eexists. }
  destruct (receive_message_frame t message w2) as [Hp Hsh].
  destruct (same_store_receive_message t message w2) as [Hh3 _].
  unfold after in Hp, Hsh. rewrite E3 in Hp, Hsh, Hh3. simpl in Hp, Hsh, Hh3.
  exists w3, (set_hop_count (hop_count m + 1) m).
  split; [done|]. split; [by rewrite Hh3|]. split; [done|]. split; [done|].
  split; [simpl; lia|]. split; [simpl; lia|]. split; [exact Hp|exact Hsh].
Qed.

Lemma attempts_run (message : ref) (pre : list Message) (targets : list nat) :
  ∀ (w : World) (m : Message),
  heap w = pre ++ [m] → length pre = message →
  (∀ t, t ∈ targets → (t < length (nodes (sim w)))%nat) →
  for_ targets (attempt message) w = for_ targets (spec_attempt message) w ∧
  ∃ w' m',
    for_ targets (attempt message) w = (Return tt, w') ∧
    heap w' = pre ++ [m'] ∧
    source_node m' = source_node m ∧ id m' = id m ∧
    hop_count m ≤ hop_count m' ≤ hop_count m + Z.of_nat (length targets) ∧
    hop_count m' ≤ Z.max (hop_count m) (max_hop_count (sim w)) ∧
    same_params w w' ∧ node_rel (shares message) w w'.
Proof.
  induction targets as [|t targets IH]; intros w m Hheap Hlen Hts.
  - split; [reflexivity|]. exists w, m.
    repeat split; try done; try (simpl; lia); reflexivity.
  - destruct (attempt_run message t w pre m Hheap Hlen) as
      (Heq & w1 & m1 & E1 & Hh1 & Hs1 & Hi1 & Hhop1 & Hmax1 & Hp1 & Hsh1).
    { apply Hts. by left. }
    destruct (IH w1 m1 Hh1 Hlen) as
      (Heq2 & w2 & m2 & E2 & Hh2 & Hs2 & Hi2 & Hhop2 & Hmax2 & Hp2 & Hsh2).
    { intros t' Ht'. rewrite <-(node_rel_length _ _ _ Hsh1).
      apply Hts. by right. }
    rewrite !for_cons, !bind_run, <-Heq, E1, <-Heq2. split; [reflexivity|].
    exists w2, m2. split; [exact E2|]. split; [done|].
    split; [congruence|]. split; [congruence|].
    rewrite (same_params_max_hop_count _ _ Hp1) in Hmax2.
    split; [cbn [length]; lia|]. split; [lia|].
    split; [by etrans|by etrans].
Qed.

Lemma same_params_message_counter w w' :
  same_params w w' → message_counter (sim w') = message_counter (sim w).
Proof.
  unfold same_params. intros H.
  change (message_counter (set_nodes [] (sim w'))
          = message_counter (set_nodes [] (sim w))). by rewrite H.
Qed.

(** C6. Take a node with at least one neighbour, in an engine whose fanout
    is not negative and in which the neighbours of that node are nodes. Its
    gossip round returns, and is the round of the specification: one
    attempt per selected target, a delivery happening exactly when the
    Bernoulli trial succeeds and the hop count of the message is below the
    limit, and adding one to that hop count. The round creates exactly one
    message, whose origin is the node; its hop count starts at 0 and ends
    between 0 and the number of targets, and not above the limit. Every
    delivery of the round hands over that one object: whatever a node's
    history gains during the round is the reference of the new message,
    so its hop count is shared by all the targets. *)
Theorem gossip_round_one_shared_message
    (i : nat) (node : GossipNode) (w : World) :
  nodes (sim w) !! i = Some node →
  neighbors node ≠ ∅ →
  0 ≤ gossip_fanout (sim w) →
  set_Forall (λ t, (t < length (nodes (sim w)))%nat) (neighbors node) →
  ∃ w' m,
    _gossip_step i w = (Return tt, w') ∧
    _gossip_step i w = spec_round i w ∧
    heap w' = heap w ++ [m] ∧
    source_node m = node_id node ∧
    id m = message_id (message_counter (sim w)) (node_id node) ∧
    message_counter (sim w') = message_counter (sim w) + 1 ∧
    0 ≤ hop_count m
      ≤ Z.min (gossip_fanout (sim w)) (Z.of_nat (size (neighbors node))) ∧
    hop_count m ≤ Z.max 0 (max_hop_count (sim w)) ∧
    node_rel (shares (length (heap w))) w w'.
Proof.
  intros Hn Hnb Hfan Hcl.
  rewrite gossip_step_unfold. unfold spec_round.
  rewrite !bind_run, (get_node_run _ _ _ Hn).
  rewrite decide_False by done. rewrite !bind_get_sim. cbv beta.
  change (size (neighbors node)) with (length (elements (neighbors node))).
  set (k := Z.min _ _).
  destruct (random_sample_run (elements (neighbors node)) k w)
    as (ts & w1 & E1 & Hs1 & Hh1 & Hlen1 & Hsub1); [subst k; lia|].
  rewrite !bind_run, E1. rewrite !bind_get_sim. cbv beta.
  rewrite !bind_run. cbn [time_time]. rewrite !bind_run. cbn [new_message].
  rewrite !bind_modify_sim.
  cbn -[for_ attempt spec_attempt message_id pretty String.append].
  rewrite !Hs1.
  match goal with |- context [for_ ts (attempt ?r) ?w2] =>
    set (message := r); set (w2' := w2) end.
  pose (m0 := mkMessage (message_id (message_counter (sim w)) (node_id node))
               ("Gossip from node " +:+ pretty (node_id node))
               (clock w1 (ticks w1)) (node_id node) 0).
  destruct (attempts_run message (heap w) ts w2' m0)
    as (Heq & w' & m' & E & Hh & Hsrc & Hid & Hhop & Hmax & Hp & Hsh).
  { subst w2' m0. cbn. by rewrite Hh1. }
  { subst message. cbn. by rewrite ?Hh1. }
  { intros t Ht%Hsub1%elem_of_elements. subst w2'. cbn. rewrite ?Hs1.
    by apply Hcl. }
  assert (sim w2' = set_message_counter (message_counter (sim w) + 1) (sim w))
    as Hs2 by (subst w2'; cbn; by rewrite ?Hs1).
  exists w', m'. rewrite <-Heq, E.
  split; [done|]. split; [done|]. split; [done|]. split; [done|].
  split; [done|]. split.
  { rewrite (same_params_message_counter _ _ Hp), Hs2. done. }
  split.
  { subst m0. simpl in Hhop. lia. }
  split.
  { replace (max_hop_count (sim w)) with (max_hop_count (sim w2'))
      by (by rewrite Hs2).
    exact Hmax. }
  subst message. cbn in Hsh. rewrite Hh1 in Hsh.
  etrans; [|exact Hsh]. apply (node_rel_same_nodes _). by rewrite Hs2.
Qed.

Lemma gossip_round_one_shared_message_witness :
  nodes (sim pair_world) !! 0%nat = Some pair_node0 ∧
  neighbors pair_node0 ≠ ∅ ∧
  0 ≤ gossip_fanout (sim pair_world) ∧
  ∃ w' m,
    _gossip_step 0 pair_world = (Return tt, w') ∧
    heap w' = heap pair_world ++ [m] ∧
    source_node m = node_id pair_node0.
Proof.
  assert (nodes (sim pair_world) !! 0%nat = Some pair_node0) as H1
    by (vm_compute; reflexivity).
  assert (neighbors pair_node0 ≠ ∅) as H2.
  { apply (bool_decide_unpack _). vm_compute. exact I. }
  assert (0 ≤ gossip_fanout (sim pair_world)) as H3
    by (vm_compute; discriminate).
  split; [exact H1|]. split; [exact H2|]. split; [exact H3|].
  destruct (gossip_round_one_shared_message 0 pair_node0 pair_world H1 H2 H3)
    as (w' & m & E & _ & Hh & Hs & _).
  { apply (bool_decide_unpack _). vm_compute. exact I. }
  exists w', m. auto.
Defined.

(** Two deliveries in one round: node 0 of the three-node engine reaches
    both of its neighbours, which hold the same object (reference 0), and
    the hop count of that object is 2 for both. *)
Example gossip_round_shared_hop_count :
  hop_count <$> heap (run [Start None; Step] trio_world) = [2] ∧
  message_history <$> nodes (sim (run [Start None; Step] trio_world))
  = [[]; [0%nat]; [0%nat]].
Proof. split; vm_compute; reflexivity. Qed.

(** * Further properties of the engine *)

(** ** Draws *)

Lemma Qltb_lt (a b : Q) : Qltb a b = true ↔ (a < b)%Q.
Proof.
  unfold Qltb. rewrite negb_true_iff. split.
  - intros H. apply Qnot_le_lt. intros Hle.
    apply Qle_bool_iff in Hle. congruence.
  - intros H. destruct (Qle_bool b a) eqn:E; [|done].
    apply Qle_bool_iff in E. by apply Qlt_not_le in H.
Qed.

Lemma random_random_unit (w : World) :
  ∃ u, unit_draw u ∧
       random_random w = (Return u, set_cursor (S (cursor w)) w).
Proof.
  eexists. split; [|apply random_random_run].
  set (r := (tape w (cursor w) `mod` 2 ^ 53)%N).
  assert (r < 2 ^ 53)%N as Hr by (by apply N.mod_lt).
  unfold unit_draw, Qle, Qlt. simpl. split; [lia|].
  change (2 ^ 53)%N with 9007199254740992%N in Hr. lia.
Qed.

(** ** The operations, mutation by mutation

    A sharper variant of the operation lemmas above: the relation [P] has
    only to accept the mutations the code can actually make, with the draw
    that allowed them. *)
Section Sharp.
Context (P : relation GossipNode) `{!PreOrder P}.

Hypothesis P_record :
  ∀ n k r, messages n !! k = None → P n (record k r n).
Hypothesis P_infect : ∀ n u,
  state n = SUSCEPTIBLE → unit_draw u → (u < infection_probability n)%Q →
  P n (set_state INFECTED n).
Hypothesis P_recover : ∀ n u,
  state n = INFECTED → unit_draw u → (u < recovery_probability n)%Q →
  P n (set_state REMOVED n).
Hypothesis P_infection_probability :
  ∀ n q, P n (set_infection_probability q n).
Hypothesis P_recovery_probability :
  ∀ n q, P n (set_recovery_probability q n).

Lemma receive_message_sharp i message w :
  node_rel P w (after (receive_message i message) w).
Proof.
  unfold after, receive_message. rewrite bind_run.
  destruct (nodes (sim w) !! i) as [n|] eqn:Hn.
  2:{ unfold get_node. rewrite Hn. reflexivity. }
  rewrite (get_node_run _ _ _ Hn), bind_run. unfold deref at 1.
  destruct (heap w !! message) as [m|]; [|reflexivity].
  destruct (messages n !! id m) eqn:Hk; [reflexivity|].
  rewrite bind_run, modify_node_run, bind_run, modify_node_run.
  cbn [sim set_sim nodes set_nodes].
  rewrite list_alter_alter_eq.
  set (w1 := set_sim _ (set_sim _ w)).
  assert (nodes (sim w1) = alter (record (id m) message) i (nodes (sim w)))
    as Hw1 by reflexivity.
  assert (node_rel P w w1) as H1.
  { unfold node_rel. rewrite Hw1.
    apply (modify_node_rel P i (record (id m) message) w).
    intros n0 Hn0. simplify_eq. by apply P_record. }
  etrans; [exact H1|].
  assert (nodes (sim w1) !! i = Some (record (id m) message n)) as Hn1.
  { rewrite Hw1, list_lookup_alter_eq, Hn. done. }
  rewrite bind_run, (get_node_run _ _ _ Hn1).
  case_decide as Hst; [|reflexivity].
  rewrite bind_run. destruct (random_random_unit w1) as (u & Hu & ->).
  destruct (Qltb u _) eqn:Hlt; [|by apply (node_rel_same_sim P)].
  apply Qltb_lt in Hlt.
  trans (set_cursor (S (cursor w1)) w1); [by apply (node_rel_same_sim P)|].
  apply (modify_node_rel P). intros n0 Hn0.
  change (nodes (sim w1) !! i = Some n0) in Hn0.
  rewrite Hn1 in Hn0. simplify_eq.
  unfold infect. rewrite decide_True by done. by eapply P_infect.
Qed.

Lemma recover_sharp i w : node_rel P w (after (recover i) w).
Proof.
  unfold after, recover. rewrite bind_run.
  destruct (nodes (sim w) !! i) as [n|] eqn:Hn.
  2:{ unfold get_node. rewrite Hn. reflexivity. }
  rewrite (get_node_run _ _ _ Hn). case_decide as Hst; [|reflexivity].
  rewrite bind_run. destruct (random_random_unit w) as (u & Hu & ->).
  destruct (Qltb u _) eqn:Hlt; [|by apply (node_rel_same_sim P)].
  apply Qltb_lt in Hlt.
  trans (set_cursor (S (cursor w)) w); [by apply (node_rel_same_sim P)|].
  apply (modify_node_rel P). intros n0 Hn0.
  change (nodes (sim w) !! i = Some n0) in Hn0.
  rewrite Hn in Hn0. simplify_eq. by eapply P_recover.
Qed.

Lemma attempt_sharp message t w :
  node_rel P w (after (attempt message t) w).
Proof.
  unfold after, attempt. rewrite bind_get_sim. cbv beta.
  case_match; [|reflexivity].
  apply (bind_rel (node_rel P)); [by apply (keeps_sim_node_rel P)|].
  intros u w1 _. case_match; [|reflexivity].
  apply (bind_rel (node_rel P));
    [by apply (keeps_sim_node_rel P), keeps_sim_deref|].
  intros m w2 _. case_match; [|reflexivity].
  apply (bind_rel (node_rel P)); [by apply (keeps_sim_node_rel P)|].
  intros _ w3 _. apply receive_message_sharp.
Qed.

Lemma gossip_step_sharp i w : node_rel P w (after (_gossip_step i) w).
Proof.
  unfold after. rewrite gossip_step_unfold.
  apply (bind_rel (node_rel P));
    [by apply (keeps_sim_node_rel P), keeps_sim_get_node|].
  intros node w1 _. case_decide; [reflexivity|].
  apply (bind_rel (node_rel P)); [by apply (keeps_sim_node_rel P)|].
  intros s w2 _.
  apply (bind_rel (node_rel P));
    [by apply (keeps_sim_node_rel P), keeps_sim_random_sample|].
  intros targets w3 _.
  apply (bind_rel (node_rel P)); [by apply (keeps_sim_node_rel P)|].
  intros s' w4 _.
  apply (bind_rel (node_rel P)); [by apply (keeps_sim_node_rel P)|].
  intros now w5 _.
  apply (bind_rel (node_rel P)); [by apply (keeps_sim_node_rel P)|].
  intros message w6 _.
  apply (bind_rel (node_rel P)); [by apply (node_rel_same_nodes P)|].
  intros _ w7 _. apply (for_rel (node_rel P)). intros t w8 _.
  apply attempt_sharp.
Qed.

Lemma step_sharp w : node_rel P w (after step w).
Proof.
  unfold after, step.
  apply (bind_rel (node_rel P)); [by apply (keeps_sim_node_rel P)|].
  intros s w1 _. case_match; [reflexivity|].
  apply (bind_rel (node_rel P)); [by apply (node_rel_same_nodes P)|].
  intros _ w2 _.
  apply (bind_rel (node_rel P)); [by apply (keeps_sim_node_rel P)|].
  intros s' w3 _. case_match; [by apply (node_rel_same_nodes P)|].
  apply (bind_rel (node_rel P)).
  { apply (for_rel (node_rel P)). intros. apply gossip_step_sharp. }
  intros _ w4 _.
  apply (bind_rel (node_rel P)); [by apply (keeps_sim_node_rel P)|].
  intros s'' w5 _. apply (for_rel (node_rel P)). intros. apply recover_sharp.
Qed.

Lemma quiet_run_sharp (qs : list quiet_op) : ∀ w,
  node_rel P w (run (op_of <$> qs) w).
Proof.
  assert (∀ q w, node_rel P w (exec (op_of q) w).2) as Hq.
  { intros [|kwargs|] w; simpl.
    - apply step_sharp.
    - by apply (update_parameters_rel P).
    - by apply (node_rel_same_sim P). }
  induction qs as [|q qs IH]; intros w; [reflexivity|].
  rewrite fmap_cons. cbn [run]. specialize (Hq q w).
  destruct (exec (op_of q) w) as [[[]|e|] w']; simpl in Hq; try reflexivity;
    (etrans; [exact Hq|apply IH]).
Qed.

Hypothesis P_reset : ∀ n, P n (reset_node n).
Hypothesis P_infect_start :
  ∀ n, state n = SUSCEPTIBLE → P n (set_state INFECTED n).

Lemma run_sharp (ops : list op) : ∀ w, node_rel P w (run ops w).
Proof.
  assert (∀ o w, node_rel P w (exec o w).2) as Ho.
  { intros [ids| |kwargs| |] w; simpl.
    - by apply (start_gossip_rel P).
    - apply step_sharp.
    - by apply (update_parameters_rel P).
    - by apply (node_rel_same_sim P).
    - by apply (reset_simulation_rel P). }
  induction ops as [|o ops IH]; intros w; [reflexivity|].
  cbn [run]. specialize (Ho o w).
  destruct (exec o w) as [[[]|e|] w']; simpl in Ho; try reflexivity;
    (etrans; [exact Ho|apply IH]).
Qed.
End Sharp.

(** ** Construction, field by field *)

(** The traversal only reads. *)
Lemma dfs_world (fuel : nat) : ∀ node visited w,
  (dfs fuel node visited w).2 = w.
Proof.
  induction fuel as [|fuel IH]; intros node visited w;
    rewrite dfs_unfold; case_decide; try done.
  rewrite bind_run. unfold get_node.
  destruct (nodes (sim w) !! node) as [n|]; [|done].
  generalize (visited ∪ {[node]}).
  induction (elements (neighbors n)) as [|nb nbs IHn]; intros cur; [done|].
  cbn [foldr]. rewrite bind_run. specialize (IH nb cur w).
  destruct (dfs fuel nb cur w) as [[v|e|] w1]; simpl in IH; subst;
    [apply IHn|done|done].
Qed.

(** What the topology builder does to the world, for a relation [R] that
    accepts a move of the generator and the addition of a neighbour. *)
Section Topology.
Context (R : relation World) `{!PreOrder R}.

Hypothesis R_cursor : ∀ w c, R w (set_cursor c w).
Hypothesis R_add_neighbor :
  ∀ w i j, R w (modify_node i (add_neighbor j) w).2.

Lemma node_do_add_rel i j w : R w (node_do i (add_neighbor j) w).2.
Proof.
  unfold node_do. rewrite bind_run. unfold get_node.
  destruct (nodes (sim w) !! i); [apply R_add_neighbor|reflexivity].
Qed.

Lemma pairwise_rel (n : Z) (r : Q) (w : World) :
  R w (for_ (range n) (λ i,
    for_ (range_from (i + 1) n) (λ j,
      node1 ← get_node i;
      node2 ← get_node j;
      if within_radius node1 node2 r then
        modify_node i (add_neighbor j);;
        modify_node j (add_neighbor i)
      else mret tt)) w).2.
Proof.
  apply (for_rel R). intros i w1 _. apply (for_rel R). intros j w2 _.
  rewrite bind_run. unfold get_node at 1.
  destruct (nodes (sim w2) !! i) as [n1|]; [|reflexivity].
  rewrite bind_run. unfold get_node at 1.
  destruct (nodes (sim w2) !! j) as [n2|]; [|reflexivity].
  case_match; [|reflexivity].
  apply (bind_rel R); [apply R_add_neighbor|]. intros _ w3 _.
  apply R_add_neighbor.
Qed.

Lemma repair_rel (todo : list nat) : ∀ (visited : gset nat) w,
  R w (foldr (λ node_id k (visited : gset nat),
               if decide (visited = ∅) then k visited else
               target ← random_choice (elements visited);
               node_do node_id (add_neighbor target);;
               node_do target (add_neighbor node_id);;
               k (visited ∪ {[node_id]}))
            (λ _, mret tt) todo visited w).2.
Proof.
  induction todo as [|node_id todo IH]; intros visited w; [reflexivity|].
  cbn [foldr]. case_decide; [apply IH|].
  apply (bind_rel R).
  { destruct (elements visited) as [|d l]; [reflexivity|].
    unfold random_choice. rewrite bind_run, randbelow_run. apply R_cursor. }
  intros target w1 _.
  apply (bind_rel R); [apply node_do_add_rel|]. intros _ w2 _.
  apply (bind_rel R); [apply node_do_add_rel|]. intros _ w3 _.
  apply IH.
Qed.

Lemma ensure_connectivity_rel w : R w (_ensure_connectivity w).2.
Proof.
  unfold _ensure_connectivity. rewrite bind_get_sim. cbv beta.
  apply (bind_rel R).
  { destruct (nodes (sim w)); [reflexivity|]. rewrite dfs_world.
    reflexivity. }
  intros visited w1 _. apply repair_rel.
Qed.

Lemma build_network_topology_rel w : R w (_build_network_topology w).2.
Proof.
  unfold _build_network_topology. rewrite bind_get_sim. cbv beta.
  apply (bind_rel R); [apply pairwise_rel|]. intros _ w1 _.
  apply ensure_connectivity_rel.
Qed.
End Topology.

#[global] Instance same_rest_preorder : PreOrder same_rest.
Proof.
  unfold same_rest. split; [done|].
  intros a b c [? ?] [? ?]. split; congruence.
Qed.

#[global] Instance but_neighbors_preorder : PreOrder but_neighbors.
Proof.
  unfold but_neighbors. split.
  - by intros [].
  - intros [] [] [] Hab Hbc. unfold set_neighbors in *. simpl in *.
    congruence.
Qed.

Lemma build_network_topology_same_rest w :
  same_rest w (_build_network_topology w).2.
Proof. by apply (build_network_topology_rel same_rest). Qed.

Lemma build_network_topology_but_neighbors w :
  node_rel but_neighbors w (_build_network_topology w).2.
Proof.
  apply (build_network_topology_rel (node_rel but_neighbors)).
  - intros w1 c. by apply (node_rel_same_sim _).
  - intros w1 i j. apply (modify_node_rel _). intros n _.
    unfold but_neighbors, add_neighbor. reflexivity.
Qed.

Lemma initialize_nodes_fresh_loop (k a : nat) (w : World) :
  length (nodes (sim w)) = a →
  ∃ w' new,
    for_ (seq a k) (λ i,
      s ← get_sim;
      x ← random_uniform 50 (inject_Z (width s - 50));
      y ← random_uniform 50 (inject_Z (height s - 50));
      modify_sim (λ s,
        set_nodes (dict_set i (GossipNode_init i x y) (nodes s)) s)) w
    = (Return tt, w') ∧
    same_rest w w' ∧
    nodes (sim w') = nodes (sim w) ++ new ∧ length new = k ∧
    ∀ j n, new !! j = Some n →
      n = GossipNode_init (a + j) (x n) (y n) ∧
      placed_coordinate (width (sim w)) (x n) ∧
      placed_coordinate (height (sim w)) (y n).
Proof.
  revert a w. induction k as [|k IH]; intros a w Hlen.
  - exists w, []. rewrite app_nil_r. repeat split; try done.
    all: intros; by rewrite lookup_nil in *.
  - cbn [seq]. rewrite for_cons, bind_run. mrun.
    rewrite random_uniform_run. mrun. rewrite random_uniform_run. mrun.
    destruct (random_random_unit w) as (ux & Hux & Ex).
    destruct (random_random_unit (set_cursor (S (cursor w)) w))
      as (uy & Huy & Ey).
    rewrite random_random_run in Ex, Ey. simplify_eq.
    match goal with |- context [for_ _ _ ?w1] => set (w1' := w1) end.
    assert (nodes (sim w1') = nodes (sim w) ++
      [GossipNode_init (length (nodes (sim w)))
         (50 + (inject_Z (width (sim w) - 50) - 50)
               * (Z.of_N (tape w (cursor w) `mod` 2 ^ 53)%N # 2 ^ 53))
         (50 + (inject_Z (height (sim w) - 50) - 50)
               * (Z.of_N (tape w (S (cursor w)) `mod` 2 ^ 53)%N # 2 ^ 53))])
      as Hn1.
    { subst w1'. cbn. unfold dict_set. by rewrite decide_False by lia. }
    destruct (IH (S (length (nodes (sim w)))) w1')
      as (w' & new & Hrun & [Hh Hs] & Hnodes & Hl & Hnew).
    { rewrite Hn1, length_app. simpl. lia. }
    eexists w', (_ :: new). rewrite Hrun. split; [done|].
    split; [split; [by rewrite Hh|by rewrite Hs]|].
    split; [rewrite Hnodes, Hn1, <-app_assoc; reflexivity|].
    split; [simpl; lia|].
    intros [|j] n Hj; simplify_eq/=.
    + rewrite Nat.add_0_r. split; [done|].
      split; [eexists; split; [exact Hux|reflexivity]
             |eexists; split; [exact Huy|reflexivity]].
    + destruct (Hnew j n Hj) as (Hn & Hx & Hy).
      split; [|done]. rewrite Hn at 1. f_equal. lia.
Qed.

Lemma pristine_init i x0 y0 : pristine i (GossipNode_init i x0 y0).
Proof. reflexivity. Qed.

(** The nodes the constructor returns, with where they were placed. *)
Lemma init_nodes (n wd ht : Z) (w0 : World) :
  ∃ w,
    GossipSimulator_init n wd ht w0 = (Return tt, w) ∧
    heap w = heap w0 ∧
    set_nodes [] (sim w)
    = mkGossipSimulator n wd ht [] false 0 0 3 (8 # 10) 10 1 ∧
    length (nodes (sim w)) = Z.to_nat n ∧
    ∀ i nd, nodes (sim w) !! i = Some nd →
      pristine i nd ∧ placed_coordinate wd (x nd)
      ∧ placed_coordinate ht (y nd).
Proof.
  destruct (init_run n wd ht w0) as (w & E & (Hlen & _) & _).
  exists w. split; [done|]. revert E.
  unfold GossipSimulator_init. rewrite bind_modify_sim.
  set (w1 := set_sim _ w0). rewrite bind_run.
  unfold _initialize_nodes. rewrite bind_get_sim. cbv beta. unfold range.
  destruct (initialize_nodes_fresh_loop (Z.to_nat (num_nodes (sim w1))) 0 w1)
    as (w2 & new & -> & [Hh2 Hs2] & Hn2 & Hl2 & Hnew); [done|].
  intros E.
  pose proof (build_network_topology_same_rest w2) as [Hh3 Hs3].
  pose proof (build_network_topology_but_neighbors w2) as Hb.
  rewrite E in Hh3, Hs3, Hb. simpl in Hh3, Hs3, Hb.
  split; [by rewrite Hh3, Hh2|]. split; [by rewrite Hs3, Hs2|].
  split; [done|].
  intros i nd Hnd.
  destruct (Forall2_lookup_r _ _ _ _ _ Hb Hnd) as (nd0 & Hnd0 & Hbn).
  rewrite Hn2 in Hnd0. simpl in Hnd0.
  destruct (Hnew i nd0 Hnd0) as (Hinit & Hx & Hy).
  assert (x nd = x nd0 ∧ y nd = y nd0) as [-> ->].
  { unfold but_neighbors in Hbn. rewrite Hbn. by destruct nd0. }
  split; [|done].
  unfold pristine, but_neighbors in *. destruct nd, nd0.
  unfold set_neighbors, GossipNode_init in *. simpl in *. congruence.
Qed.

(** X1. The constructor returns an engine in its initial condition: the
    node under key [i] has identifier [i], is SUSCEPTIBLE, knows no message
    and has the default probabilities 0.1 and 0.05; the engine is not
    running, its counters are 0 and its parameters are the defaults
    (fanout 3, transmission probability 0.8, at most 10 hops); no message
    has been created. *)
Theorem constructor_fresh_engine (n wd ht : Z) (w0 : World) :
  ∃ w,
    GossipSimulator_init n wd ht w0 = (Return tt, w) ∧
    heap w = heap w0 ∧
    set_nodes [] (sim w)
    = mkGossipSimulator n wd ht [] false 0 0 3 (8 # 10) 10 1 ∧
    length (nodes (sim w)) = Z.to_nat n ∧
    ∀ i nd, nodes (sim w) !! i = Some nd → pristine i nd.
Proof.
  destruct (init_nodes n wd ht w0) as (w & E & Hh & Hs & Hl & Hn).
  exists w. repeat (split; [done|]). intros i nd Hnd.
  by destruct (Hn i nd Hnd).
Qed.

Lemma placed_coordinate_between (size : Z) (c : Q) :
  placed_coordinate size c →
  ((50 <= c)%Q ∧ (c <= inject_Z (size - 50))%Q) ∨
  ((inject_Z (size - 50) <= c)%Q ∧ (c <= 50)%Q).
Proof.
  intros (u & [Hu0 Hu1] & ->).
  destruct (Qlt_le_dec (inject_Z (size - 50)) 50) as [Hlt|Hle].
  - right. split; nra.
  - left. split; nra.
Qed.

(** X2. Every node is placed inside the margin: its coordinates lie
    between 50 and the field size minus 50 (whichever of the two is the
    lower bound when the field is narrower than 100). *)
Theorem constructor_places_nodes_in_field (n wd ht : Z) (w0 : World) :
  ∃ w,
    GossipSimulator_init n wd ht w0 = (Return tt, w) ∧
    ∀ i nd, nodes (sim w) !! i = Some nd →
      (((50 <= x nd)%Q ∧ (x nd <= inject_Z (wd - 50))%Q) ∨
       ((inject_Z (wd - 50) <= x nd)%Q ∧ (x nd <= 50)%Q)) ∧
      (((50 <= y nd)%Q ∧ (y nd <= inject_Z (ht - 50))%Q) ∨
       ((inject_Z (ht - 50) <= y nd)%Q ∧ (y nd <= 50)%Q)).
Proof.
  destruct (init_nodes n wd ht w0) as (w & E & _ & _ & _ & Hn).
  exists w. split; [done|]. intros i nd Hnd.
  destruct (Hn i nd Hnd) as (_ & Hx & Hy).
  split; by apply placed_coordinate_between.
Qed.

(** ** Construction: which links exist *)

(** A loop that returns at every turn, keeps an invariant, moves the world
    along a preorder, and at each turn establishes a fact that the preorder
    keeps. *)
Lemma for_establishes {A} (R : relation World) `{!PreOrder R}
    (I : World → Prop) (Q : A → World → Prop)
    (l : list A) (body : A → M unit) (w : World) :
  I w →
  (∀ a w, a ∈ l → I w →
     ∃ w', body a w = (Return tt, w') ∧ I w' ∧ R w w' ∧ Q a w') →
  (∀ a w w', Q a w → R w w' → Q a w') →
  ∃ w', for_ l body w = (Return tt, w') ∧ I w' ∧ R w w'
        ∧ ∀ a, a ∈ l → Q a w'.
Proof.
  intros Hw Hbody Hkeep. revert w Hw.
  induction l as [|a l IH]; intros w Hw.
  - exists w. repeat split; try done. intros a Ha. by apply elem_of_nil in Ha.
  - destruct (Hbody a w) as (w1 & E1 & Hw1 & HR1 & HQ1); [by left|done|].
    destruct IH with (w := w1) as (w2 & E2 & Hw2 & HR2 & HQ2); [|done|].
    { intros b w' Hb. apply Hbody. by right. }
    exists w2. rewrite for_cons, bind_run, E1. split; [done|].
    split; [done|]. split; [by etrans|].
    intros b [->|Hb]%elem_of_cons; [by eapply Hkeep|by apply HQ2].
Qed.

#[global] Instance grows_preorder : PreOrder grows.
Proof.
  unfold grows. split; [done|].
  intros a b c (? & ? & ?) (? & ? & ?). repeat split; try congruence.
  set_solver.
Qed.

Lemma within_radius_grows n1 n2 n1' n2' r :
  grows n1 n1' → grows n2 n2' →
  within_radius n1' n2' r = within_radius n1 n2 r.
Proof.
  intros (Hx1 & Hy1 & _) (Hx2 & Hy2 & _). unfold within_radius.
  by rewrite Hx1, Hy1, Hx2, Hy2.
Qed.

Lemma linked_if_close_grows r i j (w w' : World) :
  linked_if_close r i j (nodes (sim w)) → node_rel grows w w' →
  linked_if_close r i j (nodes (sim w')).
Proof.
  intros H Hg n1' n2' H1 H2 Hclose.
  destruct (Forall2_lookup_r _ _ _ _ _ Hg H1) as (n1 & Hn1 & Hg1).
  destruct (Forall2_lookup_r _ _ _ _ _ Hg H2) as (n2 & Hn2 & Hg2).
  rewrite (within_radius_grows _ _ _ _ _ Hg1 Hg2) in Hclose.
  destruct (H n1 n2 Hn1 Hn2 Hclose) as [Hj Hi].
  destruct Hg1 as (_ & _ & Hs1). destruct Hg2 as (_ & _ & Hs2). set_solver.
Qed.

Lemma modify_node_grows i j w :
  node_rel grows w (modify_node i (add_neighbor j) w).2.
Proof.
  apply (modify_node_rel grows). intros n _. unfold grows, add_neighbor.
  simpl. set_solver.
Qed.

Lemma pairwise_links (N : nat) (n : Z) (r : Q) (w : World) :
  Z.to_nat n = N → length (nodes (sim w)) = N →
  ∃ w',
    for_ (range n) (λ i,
      for_ (range_from (i + 1) n) (λ j,
        node1 ← get_node i;
        node2 ← get_node j;
        if within_radius node1 node2 r then
          modify_node i (add_neighbor j);;
          modify_node j (add_neighbor i)
        else mret tt)) w
    = (Return tt, w') ∧
    node_rel grows w w' ∧
    ∀ i j, (i < j < N)%nat → linked_if_close r i j (nodes (sim w')).
Proof.
  intros HN Hlen.
  destruct (for_establishes (node_rel grows)
    (λ w', length (nodes (sim w')) = N)
    (λ i w', ∀ j, (i < j < N)%nat → linked_if_close r i j (nodes (sim w')))
    (range n) (λ i,
      for_ (range_from (i + 1) n) (λ j,
        node1 ← get_node i;
        node2 ← get_node j;
        if within_radius node1 node2 r then
          modify_node i (add_neighbor j);;
          modify_node j (add_neighbor i)
        else mret tt)) w) as (w' & E & _ & Hg & HQ); [done| | |].
  - intros i w1 Hi Hl1.
    destruct (for_establishes (node_rel grows)
      (λ w', length (nodes (sim w')) = N)
      (λ j w', linked_if_close r i j (nodes (sim w')))
      (range_from (i + 1) n) (λ j,
        node1 ← get_node i;
        node2 ← get_node j;
        if within_radius node1 node2 r then
          modify_node i (add_neighbor j);;
          modify_node j (add_neighbor i)
        else mret tt) w1) as (w2 & E2 & Hl2 & Hg2 & HQ2); [done| | |].
    + intros j w2 Hj Hl2. unfold range in Hi. unfold range_from in Hj.
      apply elem_of_seq in Hi, Hj.
      destruct (lookup_lt_is_Some_2 (nodes (sim w2)) i) as [n1 Hn1]; [lia|].
      destruct (lookup_lt_is_Some_2 (nodes (sim w2)) j) as [n2 Hn2]; [lia|].
      rewrite bind_run, (get_node_run _ _ _ Hn1).
      rewrite bind_run, (get_node_run _ _ _ Hn2).
      destruct (within_radius n1 n2 r) eqn:Hclose.
      * rewrite bind_run, !modify_node_run. eexists. split; [reflexivity|].
        cbn [sim set_sim nodes set_nodes].
        change (alter (add_neighbor i) j (alter (add_neighbor j) i ?l))
          with (linked i j l).
        split; [by rewrite linked_length|]. split.
        { etrans; [apply (modify_node_grows i j w2)|].
          apply (modify_node_grows j i). }
        intros n1' n2' H1 H2 _.
        assert (adj (linked i j (nodes (sim w2))) i j) as (m1 & Hm1 & Hin1)
          by (apply adj_linked; [lia..|auto]).
        assert (adj (linked i j (nodes (sim w2))) j i) as (m2 & Hm2 & Hin2)
          by (apply adj_linked; [lia..|auto]).
        cbn in H1, H2.
        change (alter (add_neighbor i) j (alter (add_neighbor j) i ?l))
          with (linked i j l) in H1, H2.
        by simplify_eq.
      * exists w2. split; [reflexivity|]. split; [done|].
        split; [reflexivity|]. intros n1' n2' H1 H2 Hc. simplify_eq.
        congruence.
    + intros j wa wb Hq Hgab. by eapply linked_if_close_grows.
    + exists w2. split; [done|]. split; [done|]. split; [done|].
      intros j Hj. apply HQ2. unfold range_from. apply elem_of_seq. lia.
  - intros i wa wb Hq Hgab j Hj. eapply linked_if_close_grows; eauto.
  - exists w'. split; [done|]. split; [done|].
    intros i j Hij. apply HQ; [|done]. unfold range. apply elem_of_seq. lia.
Qed.

Lemma within_radius_sym (n1 n2 : GossipNode) (r : Q) :
  within_radius n1 n2 r = within_radius n2 n1 r.
Proof.
  unfold within_radius. f_equal.
  assert (((x n1 - x n2) ^ 2 + (y n1 - y n2) ^ 2
           == (x n2 - x n1) ^ 2 + (y n2 - y n1) ^ 2)%Q) as Heq
    by (simpl; ring).
  destruct (Qle_bool ((x n2 - x n1) ^ 2 + (y n2 - y n1) ^ 2) (r ^ 2)) eqn:E.
  - apply Qle_bool_iff. apply Qle_bool_iff in E.
    eapply Qle_trans; [|exact E]. rewrite Heq. apply Qle_refl.
  - destruct (Qle_bool ((x n1 - x n2) ^ 2 + (y n1 - y n2) ^ 2) (r ^ 2))
      eqn:E'; [|done].
    apply Qle_bool_iff in E'.
    assert ((x n2 - x n1) ^ 2 + (y n2 - y n1) ^ 2 <= r ^ 2)%Q as E''.
    { eapply Qle_trans; [|exact E']. rewrite <-Heq. apply Qle_refl. }
    apply Qle_bool_iff in E''. congruence.
Qed.

Lemma ensure_connectivity_grows w :
  node_rel grows w (_ensure_connectivity w).2.
Proof.
  apply (ensure_connectivity_rel (node_rel grows)).
  - intros w1 c. by apply (node_rel_same_sim _).
  - intros w1 i j. apply modify_node_grows.
Qed.

(** X3. Construction links every two different nodes that lie within the
    connection radius, 0.15 times the smaller side of the field, of each
    other: each is in the neighbour set of the other. *)
Theorem constructor_links_close_nodes (n wd ht : Z) (w0 : World) :
  ∃ w,
    GossipSimulator_init n wd ht w0 = (Return tt, w) ∧
    ∀ i j n1 n2,
      i ≠ j →
      nodes (sim w) !! i = Some n1 → nodes (sim w) !! j = Some n2 →
      within_radius n1 n2 (inject_Z (Z.min wd ht) * (15 # 100))%Q = true →
      j ∈ neighbors n1.
Proof.
  destruct (init_run n wd ht w0) as (w & E & _ & _).
  exists w. split; [done|]. revert E.
  unfold GossipSimulator_init. rewrite bind_modify_sim.
  set (w1 := set_sim _ w0). rewrite bind_run.
  unfold _initialize_nodes. rewrite bind_get_sim. cbv beta. unfold range.
  destruct (initialize_nodes_fresh_loop (Z.to_nat (num_nodes (sim w1))) 0 w1)
    as (w2 & new & -> & [_ Hs2] & Hn2 & Hl2 & _); [done|].
  unfold _build_network_topology. rewrite bind_get_sim. cbv beta.
  assert (width (sim w2) = wd ∧ height (sim w2) = ht ∧ num_nodes (sim w2) = n)
    as (-> & -> & ->).
  { change (width (set_nodes [] (sim w2)) = wd
            ∧ height (set_nodes [] (sim w2)) = ht
            ∧ num_nodes (set_nodes [] (sim w2)) = n).
    by rewrite Hs2. }
  set (r := (inject_Z (Z.min wd ht) * (15 # 100))%Q).
  assert (length (nodes (sim w2)) = Z.to_nat n) as Hlen2.
  { rewrite Hn2. simpl. exact Hl2. }
  rewrite bind_run.
  destruct (pairwise_links (Z.to_nat n) n r w2)
    as (w3 & -> & Hg3 & Hlinks); [done|done|].
  intros E.
  pose proof (ensure_connectivity_grows w3) as Hg. rewrite E in Hg.
  simpl in Hg.
  assert (length (nodes (sim w)) = Z.to_nat n) as Hlen.
  { rewrite <-(node_rel_length _ _ _ Hg), <-(node_rel_length _ _ _ Hg3).
    done. }
  intros i j n1 n2 Hij H1 H2 Hclose.
  pose proof (lookup_lt_Some _ _ _ H1). pose proof (lookup_lt_Some _ _ _ H2).
  destruct (decide (i < j)%nat).
  - eapply (linked_if_close_grows r i j w3 w); eauto. apply Hlinks. lia.
  - rewrite within_radius_sym in Hclose.
    eapply (linked_if_close_grows r j i w3 w); eauto. apply Hlinks. lia.
Qed.

#[global] Instance keeps_irreflexive_preorder : PreOrder keeps_irreflexive.
Proof.
  unfold keeps_irreflexive. split; [by intros a|].
  intros a b c Hab Hbc Ha. by apply Hbc, Hab.
Qed.

Lemma add_neighbor_irreflexive i j w :
  i ≠ j → keeps_irreflexive w (modify_node i (add_neighbor j) w).2.
Proof.
  intros Hij Hirr a. rewrite modify_node_run. cbn.
  rewrite adj_add_neighbor.
  intros [H|(Ha & Hb & _)]; [by apply (Hirr a)|congruence].
Qed.

Lemma node_do_add_irreflexive i j w :
  i ≠ j → keeps_irreflexive w (node_do i (add_neighbor j) w).2.
Proof.
  intros Hij. unfold node_do. rewrite bind_run. unfold get_node.
  destruct (nodes (sim w) !! i); [by apply add_neighbor_irreflexive|].
  reflexivity.
Qed.

Lemma pairwise_irreflexive (n : Z) (r : Q) (w : World) :
  keeps_irreflexive w (for_ (range n) (λ i,
    for_ (range_from (i + 1) n) (λ j,
      node1 ← get_node i;
      node2 ← get_node j;
      if within_radius node1 node2 r then
        modify_node i (add_neighbor j);;
        modify_node j (add_neighbor i)
      else mret tt)) w).2.
Proof.
  apply (for_rel keeps_irreflexive). intros i w1 _.
  apply (for_rel keeps_irreflexive). intros j w2 Hj.
  unfold range_from in Hj. apply elem_of_seq in Hj.
  rewrite bind_run. unfold get_node at 1.
  destruct (nodes (sim w2) !! i) as [n1|]; [|reflexivity].
  rewrite bind_run. unfold get_node at 1.
  destruct (nodes (sim w2) !! j) as [n2|]; [|reflexivity].
  case_match; [|reflexivity].
  apply (bind_rel keeps_irreflexive).
  - apply add_neighbor_irreflexive. lia.
  - intros _ w3 _. apply add_neighbor_irreflexive. lia.
Qed.

Lemma repair_irreflexive (todo : list nat) : ∀ (visited : gset nat) w,
  NoDup todo → (∀ v, v ∈ todo → v ∉ visited) →
  keeps_irreflexive w
    (foldr (λ node_id k (visited : gset nat),
               if decide (visited = ∅) then k visited else
               target ← random_choice (elements visited);
               node_do node_id (add_neighbor target);;
               node_do target (add_neighbor node_id);;
               k (visited ∪ {[node_id]}))
            (λ _, mret tt) todo visited w).2.
Proof.
  induction todo as [|node_id todo IH]; intros visited w Hnd Hdis;
    [reflexivity|].
  apply NoDup_cons in Hnd as [Hnotin Hnd].
  cbn [foldr]. case_decide.
  { apply IH; [done|]. intros v Hv. apply Hdis. by right. }
  rewrite bind_run.
  destruct (elements visited) as [|d l] eqn:El.
  { reflexivity. }
  rewrite <-El.
  destruct (random_choice_run (elements visited) w)
    as (target & Htarget%elem_of_elements & ->); [by rewrite El|].
  assert (node_id ≠ target) as Hne.
  { intros ->. eapply Hdis; [by left|done]. }
  trans (set_cursor (S (cursor w)) w); [by intros ?|].
  apply (bind_rel keeps_irreflexive).
  { by apply node_do_add_irreflexive. }
  intros _ w2 _. apply (bind_rel keeps_irreflexive).
  { by apply node_do_add_irreflexive. }
  intros _ w3 _. apply IH; [done|].
  intros v Hv [Hin|Hin%elem_of_singleton]%elem_of_union.
  - eapply Hdis; [by right|done].
  - by subst.
Qed.

Lemma ensure_connectivity_irreflexive w :
  keeps_irreflexive w (_ensure_connectivity w).2.
Proof.
  unfold _ensure_connectivity. rewrite bind_get_sim. cbv beta.
  rewrite bind_run.
  assert (∀ m : M (gset nat), (∀ w, (m w).2 = w) →
    keeps_irreflexive w
      (match m w with
       | (Return visited, w') =>
           foldr (λ node_id k (visited : gset nat),
               if decide (visited = ∅) then k visited else
               target ← random_choice (elements visited);
               node_do node_id (add_neighbor target);;
               node_do target (add_neighbor node_id);;
               k (visited ∪ {[node_id]}))
            (λ _, mret tt)
            (elements (list_to_set (range (num_nodes (sim w))) ∖ visited))
            visited w'
       | (Raise e, w') => (Raise e, w')
       | (Stuck, w') => (Stuck, w')
       end).2) as Hgen.
  { intros m Hm. specialize (Hm w).
    destruct (m w) as [[visited|e|] w']; simpl in Hm; subst;
      [|reflexivity..].
    apply repair_irreflexive; [apply NoDup_elements|].
    intros v Hv%elem_of_elements. set_solver. }
  destruct (nodes (sim w)).
  - by apply (Hgen (mret ∅)).
  - apply Hgen. intros w'. apply dfs_world.
Qed.

Lemma init_irreflexive (n wd ht : Z) (w0 w : World) :
  GossipSimulator_init n wd ht w0 = (Return tt, w) →
  irreflexive_graph (nodes (sim w)).
Proof.
  unfold GossipSimulator_init. rewrite bind_modify_sim.
  set (w1 := set_sim _ w0). rewrite bind_run.
  destruct (initialize_nodes_run w1) as (w2 & -> & _ & Hemp & _); [done|].
  unfold _build_network_topology. rewrite bind_get_sim. cbv beta.
  rewrite bind_run.
  pose proof (pairwise_irreflexive (num_nodes (sim w2))
    (inject_Z (Z.min (width (sim w2)) (height (sim w2))) * (15 # 100))%Q w2)
    as H3.
  destruct (for_ _ _ w2) as [[[]|e|] w3]; simpl in H3; try done.
  intros E. pose proof (ensure_connectivity_irreflexive w3) as H4.
  rewrite E in H4. apply H4, H3.
  intros i (nd & Hnd & Hin). rewrite Forall_forall in Hemp.
  rewrite (Hemp nd) in Hin; [set_solver|].
  by eapply list_elem_of_lookup_2.
Qed.

(** X4. In the graph the constructor returns, every neighbour of a node is
    the key of an existing node and is never the node itself. *)
Theorem constructor_neighbors_are_other_nodes (n wd ht : Z) (w0 : World) :
  ∃ w,
    GossipSimulator_init n wd ht w0 = (Return tt, w) ∧
    ∀ i nd j, nodes (sim w) !! i = Some nd → j ∈ neighbors nd →
              (j < length (nodes (sim w)))%nat ∧ j ≠ i.
Proof.
  destruct (init_run n wd ht w0) as (w & E & (_ & _ & Hcl) & _).
  exists w. split; [done|].
  pose proof (init_irreflexive n wd ht w0 w E) as Hirr.
  intros i nd j Hnd Hj. split.
  - apply (Hcl i j). by exists nd.
  - intros ->. apply (Hirr i). by exists nd.
Qed.

(** ** The topology after construction *)

#[global] Instance same_place_preorder : PreOrder same_place.
Proof.
  unfold same_place. split; [done|].
  intros a b c (? & ? & ? & ?) (? & ? & ? & ?). repeat split; congruence.
Qed.




(** ** Receiving and recovering *)

Lemma alter_as_insert {A} (f : A → A) (i : nat) (l : list A) (a : A) :
  l !! i = Some a → alter f i l = <[i := f a]> l.
Proof.
  intros H. apply list_eq. intros j. destruct (decide (i = j)) as [->|Hne].
  - rewrite list_lookup_alter_eq, H, list_lookup_insert_eq; [done|].
    by eapply lookup_lt_Some.
  - by rewrite list_lookup_alter_ne, list_lookup_insert_ne.
Qed.

(** [receive_message] on a node that does not know the message yet, in
    closed form. *)
Lemma receive_message_new (i : nat) (message : ref) (w : World)
    (n : GossipNode) (m : Message) :
  nodes (sim w) !! i = Some n → heap w !! message = Some m →
  messages n !! id m = None →
  let filed := record (id m) message n in
  let w1 := set_sim (set_nodes (<[i := filed]> (nodes (sim w))) (sim w)) w in
  receive_message i message w =
  if decide (state n = SUSCEPTIBLE) then
    if Qltb (Z.of_N (tape w (cursor w) `mod` 2 ^ 53)%N # 2 ^ 53)
            (infection_probability n)
    then (Return tt,
          set_sim (set_nodes (<[i := set_state INFECTED filed]>
                                (nodes (sim w))) (sim w))
            (set_cursor (S (cursor w)) w))
    else (Return tt, set_cursor (S (cursor w)) w1)
  else (Return tt, w1).
Proof.
  intros Hn Hm Hk filed w1. unfold receive_message.
  rewrite bind_run, (get_node_run _ _ _ Hn), bind_run.
  unfold deref at 1. rewrite Hm, Hk.
  rewrite bind_run, modify_node_run, bind_run, modify_node_run.
  cbn [sim set_sim nodes set_nodes].
  rewrite list_alter_alter_eq.
  rewrite (alter_as_insert _ _ _ _ Hn).
  change ((_ ∘ _) n) with filed.
  rewrite bind_run.
  match goal with |- context [get_node i ?w'] =>
    change w' with w1 end.
  assert (nodes (sim w1) !! i = Some filed) as Hn1.
  { subst w1. cbn. apply list_lookup_insert_eq. by eapply lookup_lt_Some. }
  rewrite (get_node_run _ _ _ Hn1).
  change (state filed) with (state n).
  change (infection_probability filed) with (infection_probability n).
  case_decide as Hst; [|reflexivity].
  rewrite bind_run, random_random_run. change (cursor w1) with (cursor w).
  change (tape w1) with (tape w).
  destruct (Qltb _ _); [|reflexivity].
  rewrite modify_node_run. cbn [sim set_sim set_cursor nodes set_nodes].
  subst w1. cbn [sim set_sim nodes set_nodes].
  rewrite (alter_as_insert _ _ _ filed).
  2:{ apply list_lookup_insert_eq. by eapply lookup_lt_Some. }
  rewrite list_insert_insert_eq. unfold infect.
  rewrite decide_True by done. reflexivity.
Qed.

(** X6. Delivering the same message object twice to a node is the same as
    delivering it once: whatever happens the first time, the second
    delivery finds the identifier known and does nothing. *)
Theorem receive_message_twice (i : nat) (message : ref) (w : World) :
  (receive_message i message ;; receive_message i message) w
  = receive_message i message w.
Proof.
  rewrite bind_run.
  destruct (nodes (sim w) !! i) as [n|] eqn:Hn.
  2:{ unfold receive_message. rewrite bind_run. unfold get_node.
      by rewrite Hn. }
  destruct (heap w !! message) as [m|] eqn:Hm.
  2:{ unfold receive_message.
      rewrite bind_run, (get_node_run _ _ _ Hn), bind_run.
      unfold deref. by rewrite Hm. }
  assert (∀ w' n', nodes (sim w') !! i = Some n' → heap w' = heap w →
            is_Some (messages n' !! id m) →
            receive_message i message w' = (Return tt, w')) as Hknown.
  { intros w' n' Hn' Hh [r Hr]. unfold receive_message.
    rewrite bind_run, (get_node_run _ _ _ Hn'), bind_run.
    unfold deref. by rewrite Hh, Hm, Hr. }
  destruct (messages n !! id m) as [r|] eqn:Hk.
  { rewrite (Hknown w n); [|done|done|by eexists].
    apply (Hknown w n); [done|done|by eexists]. }
  pose proof (receive_message_new i message w n m Hn Hm Hk) as E.
  cbv zeta in E. rewrite E.
  assert (i < length (nodes (sim w)))%nat as Hi by (by eapply lookup_lt_Some).
  repeat case_match; (eapply Hknown; [cbn; by apply list_lookup_insert_eq
                                     |done|]);
    simpl; rewrite lookup_insert_eq; by eexists.
Qed.

Lemma set_state_same (n : GossipNode) : set_state (state n) n = n.
Proof. by destruct n. Qed.

Lemma set_state_record (s : NodeState) (k : string) (r : ref) (n : GossipNode) :
  state n = s → set_state s (record k r n) = record k r n.
Proof. intros <-. by destruct n. Qed.

Lemma unit_draw_certain (u p : Q) :
  unit_draw u → (1 <= p)%Q → Qltb u p = true.
Proof. intros [_ Hu] Hp. apply Qltb_lt. lra. Qed.

Lemma unit_draw_impossible (u p : Q) :
  unit_draw u → (p <= 0)%Q → Qltb u p = false.
Proof.
  intros [Hu _] Hp. destruct (Qltb u p) eqn:E; [|done].
  apply Qltb_lt in E. lra.
Qed.

(** X7. A message object whose identifier the node does not know is filed
    under its identifier and appended to the history, nothing else in the
    engine or the store changing. A node that is not SUSCEPTIBLE keeps its
    state and no random number is drawn; a SUSCEPTIBLE node costs one draw
    and ends SUSCEPTIBLE or INFECTED: INFECTED for sure when its infection
    probability is 1 or more, SUSCEPTIBLE for sure when it is 0 or less. *)
Theorem receive_message_records_and_may_infect
    (i : nat) (message : ref) (w : World) (n : GossipNode) (m : Message) :
  nodes (sim w) !! i = Some n → heap w !! message = Some m →
  messages n !! id m = None →
  ∃ w' st',
    receive_message i message w = (Return tt, w') ∧
    nodes (sim w')
    = <[i := set_state st' (record (id m) message n)]> (nodes (sim w)) ∧
    same_rest w w' ∧
    (state n ≠ SUSCEPTIBLE → st' = state n ∧ cursor w' = cursor w) ∧
    (state n = SUSCEPTIBLE →
       cursor w' = S (cursor w) ∧
       (st' = SUSCEPTIBLE ∨ st' = INFECTED) ∧
       ((1 <= infection_probability n)%Q → st' = INFECTED) ∧
       ((infection_probability n <= 0)%Q → st' = SUSCEPTIBLE)).
Proof.
  intros Hn Hm Hk.
  pose proof (receive_message_new i message w n m Hn Hm Hk) as E.
  cbv zeta in E. rewrite E. clear E.
  destruct (random_random_unit w) as (u & Hu & Eu).
  rewrite random_random_run in Eu. injection Eu as Eu.
  rewrite Eu. clear Eu.
  case_decide as Hst.
  - destruct (Qltb u (infection_probability n)) eqn:Hlt.
    + eexists _, INFECTED. split; [reflexivity|]. split; [reflexivity|].
      split; [done|]. split; [done|]. intros _. split; [done|].
      split; [by right|]. split; [done|].
      intros Hp. by rewrite (unit_draw_impossible u _ Hu Hp) in Hlt.
    + eexists _, SUSCEPTIBLE. split; [reflexivity|].
      split; [cbn; by rewrite set_state_record|].
      split; [done|]. split; [done|]. intros _. split; [done|].
      split; [by left|]. split; [|done].
      intros Hp. by rewrite (unit_draw_certain u _ Hu Hp) in Hlt.
  - eexists _, (state n). split; [reflexivity|].
    split; [cbn; by rewrite set_state_record|]. done.
Qed.

Lemma receive_message_records_and_may_infect_witness :
  nodes (sim stepped_world) !! 0%nat = Some stepped_node0 ∧
  heap stepped_world !! 0%nat = Some stepped_message ∧
  messages stepped_node0 !! id stepped_message = None ∧
  ∃ w' st',
    receive_message 0%nat 0%nat stepped_world = (Return tt, w') ∧
    nodes (sim w')
    = <[0%nat := set_state st' (record (id stepped_message) 0%nat stepped_node0)]>
        (nodes (sim stepped_world)).
Proof.
  assert (nodes (sim stepped_world) !! 0%nat = Some stepped_node0) as H1
    by (vm_compute; reflexivity).
  assert (heap stepped_world !! 0%nat = Some stepped_message) as H2
    by (vm_compute; reflexivity).
  assert (messages stepped_node0 !! id stepped_message = None) as H3
    by (vm_compute; reflexivity).
  split; [exact H1|]. split; [exact H2|]. split; [exact H3|].
  destruct (receive_message_records_and_may_infect 0%nat 0%nat stepped_world
              stepped_node0 stepped_message H1 H2 H3)
    as (w' & st' & E & Hn & _).
  exists w', st'. auto.
Defined.

Lemma recover_cases (i : nat) (w : World) (n : GossipNode) :
  nodes (sim w) !! i = Some n →
  ∃ w' st',
    recover i w = (Return tt, w') ∧
    nodes (sim w') = <[i := set_state st' n]> (nodes (sim w)) ∧
    same_rest w w' ∧
    (state n ≠ INFECTED → st' = state n ∧ w' = w) ∧
    (state n = INFECTED →
       cursor w' = S (cursor w) ∧
       (st' = INFECTED ∨ st' = REMOVED) ∧
       ((1 <= recovery_probability n)%Q → st' = REMOVED) ∧
       ((recovery_probability n <= 0)%Q → st' = INFECTED)).
Proof.
  intros Hn. unfold recover. rewrite bind_run, (get_node_run _ _ _ Hn).
  case_decide as Hst.
  - rewrite bind_run. destruct (random_random_unit w) as (u & Hu & ->).
    destruct (Qltb u (recovery_probability n)) eqn:Hlt.
    + rewrite modify_node_run. eexists _, REMOVED. split; [reflexivity|].
      split; [cbn; by rewrite (alter_as_insert _ _ _ _ Hn)|].
      split; [done|]. split; [done|]. intros _. split; [done|].
      split; [by right|]. split; [done|].
      intros Hp. by rewrite (unit_draw_impossible u _ Hu Hp) in Hlt.
    + eexists _, INFECTED. split; [reflexivity|].
      split; [cbn; rewrite <-Hst, set_state_same; by rewrite list_insert_id|].
      split; [done|]. split; [done|]. intros _. split; [done|].
      split; [by left|]. split; [|done].
      intros Hp. by rewrite (unit_draw_certain u _ Hu Hp) in Hlt.
  - exists w, (state n). split; [reflexivity|].
    split; [rewrite set_state_same; by rewrite list_insert_id|]. done.
Qed.

(** X8. [recover] leaves a node that is not INFECTED, and the whole world
    with it, as it is, without drawing. For an INFECTED node it costs one
    draw and the node ends INFECTED or REMOVED: REMOVED for sure when its
    recovery probability is 1 or more, INFECTED for sure when it is 0 or
    less. No other node is touched. *)
Theorem recover_may_remove (i : nat) (w : World) (n : GossipNode) :
  nodes (sim w) !! i = Some n →
  ∃ w' st',
    recover i w = (Return tt, w') ∧
    nodes (sim w') = <[i := set_state st' n]> (nodes (sim w)) ∧
    same_rest w w' ∧
    (state n ≠ INFECTED → st' = state n ∧ w' = w) ∧
    (state n = INFECTED →
       cursor w' = S (cursor w) ∧
       (st' = INFECTED ∨ st' = REMOVED) ∧
       ((1 <= recovery_probability n)%Q → st' = REMOVED) ∧
       ((recovery_probability n <= 0)%Q → st' = INFECTED)).
Proof. apply recover_cases. Qed.

Lemma recover_may_remove_witness :
  nodes (sim started_world) !! 0%nat = Some started_node0 ∧
  ∃ w' st',
    recover 0%nat started_world = (Return tt, w') ∧
    nodes (sim w') = <[0%nat := set_state st' started_node0]>
                       (nodes (sim started_world)).
Proof.
  assert (nodes (sim started_world) !! 0%nat = Some started_node0) as H1
    by (vm_compute; reflexivity).
  split; [exact H1|].
  destruct (recover_may_remove 0%nat started_world started_node0 H1)
    as (w' & st' & E & Hn & _).
  exists w', st'. auto.
Defined.

(** ** Starting and resetting *)

Lemma set_nodes_twice (l l' : list GossipNode) (w : World) :
  set_sim (set_nodes l (sim (set_sim (set_nodes l' (sim w)) w)))
    (set_sim (set_nodes l' (sim w)) w)
  = set_sim (set_nodes l (sim w)) w.
Proof. by destruct w as [[] ?]. Qed.

Lemma seeded_ext (a b : list Z) (k : nat) (n : GossipNode) :
  (Z.of_nat k ∈ a ↔ Z.of_nat k ∈ b) → seeded a k n = seeded b k n.
Proof. intros H. unfold seeded. by rewrite (bool_decide_ext _ _ H). Qed.

Lemma seeded_snoc (done : list Z) (a : Z) (l0 : list GossipNode) :
  (if in_nodes a (set_nodes (imap (seeded done) l0)
                    (mkGossipSimulator 0 0 0 [] false 0 0 0 0 0 0))
   then alter infect (Z.to_nat a) (imap (seeded done) l0)
   else imap (seeded done) l0)
  = imap (seeded (done ++ [a])) l0.
Proof.
  unfold in_nodes. cbn [nodes set_nodes].
  apply list_eq. intros k.
  destruct (0 <=? a) eqn:Ha; cbn [andb].
  - apply Z.leb_le in Ha. case_bool_decide as Hin.
    + destruct (decide (k = Z.to_nat a)) as [->|Hk].
      * rewrite list_lookup_alter, decide_True, !list_lookup_imap by done.
        destruct (l0 !! Z.to_nat a) as [n|]; [|done]. cbn. f_equal.
        unfold seeded. rewrite Z2Nat.id by lia.
        rewrite (bool_decide_eq_true_2 (a ∈ done ++ [a])) by set_solver.
        case_bool_decide; unfold infect; case_decide; by destruct n.
      * rewrite list_lookup_alter_ne by done. rewrite !list_lookup_imap.
        destruct (l0 !! k) as [n|]; [|done]. cbn. f_equal.
        apply seeded_ext.
        rewrite elem_of_app, list_elem_of_singleton. split; [by left|].
        intros [?|?]; [done|lia].
    + rewrite !list_lookup_imap.
      destruct (l0 !! k) as [n|] eqn:Hn; [|done]. cbn. f_equal.
      apply seeded_ext.
      rewrite elem_of_app, list_elem_of_singleton. split; [by left|].
      intros [?|?]; [done|]. subst a. rewrite Nat2Z.id in Hin.
      destruct Hin. rewrite list_lookup_imap, Hn. by eexists.
  - apply Z.leb_gt in Ha. rewrite !list_lookup_imap.
    destruct (l0 !! k) as [n|]; [|done]. cbn. f_equal.
    apply seeded_ext.
    rewrite elem_of_app, list_elem_of_singleton. split; [by left|].
    intros [?|?]; [done|lia].
Qed.

Lemma seed_loop (l0 : list GossipNode) (ids done : list Z) (w : World) :
  nodes (sim w) = imap (seeded done) l0 →
  for_ ids (λ node_id,
    s ← get_sim;
    if in_nodes node_id s
    then modify_node (Z.to_nat node_id) infect
    else mret tt) w
  = (Return tt,
     set_sim (set_nodes (imap (seeded (done ++ ids)) l0) (sim w)) w).
Proof.
  revert done w. induction ids as [|a ids IH]; intros done w Hw.
  - rewrite app_nil_r, <-Hw. by destruct w as [[] ?].
  - rewrite for_cons, bind_run, bind_get_sim.
    pose proof (seeded_snoc done a l0) as Hs.
    unfold in_nodes in *. cbn [nodes set_nodes] in Hs. rewrite Hw.
    destruct (_ && _).
    + rewrite modify_node_run. rewrite Hw, Hs.
      rewrite (IH (done ++ [a])) by done.
      by rewrite set_nodes_twice, <-app_assoc.
    + rewrite ret_run. rewrite (IH (done ++ [a])) by (by rewrite Hw, Hs).
      by rewrite <-app_assoc.
Qed.

Lemma seeded_nil (l : list GossipNode) :
  imap (seeded []) l = reset_node <$> l.
Proof.
  apply list_eq. intros k. rewrite list_lookup_imap, list_lookup_fmap.
  by destruct (l !! k).
Qed.

Lemma start_gossip_run (initial_infected : option (list Z)) (w : World) :
  start_gossip initial_infected w
  = (Return tt,
     set_sim
       (set_running true
          (set_step_count 0
             (set_nodes
                (imap (seeded (default [0] initial_infected))
                   (nodes (sim w)))
                (sim w)))) w).
Proof.
  unfold start_gossip. rewrite bind_modify_sim, bind_run.
  rewrite (seed_loop (nodes (sim w)) _ [])
    by (cbn; by rewrite seeded_nil).
  rewrite app_nil_l, set_nodes_twice. rewrite !bind_modify_sim.
  unfold modify_sim, modify. by destruct w as [[] ?].
Qed.

(** X9. [start_gossip] always returns, and the world it leaves is known in
    closed form: every node is reset (SUSCEPTIBLE, no message, empty
    history) and then exactly the nodes whose key is among the given
    identifiers (node 0 when none are given) are INFECTED, however often
    or in whatever order the identifiers are listed; the step count is 0
    and the engine runs. Everything else, the message counter and the
    store included, is as before. *)
Theorem start_gossip_seeds_listed_nodes
    (initial_infected : option (list Z)) (w : World) :
  start_gossip initial_infected w
  = (Return tt,
     set_sim
       (set_running true
          (set_step_count 0
             (set_nodes
                (imap (seeded (default [0] initial_infected))
                   (nodes (sim w)))
                (sim w)))) w).
Proof. apply start_gossip_run. Qed.

Lemma reset_node_idemp (n : GossipNode) :
  reset_node (reset_node n) = reset_node n.
Proof. by destruct n. Qed.

Lemma reset_node_seeded (ids : list Z) (k : nat) (n : GossipNode) :
  reset_node (seeded ids k n) = reset_node n.
Proof. unfold seeded. case_bool_decide; by destruct n. Qed.

Lemma seeded_seeded (a b : list Z) (l : list GossipNode) :
  imap (seeded b) (imap (seeded a) l) = imap (seeded b) l.
Proof.
  apply list_eq. intros k. rewrite !list_lookup_imap.
  destruct (l !! k) as [n|]; [|done]. cbn. f_equal.
  unfold seeded at 1 3. by rewrite reset_node_seeded.
Qed.

Lemma reset_simulation_run (w : World) :
  reset_simulation w
  = (Return tt,
     set_sim
       (set_nodes (reset_node <$> nodes (sim w))
          (set_message_counter 0
             (set_step_count 0 (set_running false (sim w))))) w).
Proof.
  unfold reset_simulation. rewrite !bind_modify_sim.
  unfold modify_sim, modify. by destruct w as [[] ?].
Qed.

(** X10. Starting anew forgets the previous start: two [start_gossip]
    calls in a row leave the world the second one alone leaves, a
    [start_gossip] followed by [reset_simulation] leaves what the reset
    alone leaves, and resetting twice is resetting once. *)
Theorem restart_forgets_previous_start
    (a b : option (list Z)) (w : World) :
  (start_gossip a ;; start_gossip b) w = start_gossip b w ∧
  (start_gossip a ;; reset_simulation) w = reset_simulation w ∧
  (reset_simulation ;; reset_simulation) w = reset_simulation w.
Proof.
  split; [|split].
  - rewrite bind_run, !start_gossip_run.
    cbn [sim set_sim nodes set_running set_step_count set_nodes].
    rewrite seeded_seeded. by destruct w as [[] ?].
  - rewrite bind_run, start_gossip_run, !reset_simulation_run.
    cbn [sim set_sim nodes set_running set_step_count set_nodes
         set_message_counter].
    assert (reset_node <$> imap (seeded (default [0] a)) (nodes (sim w))
            = reset_node <$> nodes (sim w)) as ->.
    { apply list_eq. intros k.
      rewrite !list_lookup_fmap, list_lookup_imap.
      destruct (nodes (sim w) !! k); [|done]. cbn.
      by rewrite reset_node_seeded. }
    by destruct w as [[] ?].
  - rewrite bind_run, !reset_simulation_run.
    cbn [sim set_sim nodes set_running set_step_count set_nodes
         set_message_counter].
    rewrite <-list_fmap_compose.
    rewrite (list_fmap_ext (reset_node ∘ reset_node) reset_node)
      by (intros; apply reset_node_idemp).
    by destruct w as [[] ?].
Qed.

(** ** What a round and a step leave alone

    A relation on worlds that accepts a move of the generator or of the
    clock, any change of the store, of the node collection and of the
    message counter is kept by the rounds and the recoveries of a step. *)
Section Engine.
Context (R : relation World) `{!PreOrder R}.

Hypothesis R_cursor : ∀ w c, R w (set_cursor c w).
Hypothesis R_ticks : ∀ w t, R w (set_ticks t w).
Hypothesis R_heap : ∀ w h, R w (set_heap h w).
Hypothesis R_nodes : ∀ w l, R w (set_sim (set_nodes l (sim w)) w).
Hypothesis R_counter :
  ∀ w c, R w (set_sim (set_message_counter c (sim w)) w).

Lemma get_node_engine i w : R w (get_node i w).2.
Proof. unfold get_node. by case_match. Qed.

Lemma deref_engine r w : R w (deref r w).2.
Proof. unfold deref. by case_match. Qed.

Lemma modify_node_engine i f w : R w (modify_node i f w).2.
Proof. apply R_nodes. Qed.

Lemma random_random_engine w : R w (random_random w).2.
Proof. apply R_cursor. Qed.

Lemma sample_loop_engine {A} k : ∀ (pool : list A) w,
  R w (sample_loop k pool w).2.
Proof.
  induction k as [|k IH]; intros pool w; [by destruct pool|].
  destruct pool as [|d pool']; [done|]. cbn [sample_loop].
  apply (bind_rel R); [apply R_cursor|]. intros j w1 _.
  apply (bind_rel R); [apply IH|]. by intros.
Qed.

Lemma random_sample_engine {A} (l : list A) k w :
  R w (random_sample l k w).2.
Proof. unfold random_sample. case_match; [done|apply sample_loop_engine]. Qed.

Lemma receive_message_engine i message w :
  R w (receive_message i message w).2.
Proof.
  unfold receive_message.
  apply (bind_rel R); [apply get_node_engine|]. intros n w1 _.
  apply (bind_rel R); [apply deref_engine|]. intros m w2 _.
  case_match; [done|].
  apply (bind_rel R); [apply modify_node_engine|]. intros _ w3 _.
  apply (bind_rel R); [apply modify_node_engine|]. intros _ w4 _.
  apply (bind_rel R); [apply get_node_engine|]. intros n' w5 _.
  case_decide; [|done].
  apply (bind_rel R); [apply random_random_engine|]. intros u w6 _.
  case_match; [apply modify_node_engine|done].
Qed.

Lemma recover_engine i w : R w (recover i w).2.
Proof.
  unfold recover.
  apply (bind_rel R); [apply get_node_engine|]. intros n w1 _.
  case_decide; [|done].
  apply (bind_rel R); [apply random_random_engine|]. intros u w2 _.
  case_match; [apply modify_node_engine|done].
Qed.

Lemma attempt_engine message t w : R w (attempt message t w).2.
Proof.
  unfold attempt. rewrite bind_get_sim. cbv beta. case_match; [|done].
  apply (bind_rel R); [apply random_random_engine|]. intros u w1 _.
  case_match; [|done].
  apply (bind_rel R); [apply deref_engine|]. intros m w2 _.
  case_match; [|done].
  apply (bind_rel R); [apply R_heap|]. intros _ w3 _.
  apply receive_message_engine.
Qed.

Lemma gossip_step_engine i w : R w (_gossip_step i w).2.
Proof.
  rewrite gossip_step_unfold.
  apply (bind_rel R); [apply get_node_engine|]. intros node w1 _.
  case_decide; [done|]. rewrite bind_get_sim. cbv beta.
  apply (bind_rel R); [apply random_sample_engine|]. intros targets w2 _.
  rewrite bind_get_sim. cbv beta.
  apply (bind_rel R); [apply R_ticks|]. intros now w3 _.
  apply (bind_rel R); [apply R_heap|]. intros message w4 _.
  apply (bind_rel R); [apply R_counter|]. intros _ w5 _.
  apply (for_rel R). intros t w6 _. apply attempt_engine.
Qed.

Lemma rounds_engine (keys : list nat) w :
  R w ((for_ keys _gossip_step ;;
        s ← get_sim; for_ (seq 0 (length (nodes s))) recover) w).2.
Proof.
  apply (bind_rel R).
  - apply (for_rel R). intros. apply gossip_step_engine.
  - intros _ w1 _. rewrite bind_get_sim. cbv beta.
    apply (for_rel R). intros. apply recover_engine.
Qed.
End Engine.

#[global] Instance same_settings_preorder : PreOrder same_settings.
Proof.
  unfold same_settings. split; [done|].
  intros a b c (?&?&?&?&?&?&?) (?&?&?&?&?&?&?).
  repeat split; congruence.
Qed.

#[global] Instance same_progress_preorder : PreOrder same_progress.
Proof.
  unfold same_progress. split; [done|].
  intros a b c [??] [??]. split; congruence.
Qed.

Lemma step_unfold (w : World) :
  running (sim w) = true →
  step w =
  let w1 := set_sim (set_step_count (step_count (sim w) + 1) (sim w)) w in
  match nodes_in_state INFECTED (nodes (sim w)) with
  | [] => (Return tt, halted w)
  | keys =>
      (for_ keys _gossip_step ;;
       s ← get_sim; for_ (seq 0 (length (nodes s))) recover) w1
  end.
Proof.
  intros Hr. unfold step. rewrite bind_get_sim. cbv beta. rewrite Hr.
  cbn [negb]. cbv iota. rewrite bind_modify_sim, bind_get_sim. cbv beta zeta.
  change (nodes (sim (modify_sim _ w).2)) with (nodes (sim w)).
  change (nodes (sim (set_sim (set_step_count _ (sim w)) w)))
    with (nodes (sim w)).
  by destruct (nodes_in_state INFECTED (nodes (sim w))).
Qed.

(** X11. A call of [step] on a running engine adds exactly one to the step
    count, whatever happens next. The engine is still running afterwards
    exactly when some node was INFECTED when the step began. The step
    changes neither the number of nodes, nor the field size, nor any of
    the tunables (fanout, transmission probability, hop limit, speed),
    and the node collection keeps its size. *)
Theorem step_counts_one_and_keeps_settings (w : World) :
  running (sim w) = true →
  let w' := after step w in
  step_count (sim w') = step_count (sim w) + 1 ∧
  running (sim w')
  = bool_decide (nodes_in_state INFECTED (nodes (sim w)) ≠ []) ∧
  same_settings w w' ∧
  length (nodes (sim w')) = length (nodes (sim w)).
Proof.
  intros Hr w'. subst w'. unfold after.
  assert (length (nodes (sim (step w).2)) = length (nodes (sim w))) as Hlen.
  { symmetry. apply (node_rel_length same_id).
    apply (step_rel same_id); done. }
  rewrite (step_unfold w Hr). cbv zeta.
  rewrite (step_unfold w Hr) in Hlen. cbv zeta in Hlen.
  destruct (nodes_in_state INFECTED (nodes (sim w))) as [|i keys] eqn:Hk.
  { by rewrite bool_decide_eq_false_2 by (by intros []). }
  rewrite bool_decide_eq_true_2 by done.
  set (w1 := set_sim _ w) in *.
  pose proof (rounds_engine same_settings) as Hs.
  pose proof (rounds_engine same_progress) as Hp.
  specialize (Hs ltac:(done) ltac:(done) ltac:(done) ltac:(done)
                 ltac:(done) (i :: keys) w1).
  specialize (Hp ltac:(done) ltac:(done) ltac:(done) ltac:(done)
                 ltac:(done) (i :: keys) w1).
  destruct Hp as [Hp1 Hp2]. rewrite Hp1, Hp2. done.
Qed.

Lemma step_counts_one_and_keeps_settings_witness :
  running (sim started_world) = true ∧
  step_count (sim (after step started_world)) = 1 ∧
  running (sim (after step started_world)) = true.
Proof.
  assert (running (sim started_world) = true) as Hr by reflexivity.
  split; [exact Hr|].
  destruct (step_counts_one_and_keeps_settings started_world Hr)
    as (H1 & H2 & _).
  split; [exact H1|exact H2].
Defined.

(** ** A negative fanout *)

Lemma elem_of_nodes_in_state (st : NodeState) (l : list GossipNode) (k : nat) :
  k ∈ nodes_in_state st l ↔ ∃ n, l !! k = Some n ∧ state n = st.
Proof.
  unfold nodes_in_state. rewrite list_elem_of_filter, elem_of_seq. split.
  - intros [H _]. destruct (l !! k) as [n|]; [|done].
    exists n. split; [done|]. by injection H.
  - intros (n & Hn & Hst). rewrite Hn. split; [by rewrite <-Hst|].
    apply lookup_lt_Some in Hn. lia.
Qed.

Lemma gossip_step_no_neighbors (i : nat) (n : GossipNode) (w : World) :
  nodes (sim w) !! i = Some n → neighbors n = ∅ →
  _gossip_step i w = (Return tt, w).
Proof.
  intros Hn He. rewrite gossip_step_unfold, bind_run, (get_node_run _ _ _ Hn).
  by rewrite decide_True.
Qed.

Lemma gossip_step_negative_fanout (i : nat) (n : GossipNode) (w : World) :
  nodes (sim w) !! i = Some n → neighbors n ≠ ∅ →
  gossip_fanout (sim w) < 0 →
  _gossip_step i w = (Raise ValueError, w).
Proof.
  intros Hn He Hf.
  rewrite gossip_step_unfold, bind_run, (get_node_run _ _ _ Hn).
  rewrite decide_False by done. rewrite bind_get_sim. cbv beta.
  rewrite bind_run. unfold random_sample.
  assert ((Z.min (gossip_fanout (sim w))
             (Z.of_nat (length (elements (neighbors n)))) <? 0) = true) as ->
    by (apply Z.ltb_lt; lia).
  reflexivity.
Qed.

Lemma rounds_negative_fanout (keys : list nat) (w : World) :
  gossip_fanout (sim w) < 0 →
  (∀ k, k ∈ keys → is_Some (nodes (sim w) !! k)) →
  (∃ k n, k ∈ keys ∧ nodes (sim w) !! k = Some n ∧ neighbors n ≠ ∅) →
  for_ keys _gossip_step w = (Raise ValueError, w).
Proof.
  intros Hf. induction keys as [|k keys IH];
    intros Hall (k' & n' & Hk' & Hn' & He').
  { by apply elem_of_nil in Hk'. }
  rewrite for_cons, bind_run.
  destruct (Hall k) as [n Hn]; [by left|].
  destruct (decide (neighbors n = ∅)) as [He|He].
  - rewrite (gossip_step_no_neighbors k n w Hn He). apply IH.
    + intros k0 Hk0. apply Hall. by right.
    + exists k', n'. split; [|done].
      apply elem_of_cons in Hk' as [->|Hk']; [|done]. congruence.
  - by rewrite (gossip_step_negative_fanout k n w Hn He Hf).
Qed.

(** X12. No operation checks the fanout, and a negative one makes a gossip
    round fail: for a node with at least one neighbour the round raises
    [ValueError] (from [random.sample]) before anything is drawn, created or
    delivered. A [step] of a running engine in which such a node is INFECTED
    raises the same error: the step count has been incremented, and nothing
    else has changed; the engine is still running. *)
Theorem negative_fanout_raises_value_error
    (i : nat) (node : GossipNode) (w : World) :
  nodes (sim w) !! i = Some node →
  neighbors node ≠ ∅ →
  gossip_fanout (sim w) < 0 →
  _gossip_step i w = (Raise ValueError, w) ∧
  (running (sim w) = true → state node = INFECTED →
   step w
   = (Raise ValueError,
      set_sim (set_step_count (step_count (sim w) + 1) (sim w)) w)).
Proof.
  intros Hn He Hf. split; [by apply (gossip_step_negative_fanout i node)|].
  intros Hr Hst. rewrite (step_unfold w Hr). cbv zeta.
  assert (i ∈ nodes_in_state INFECTED (nodes (sim w))) as Hi
    by (apply elem_of_nodes_in_state; eauto).
  destruct (nodes_in_state INFECTED (nodes (sim w))) as [|k keys] eqn:Hk.
  { by apply elem_of_nil in Hi. }
  rewrite <-Hk in *. clear Hk. rewrite bind_run.
  rewrite rounds_negative_fanout; [done|done| |].
  - intros k0 (n0 & Hn0 & _)%elem_of_nodes_in_state. by exists n0.
  - exists i, node. done.
Qed.

Lemma negative_fanout_raises_value_error_witness :
  nodes (sim negative_fanout_world) !! 0%nat
  = Some (default (GossipNode_init 0 0 0)
            (nodes (sim negative_fanout_world) !! 0%nat)) ∧
  gossip_fanout (sim negative_fanout_world) < 0 ∧
  _gossip_step 0 negative_fanout_world
  = (Raise ValueError, negative_fanout_world) ∧
  (step negative_fanout_world).1 = Raise ValueError.
Proof.
  assert (nodes (sim negative_fanout_world) !! 0%nat
          = Some (default (GossipNode_init 0 0 0)
                    (nodes (sim negative_fanout_world) !! 0%nat))) as H1
    by (vm_compute; reflexivity).
  assert (neighbors (default (GossipNode_init 0 0 0)
                       (nodes (sim negative_fanout_world) !! 0%nat)) ≠ ∅)
    as H2 by (vm_compute; discriminate).
  assert (gossip_fanout (sim negative_fanout_world) < 0) as H3
    by (vm_compute; reflexivity).
  destruct (negative_fanout_raises_value_error 0 _ negative_fanout_world
              H1 H2 H3) as [E1 E2].
  split; [exact H1|]. split; [exact H3|]. split; [exact E1|].
  rewrite E2; [reflexivity|reflexivity|vm_compute; reflexivity].
Defined.

(** ** A step of a well-formed engine returns *)







Lemma infected_keys_lt (w : World) (k : nat) :
  k ∈ nodes_in_state INFECTED (nodes (sim w)) →
  (k < length (nodes (sim w)))%nat.
Proof.
  intros (n & Hn & _)%elem_of_nodes_in_state. by apply lookup_lt_Some in Hn.
Qed.





(** ** Histories and message dictionaries *)

#[global] Instance keeps_preorder (I : GossipNode → Prop) :
  PreOrder (keeps I).
Proof. unfold keeps. split; [by intros ?|]. intros a b c ??; auto. Qed.

Lemma run_history_matches (ops : list op) (w : World) :
  node_rel (keeps history_matches) w (run ops w).
Proof.
  apply (run_sharp (keeps history_matches));
    unfold keeps, history_matches; try done.
  intros n k r Hk Hn. cbn. rewrite length_app, map_size_insert_None by done.
  simpl. lia.
Qed.

(** X14. On an engine built by the constructor, after any history of
    calls, the message history of every node has exactly as many entries
    as its message dictionary has identifiers: a message enters both or
    neither, and both are emptied together. *)
Theorem history_as_long_as_messages
    (n wd ht : Z) (w0 : World) (ops : list op) :
  let w := run ops (after (GossipSimulator_init n wd ht) w0) in
  ∀ i nd, nodes (sim w) !! i = Some nd →
    length (message_history nd) = size (messages nd).
Proof.
  intros w i nd Hnd. subst w. unfold after in Hnd.
  destruct (init_nodes n wd ht w0) as (w1 & E & _ & _ & _ & Hpr).
  rewrite E in Hnd. simpl in Hnd.
  destruct (Forall2_lookup_r _ _ _ _ _ (run_history_matches ops w1) Hnd)
    as (nd0 & Hnd0 & Hk).
  apply Hk. destruct (Hpr i nd0 Hnd0) as (-> & _). reflexivity.
Qed.

Lemma history_as_long_as_messages_witness :
  nodes (sim stepped_world) !! 1%nat
  = Some (default (GossipNode_init 0 0 0)
            (nodes (sim stepped_world) !! 1%nat)) ∧
  length (message_history
            (default (GossipNode_init 0 0 0)
               (nodes (sim stepped_world) !! 1%nat)))
  = size (messages
            (default (GossipNode_init 0 0 0)
               (nodes (sim stepped_world) !! 1%nat))).
Proof.
  unfold stepped_world, pair_world.
  set (w := run [Start None; Step] _).
  assert (nodes (sim w) !! 1%nat
          = Some (default (GossipNode_init 0 0 0) (nodes (sim w) !! 1%nat)))
    as H by (vm_compute; reflexivity).
  split; [exact H|].
  exact (history_as_long_as_messages 2 800 600 (fresh_world (λ _, 0%N))
           [Start None; Step] 1%nat _ H).
Defined.

(** ** Statistics over a history without start or reset *)

#[global] Instance advances_preorder : PreOrder advances.
Proof.
  unfold advances. split.
  - intros n. split; reflexivity.
  - intros a b c [??] [??]. split; etrans; eauto.
Qed.

Lemma quiet_run_advances (qs : list quiet_op) (w : World) :
  node_rel advances w (run (op_of <$> qs) w).
Proof.
  apply (quiet_run_sharp advances); unfold advances.
  - intros n k r Hk. split; [reflexivity|]. cbn.
    by apply insert_subseteq.
  - intros n u Hst _ _. split; [|done]. cbn. rewrite Hst. cbv. lia.
  - intros n u Hst _ _. split; [|done]. cbn. rewrite Hst. cbv. lia.
  - intros n q. split; reflexivity.
  - intros n q. split; reflexivity.
Qed.

Lemma advances_counts (l l' : list GossipNode) :
  Forall2 advances l l' →
  (count_state SUSCEPTIBLE l' ≤ count_state SUSCEPTIBLE l)%nat ∧
  (count_state REMOVED l ≤ count_state REMOVED l')%nat ∧
  (sum_list ((λ n, size (messages n)) <$> l)
   ≤ sum_list ((λ n, size (messages n)) <$> l'))%nat.
Proof.
  unfold count_state. induction 1 as [|n n' l l' [Hst Hm] _ (IH1 & IH2 & IH3)].
  { done. }
  rewrite !filter_cons, !fmap_cons. cbn [sum_list sum_list_with].
  apply map_subseteq_size in Hm. unfold state_le in Hst.
  repeat case_decide; simpl; repeat split; try lia;
    destruct (state n), (state n'); simpl in *; try done; lia.
Qed.

(** X15. Over any history of calls other than [start_gossip] and
    [reset_simulation], the statistics move one way only: the number of
    susceptible nodes never grows, the number of removed nodes never
    shrinks, and the total number of held messages never shrinks. *)
Theorem statistics_move_one_way (qs : list quiet_op) (w : World) :
  let before := statistics (sim w) in
  let later := statistics (sim (run (op_of <$> qs) w)) in
  (stat_susceptible later ≤ stat_susceptible before)%nat ∧
  (stat_removed before ≤ stat_removed later)%nat ∧
  (stat_total_messages before ≤ stat_total_messages later)%nat.
Proof.
  cbv zeta. unfold statistics. simpl.
  apply advances_counts, quiet_run_advances.
Qed.

(** ** Setting one parameter *)



#[global] Instance but_probabilities_preorder : PreOrder but_probabilities.
Proof.
  unfold but_probabilities. split; [done|]. intros a b c. congruence.
Qed.

#[global] Instance same_heap_preorder : PreOrder same_heap.
Proof. unfold same_heap. split; [done|]. intros a b c. congruence. Qed.

Lemma setattr_same_heap key value w : same_heap w (setattr key value w).2.
Proof. unfold setattr. repeat case_match; done. Qed.

Lemma set_all_nodes_same_heap set value w :
  same_heap w (set_all_nodes set value w).2.
Proof. unfold set_all_nodes. by case_match. Qed.

Lemma update_parameters_same_heap kwargs w :
  same_heap w (update_parameters kwargs w).2.
Proof.
  unfold update_parameters. case_bool_decide; [done|].
  apply (bind_rel same_heap).
  { apply (for_rel same_heap). intros kv w1 _.
    apply (bind_rel same_heap).
    - unfold hasattr. by case_match.
    - intros [] w2 _; [apply setattr_same_heap|done]. }
  intros _ w1 _. apply (bind_rel same_heap).
  { case_match; [apply set_all_nodes_same_heap|done]. }
  intros _ w2 _. case_match; [apply set_all_nodes_same_heap|done].
Qed.


(** ** Certain recovery *)

#[global] Instance recovering_preorder : PreOrder recovering.
Proof.
  unfold recovering. split.
  - intros n. split; reflexivity.
  - intros a b c [H1 E1] [H2 E2]. split; [by etrans|congruence].
Qed.

#[global] Instance same_recovery_preorder : PreOrder same_recovery.
Proof.
  unfold same_recovery. split; [done|]. intros a b c. congruence.
Qed.








(** ** Blocked deliveries *)

#[global] Instance undelivered_preorder : PreOrder undelivered.
Proof.
  unfold undelivered. split; [done|].
  intros a b c (?&?&?) (?&?&?). repeat split; congruence.
Qed.

#[global] Instance stays_undelivered_preorder : PreOrder stays_undelivered.
Proof.
  unfold stays_undelivered. split; [by intros ? _|].
  intros a b c Hab Hbc Ha. specialize (Hab Ha).
  etrans; [exact Hab|]. apply Hbc.
  destruct Hab as (_ & Ht & Hm). unfold blocked in *. by rewrite Ht, Hm.
Qed.

#[global] Instance undisturbed_preorder : PreOrder undisturbed.
Proof.
  unfold undisturbed. split.
  - intros n. repeat split; reflexivity.
  - intros a b c (?&?&?) (?&?&?). repeat split; [congruence..|by etrans].
Qed.

Lemma set_cursor_same (w : World) : set_cursor (cursor w) w = w.
Proof. by destruct w. Qed.

Lemma attempt_blocked (message : ref) (t : nat) (w : World) (m : Message) :
  heap w !! message = Some m →
  (transmission_probability (sim w) <= 0)%Q
  ∨ max_hop_count (sim w) ≤ hop_count m →
  ∃ c, attempt message t w = (Return tt, set_cursor c w).
Proof.
  intros Hm Hb. unfold attempt. rewrite bind_get_sim. cbv beta.
  destruct (in_nodes _ _);
    [|exists (cursor w); by rewrite set_cursor_same].
  rewrite bind_run. destruct (random_random_unit w) as (u & Hu & ->).
  exists (S (cursor w)).
  change (sim (set_cursor (S (cursor w)) w)) with (sim w).
  destruct (Qltb u (transmission_probability (sim w))) eqn:Hlt; [|done].
  destruct Hb as [Hb|Hb].
  { by rewrite (unit_draw_impossible u _ Hu Hb) in Hlt. }
  rewrite bind_run. unfold deref.
  change (heap (set_cursor (S (cursor w)) w)) with (heap w). rewrite Hm.
  by rewrite (proj2 (Z.ltb_ge _ _) Hb).
Qed.

Lemma attempts_blocked (message : ref) (m : Message) (targets : list nat) :
  ∀ w, heap w !! message = Some m →
  (transmission_probability (sim w) <= 0)%Q
  ∨ max_hop_count (sim w) ≤ hop_count m →
  ∃ c, for_ targets (attempt message) w = (Return tt, set_cursor c w).
Proof.
  induction targets as [|t targets IH]; intros w Hm Hb.
  { exists (cursor w). by rewrite set_cursor_same. }
  destruct (attempt_blocked message t w m Hm Hb) as [c E].
  destruct (IH (set_cursor c w) Hm Hb) as [c' E'].
  exists c'. by rewrite for_cons, bind_run, E, E'.
Qed.

Lemma gossip_step_blocked (i : nat) (w : World) :
  stays_undelivered w (_gossip_step i w).2.
Proof.
  intros Hb. rewrite gossip_step_unfold, bind_run. unfold get_node.
  destruct (nodes (sim w) !! i) as [node|]; [|done].
  case_decide; [done|]. rewrite bind_get_sim. cbv beta. rewrite bind_run.
  set (k := Z.min _ _).
  pose proof (keeps_sim_random_sample (elements (neighbors node)) k w) as Hs.
  destruct (random_sample _ k w) as [[targets|e|] w1]; simpl in Hs;
    [|unfold undelivered; simpl; by rewrite Hs..].
  rewrite bind_get_sim. cbv beta.
  rewrite bind_run. cbn [time_time]. rewrite bind_run. cbn [new_message].
  rewrite bind_modify_sim.
  match goal with |- context [for_ targets (attempt ?r) ?w2] =>
    set (message := r); set (w2' := w2) end.
  destruct (attempts_blocked message
              (mkMessage (message_id (message_counter (sim w1)) (node_id node))
                 ("Gossip from node " +:+ pretty (node_id node))
                 (clock w1 (ticks w1)) (node_id node) 0) targets w2')
    as [c ->].
  { subst message w2'. cbn. rewrite lookup_app_r by lia.
    by rewrite Nat.sub_diag. }
  { subst w2'. cbn. rewrite Hs. exact Hb. }
  subst w2'. unfold undelivered. cbn. by rewrite Hs.
Qed.

Lemma recover_undisturbed i w : node_rel undisturbed w (recover i w).2.
Proof.
  apply (recover_rel undisturbed). intros n Hst.
  split; [done|]. split; [done|]. right. by rewrite Hst.
Qed.

Lemma step_blocked (w : World) :
  blocked (sim w) → node_rel undisturbed w (after step w).
Proof.
  intros Hb. unfold after.
  destruct (running (sim w)) eqn:Hr;
    [|by rewrite step_not_running by done].
  rewrite (step_unfold w Hr). cbv zeta.
  destruct (nodes_in_state INFECTED (nodes (sim w))) as [|i keys] eqn:Hk.
  { by apply (node_rel_same_nodes undisturbed). }
  rewrite <-Hk. clear Hk. set (w1 := set_sim _ w).
  trans w1; [by apply (node_rel_same_nodes undisturbed)|].
  apply (bind_rel (node_rel undisturbed)).
  - apply (node_rel_same_nodes undisturbed).
    pose proof (for_rel stays_undelivered
      (nodes_in_state INFECTED (nodes (sim w))) _gossip_step w1) as H.
    apply H; [|exact Hb]. intros k w' _. apply gossip_step_blocked.
  - intros _ w2 _. rewrite bind_get_sim. cbv beta.
    apply (for_rel (node_rel undisturbed)). intros k w' _.
    apply recover_undisturbed.
Qed.

(** X18. With a transmission probability of 0 or less, or a hop limit of 0
    or less, a [step] delivers nothing and infects nobody, whatever its
    outcome: the messages and the history of every node are as before, and
    the state of a node is unchanged or has gone from INFECTED to
    REMOVED. *)
Theorem blocked_step_delivers_nothing (w : World) :
  blocked (sim w) →
  node_rel undisturbed w (after step w).
Proof. apply step_blocked. Qed.

Lemma blocked_step_delivers_nothing_witness :
  blocked (sim blocked_world) ∧
  node_rel undisturbed blocked_world (after step blocked_world).
Proof.
  assert (blocked (sim blocked_world)) as H
    by (left; vm_compute; discriminate).
  split; [exact H|]. exact (blocked_step_delivers_nothing blocked_world H).
Defined.

(** ** Engines without links *)

#[global] Instance stays_alone_preorder : PreOrder stays_alone.
Proof.
  unfold stays_alone. split; [done|].
  intros a b c [??] [??]. split; [congruence|auto].
Qed.

Lemma no_links_stays_alone (w w' : World) :
  node_rel stays_alone w w' →
  no_links (nodes (sim w)) → no_links (nodes (sim w')).
Proof.
  intros H Hn. unfold no_links in *. rewrite Forall_lookup in *.
  intros j n' Hn'.
  destruct (Forall2_lookup_r _ _ _ _ _ H Hn') as (n & Hn0 & [-> _]).
  by apply (Hn j).
Qed.

Lemma rounds_no_links (keys : list nat) (w : World) :
  no_links (nodes (sim w)) →
  (∀ k, k ∈ keys → (k < length (nodes (sim w)))%nat) →
  for_ keys _gossip_step w = (Return tt, w).
Proof.
  intros Hn Hk. apply for_skip. intros k [n Hk']%Hk%lookup_lt_is_Some.
  apply (gossip_step_no_neighbors k n); [done|].
  unfold no_links in Hn. rewrite Forall_lookup in Hn. by apply (Hn k).
Qed.

Lemma recover_stays_alone i w : node_rel stays_alone w (recover i w).2.
Proof. by apply (recover_rel stays_alone). Qed.

Lemma exec_no_links (o : op) (w : World) :
  no_links (nodes (sim w)) →
  same_heap w (exec o w).2 ∧ node_rel stays_alone w (exec o w).2.
Proof.
  intros Hn. destruct o as [ids| |kwargs| |]; cbn [exec].
  - split; [apply start_gossip_same_store|].
    by apply (start_gossip_rel stays_alone).
  - destruct (running (sim w)) eqn:Hr;
      [|by rewrite step_not_running by done].
    rewrite (step_unfold w Hr). cbv zeta.
    destruct (nodes_in_state INFECTED (nodes (sim w))) as [|i keys] eqn:Hk.
    { split; [done|]. by apply (node_rel_same_nodes stays_alone). }
    rewrite <-Hk. clear Hk. set (w1 := set_sim _ w).
    rewrite bind_run, rounds_no_links; [|done|apply infected_keys_lt].
    rewrite bind_get_sim. cbv beta. split.
    + apply (recover_loop_same_store _ w1).
    + trans w1; [by apply (node_rel_same_nodes stays_alone)|].
      apply (for_rel (node_rel stays_alone)). intros k w' _.
      apply recover_stays_alone.
  - split; [apply update_parameters_same_heap|].
    by apply (update_parameters_rel stays_alone).
  - split; [done|]. by apply (node_rel_same_sim stays_alone).
  - rewrite reset_simulation_run. split; [done|].
    pose proof (reset_simulation_rel stays_alone) as H.
    specialize (H ltac:(done) w). by rewrite reset_simulation_run in H.
Qed.

Lemma run_no_links (ops : list op) : ∀ w,
  no_links (nodes (sim w)) →
  same_heap w (run ops w) ∧ node_rel stays_alone w (run ops w).
Proof.
  induction ops as [|o ops IH]; intros w Hn; [by split|].
  cbn [run]. destruct (exec_no_links o w Hn) as [Hh Hs].
  destruct (exec o w) as [[[]|e|] w'] eqn:E; simpl in Hh, Hs;
    [| |by split];
    (destruct (IH w') as [Hh' Hs'];
       [by apply (no_links_stays_alone w)|];
     split; [by etrans|by etrans]).
Qed.

Lemma init_no_links (n wd ht : Z) (w0 w : World) :
  n ≤ 1 → GossipSimulator_init n wd ht w0 = (Return tt, w) →
  no_links (nodes (sim w)).
Proof.
  intros Hn E.
  destruct (init_run n wd ht w0) as (w' & E' & (Hlen & _ & Hcl) & _).
  rewrite E in E'. injection E' as <-.
  pose proof (init_irreflexive n wd ht w0 w E) as Hirr.
  apply Forall_lookup. intros i nd Hnd.
  apply set_eq. intros j. split; [|set_solver]. intros Hj.
  assert (adj (nodes (sim w)) i j) as Hadj by (by exists nd).
  pose proof (Hcl i j Hadj) as Hlt. apply lookup_lt_Some in Hnd.
  assert (i = j) as -> by lia. by destruct (Hirr j).
Qed.

(** X19. An engine built for at most one node never gossips: its node, if
    there is one, has no neighbour, so over any history of calls no
    message is ever created in the store and the statistics never report a
    held message. *)
Theorem lone_node_never_gossips (n wd ht : Z) (w0 : World) (ops : list op) :
  n ≤ 1 →
  let w := run ops (after (GossipSimulator_init n wd ht) w0) in
  heap w = heap w0 ∧
  no_links (nodes (sim w)) ∧
  stat_total_messages (statistics (sim w)) = 0%nat.
Proof.
  intros Hn w. subst w. unfold after.
  destruct (init_nodes n wd ht w0) as (w1 & E & Hh & _ & _ & Hpr).
  rewrite E. simpl.
  pose proof (init_no_links n wd ht w0 w1 Hn E) as Hno.
  destruct (run_no_links ops w1 Hno) as [Hh' Hs].
  split; [by rewrite Hh'|].
  split; [by apply (no_links_stays_alone w1)|].
  unfold statistics. simpl.
  assert (Forall (λ nd, messages nd = ∅) (nodes (sim (run ops w1)))) as Hm.
  { apply Forall_lookup. intros j nd' Hnd'.
    destruct (Forall2_lookup_r _ _ _ _ _ Hs Hnd') as (nd & Hnd & [_ He]).
    apply He. destruct (Hpr j nd Hnd) as (-> & _). reflexivity. }
  induction Hm as [|nd l Hnd _ IH]; [done|].
  rewrite fmap_cons. cbn [sum_list sum_list_with]. rewrite IH, Hnd. done.
Qed.

Lemma lone_node_never_gossips_witness :
  1 ≤ 1 ∧
  heap (run [Start None; Step; Step]
          (after (GossipSimulator_init 1 800 600) (fresh_world (λ _, 0%N))))
  = [].
Proof.
  assert (1 ≤ 1) as H by lia. split; [exact H|].
  destruct (lone_node_never_gossips 1 800 600 (fresh_world (λ _, 0%N))
              [Start None; Step; Step] H) as (Hh & _).
  exact Hh.
Defined.

(** ** The traversal misses nothing *)

Lemma dfs_explores (fuel : nat) : ∀ node visited w visited' w',
  dfs fuel node visited w = (Return visited', w') →
  visited ⊆ visited' ∧ node ∈ visited'
  ∧ explored (nodes (sim w)) visited visited'.
Proof.
  induction fuel as [|fuel IH]; intros node visited w visited' w';
    rewrite dfs_unfold; case_decide as Hin; try done.
  - intros [= <- <-]. split; [done|]. split; [done|]. by intros v n ??.
  - intros [= <- <-]. split; [done|]. split; [done|]. by intros v n ??.
  - rewrite bind_run. unfold get_node.
    destruct (nodes (sim w) !! node) as [n|] eqn:Hn; [|done].
    assert (∀ nbs cur,
      foldr (λ neighbor k visited,
               visited' ← dfs fuel neighbor visited; k visited')
            mret nbs cur w = (Return visited', w') →
      cur ⊆ visited' ∧ (∀ nb, nb ∈ nbs → nb ∈ visited')
      ∧ explored (nodes (sim w)) cur visited') as Hloop.
    { induction nbs as [|nb nbs IHn]; intros cur.
      - intros [= <- <-]. split; [done|].
        split; [by intros ? ?%elem_of_nil|]. by intros v n0 ??.
      - cbn [foldr]. rewrite bind_run.
        pose proof (dfs_world fuel nb cur w) as Hw.
        destruct (dfs fuel nb cur w) as [[v1|e|] w1] eqn:E; [|done..].
        simpl in Hw. subst w1.
        destruct (IH nb cur w v1 w E) as (Hsub1 & Hnb & Hex1).
        intros (Hsub2 & Hnbs & Hex2)%IHn.
        split; [set_solver|]. split.
        + intros nb' [->|Hnb']%elem_of_cons; [set_solver|by apply Hnbs].
        + intros v n0 Hv Hnot Hn0.
          destruct (decide (v ∈ v1)) as [Hv1|Hv1].
          * etrans; [by eapply (Hex1 v n0)|done].
          * by eapply (Hex2 v n0). }
    intros (Hsub & Hnbs & Hex)%Hloop.
    split; [set_solver|]. split; [set_solver|].
    intros v n0 Hv Hnot Hn0.
    destruct (decide (v = node)) as [->|Hne].
    + rewrite Hn in Hn0. injection Hn0 as <-.
      intros nb Hnb. apply Hnbs. by apply elem_of_elements.
    + apply (Hex v n0); [done|set_solver|done].
Qed.

Lemma explored_reachable (l : list GossipNode) (visited : gset nat)
    (root v : nat) :
  explored l ∅ visited → root ∈ visited → rtc (adj l) root v →
  v ∈ visited.
Proof.
  intros Hex Hroot Hreach. induction Hreach as [|a b c Hab _ IH]; [done|].
  apply IH. destruct Hab as (n & Hn & Hb).
  by apply (Hex a n Hroot (not_elem_of_empty a) Hn).
Qed.

Lemma ensure_connectivity_connected (w : World) :
  length (nodes (sim w)) = Z.to_nat (num_nodes (sim w)) →
  closed_graph (nodes (sim w)) →
  connected_graph (nodes (sim w)) →
  _ensure_connectivity w = (Return tt, w).
Proof.
  intros Hlen Hcl Hconn. unfold _ensure_connectivity.
  rewrite bind_get_sim. cbv beta. rewrite bind_run.
  destruct (nodes (sim w)) as [|n0 l0] eqn:El.
  { rewrite ret_run. unfold range. by rewrite <-Hlen. }
  rewrite <-El in *.
  assert (0 < length (nodes (sim w)))%nat as Hpos
    by (rewrite El; simpl; lia).
  destruct (dfs_run w (length (nodes (sim w))) 0 eq_refl Hcl
              (length (nodes (sim w))) 0%nat ∅)
    as (visited & E & _ & H0 & _).
  { assert (set_seq (C:=gset nat) 0 (length (nodes (sim w))) ∖ ∅
            = set_seq 0 (length (nodes (sim w)))) as -> by set_solver.
    by rewrite size_set_seq. }
  { set_solver. }
  { done. }
  { done. }
  rewrite E.
  destruct (dfs_explores _ _ _ _ _ _ E) as (_ & _ & Hex).
  assert (list_to_set (C:=gset nat) (range (num_nodes (sim w))) ∖ visited
          = ∅) as ->.
  { apply set_eq. intros v. split; [|set_solver].
    intros [Hv Hnot]%elem_of_difference. destruct Hnot.
    apply elem_of_list_to_set in Hv. unfold range in Hv.
    apply elem_of_seq in Hv. rewrite <-Hlen in Hv.
    apply (explored_reachable (nodes (sim w)) visited 0); [done..|].
    apply Hconn; lia. }
  by rewrite elements_empty.
Qed.

(** X22. [_ensure_connectivity] repairs only what is broken. On a graph
    whose neighbours are all nodes, the traversal from node 0 reaches every
    node that can be reached, so on a connected graph nothing is left to
    repair: the call returns without adding a link or drawing a number.
    Hence repairing twice is repairing once. *)
Theorem ensure_connectivity_idempotent (N : nat) (w : World) :
  graph_inv N (nodes (sim w)) →
  Z.to_nat (num_nodes (sim w)) = N →
  (connected_graph (nodes (sim w)) → _ensure_connectivity w = (Return tt, w))
  ∧ (_ensure_connectivity ;; _ensure_connectivity) w
    = _ensure_connectivity w.
Proof.
  intros Hinv Hnum. split.
  - intros Hconn. destruct Hinv as (Hlen & _ & Hcl).
    apply ensure_connectivity_connected; [congruence|done..].
  - destruct (ensure_connectivity_run N w Hinv Hnum)
      as (w' & E & (Hlen' & _ & Hcl') & Hnum' & Hconn').
    rewrite bind_run, E.
    apply ensure_connectivity_connected; [congruence|done..].
Qed.

Lemma ensure_connectivity_idempotent_witness :
  graph_inv 2 (nodes (sim pair_world)) ∧
  Z.to_nat (num_nodes (sim pair_world)) = 2%nat ∧
  _ensure_connectivity pair_world = (Return tt, pair_world).
Proof.
  assert (graph_inv 2 (nodes (sim pair_world))
          ∧ connected_graph (nodes (sim pair_world))) as [H1 Hc].
  { unfold pair_world, after.
    destruct (init_run 2 800 600 (fresh_world (λ _, 0%N)))
      as (w & -> & Hinv & Hconn). done. }
  assert (Z.to_nat (num_nodes (sim pair_world)) = 2%nat) as H2
    by (vm_compute; reflexivity).
  split; [exact H1|]. split; [exact H2|].
  exact (proj1 (ensure_connectivity_idempotent 2 pair_world H1 H2) Hc).
Defined.

(** ** Neighbour sets *)

(** X20. The neighbours of a node are a set: adding a neighbour a second
    time changes nothing, and [remove_neighbor] undoes [add_neighbor] for a
    neighbour that was not there before. Removing a neighbour the node does
    not have raises nothing and changes nothing, and removing one leaves
    exactly the others. *)
Theorem add_remove_neighbor_round_trip (j : nat) (n : GossipNode) :
  add_neighbor j (add_neighbor j n) = add_neighbor j n ∧
  (j ∉ neighbors n → remove_neighbor j (add_neighbor j n) = n) ∧
  (j ∉ neighbors n → remove_neighbor j n = n) ∧
  (∀ k, k ∈ neighbors (remove_neighbor j n) ↔ k ∈ neighbors n ∧ k ≠ j) ∧
  (∀ k, k ∈ neighbors (add_neighbor j n) ↔ k ∈ neighbors n ∨ k = j).
Proof.
  unfold add_neighbor, remove_neighbor, set_neighbors.
  destruct n as [? ? ? ? ? nb ? ? ? ?]. cbn. split; [|split; [|split; [|split]]].
  - f_equal. set_solver.
  - intros Hj. f_equal. set_solver.
  - intros Hj. f_equal. set_solver.
  - intros k. set_solver.
  - intros k. set_solver.
Qed.

(** ** An engine without nodes *)

Lemma init_empty (n wd ht : Z) (w0 : World) :
  n ≤ 0 →
  ∃ w, GossipSimulator_init n wd ht w0 = (Return tt, w) ∧
       sim w = mkGossipSimulator n wd ht [] false 0 0 3 (8 # 10) 10 1.
Proof.
  intros Hn.
  destruct (init_nodes n wd ht w0) as (w & E & _ & Hs & Hlen & _).
  exists w. split; [done|].
  assert (nodes (sim w) = []) as Hnil.
  { apply length_zero_iff_nil. lia. }
  rewrite <-Hs. destruct (sim w). simpl in Hnil. by subst.
Qed.

(** X21. An engine built for no node (a node count of 0 or less) has an
    empty node collection. [start_gossip] on it passes over every
    identifier, the default node 0 included, and only sets the engine
    running; the first [step] then finds nobody INFECTED and stops the
    engine, the statistics showing step 1 and zeros. *)
Theorem empty_engine_stops_at_once
    (n wd ht : Z) (w0 : World) (initial_infected : option (list Z)) :
  n ≤ 0 →
  ∃ w w1 w2,
    GossipSimulator_init n wd ht w0 = (Return tt, w) ∧
    nodes (sim w) = [] ∧
    start_gossip initial_infected w = (Return tt, w1) ∧
    sim w1 = set_running true (sim w) ∧
    step w1 = (Return tt, w2) ∧
    statistics (sim w2) = mkStatistics 1 0 0 0 0 false.
Proof.
  intros Hn. destruct (init_empty n wd ht w0 Hn) as (w & E & Hs).
  set (w1 := set_sim (set_running true (sim w)) w).
  exists w, w1, (halted w1). split; [done|].
  split; [by rewrite Hs|].
  split; [rewrite start_gossip_run; subst w1; by rewrite Hs|].
  split; [done|].
  split; [apply step_no_infected; subst w1; cbn; by rewrite ?Hs|].
  subst w1. unfold statistics, halted. cbn. by rewrite Hs.
Qed.

Lemma empty_engine_stops_at_once_witness :
  0 ≤ 0 ∧
  ∃ w w1 w2,
    GossipSimulator_init 0 800 600 (fresh_world (λ _, 0%N)) = (Return tt, w) ∧
    start_gossip None w = (Return tt, w1) ∧
    step w1 = (Return tt, w2) ∧
    statistics (sim w2) = mkStatistics 1 0 0 0 0 false.
Proof.
  assert (0 ≤ 0) as H by lia. split; [exact H|].
  destruct (empty_engine_stops_at_once 0 800 600 (fresh_world (λ _, 0%N))
              None H) as (w & w1 & w2 & E & _ & E1 & _ & E2 & Hst).
  exists w, w1, w2. auto.
Defined.

(** ** One message per infected node *)




Lemma nodes_in_state_length (st : NodeState) (l : list GossipNode) :
  length (nodes_in_state st l) = count_state st l.
Proof.
  unfold nodes_in_state, count_state.
  assert (∀ pre,
    length (filter (λ i, state <$> (pre ++ l) !! i = Some st)
              (seq (length pre) (length l)))
    = length (filter (λ n, state n = st) l)) as H.
  { induction l as [|a l IH]; intros pre; [done|].
    cbn [length seq]. rewrite !filter_cons.
    rewrite lookup_app_r, Nat.sub_diag by lia. cbn [lookup list_lookup fmap].
    specialize (IH (pre ++ [a])).
    rewrite <-app_assoc, length_app, Nat.add_1_r in IH. cbn [app] in IH.
    destruct (decide (state a = st)) as [Hst|Hst].
    - rewrite decide_True by (cbn; by rewrite Hst). cbn [length].
      by rewrite IH.
    - rewrite decide_False by (cbn; congruence). done. }
  apply (H []).
Qed.





(** ** Infection comes with a message *)

#[global] Instance caught_preorder : PreOrder caught.
Proof.
  unfold caught. split.
  - intros n. split; [done|]. by intros ??.
  - intros a b c [Hab Hab'] [Hbc Hbc']. split; [by etrans|].
    intros Ha Hc. pose proof (map_subseteq_size _ _ Hab).
    pose proof (map_subseteq_size _ _ Hbc).
    destruct (decide (state b = SUSCEPTIBLE)) as [Hb|Hb].
    + specialize (Hbc' Hb Hc). lia.
    + specialize (Hab' Ha Hb). lia.
Qed.

Lemma caught_record (n : GossipNode) (k : string) (r : ref) (st : NodeState) :
  messages n !! k = None → caught n (set_state st (record k r n)).
Proof.
  intros Hk. unfold caught. destruct n. cbn in *.
  split; [by apply insert_subseteq|].
  intros _ _. rewrite map_size_insert_None by done. lia.
Qed.

Lemma node_rel_insert (P : relation GossipNode) `{!PreOrder P}
    (i : nat) (n n' : GossipNode) (w : World) :
  nodes (sim w) !! i = Some n → P n n' →
  Forall2 P (nodes (sim w)) (<[i := n']> (nodes (sim w))).
Proof.
  intros Hn HP. rewrite <-(list_insert_id _ _ _ Hn) at 1.
  apply Forall2_insert; [|done].
  apply (reflexivity (R := node_rel P) w).
Qed.

Lemma receive_message_caught i message w :
  node_rel caught w (after (receive_message i message) w).
Proof.
  unfold after.
  destruct (nodes (sim w) !! i) as [n|] eqn:Hn.
  2:{ unfold receive_message. rewrite bind_run. unfold get_node.
      rewrite Hn. reflexivity. }
  destruct (heap w !! message) as [m|] eqn:Hm.
  2:{ unfold receive_message.
      rewrite bind_run, (get_node_run _ _ _ Hn), bind_run.
      unfold deref. rewrite Hm. reflexivity. }
  destruct (messages n !! id m) as [r|] eqn:Hk.
  { unfold receive_message.
    rewrite bind_run, (get_node_run _ _ _ Hn), bind_run.
    unfold deref. rewrite Hm, Hk. reflexivity. }
  pose proof (receive_message_new i message w n m Hn Hm Hk) as E.
  cbv zeta in E. rewrite E. clear E. unfold node_rel.
  case_decide as Hst; [case_match|]; cbn.
  - apply (node_rel_insert caught i n); [done|]. by apply caught_record.
  - apply (node_rel_insert caught i n); [done|].
    rewrite <-(set_state_record (state n) (id m) message n eq_refl).
    by apply caught_record.
  - apply (node_rel_insert caught i n); [done|].
    rewrite <-(set_state_record (state n) (id m) message n eq_refl).
    by apply caught_record.
Qed.

Lemma recover_caught i w : node_rel caught w (after (recover i) w).
Proof.
  apply (recover_rel caught). intros n Hst. split; [done|].
  intros Hs. congruence.
Qed.

Lemma gossip_step_caught i w : node_rel caught w (after (_gossip_step i) w).
Proof.
  unfold after. rewrite gossip_step_unfold.
  apply (bind_rel (node_rel caught));
    [by apply (keeps_sim_node_rel caught), keeps_sim_get_node|].
  intros node w1 _. case_decide; [reflexivity|].
  apply (bind_rel (node_rel caught)); [by apply (keeps_sim_node_rel caught)|].
  intros s w2 _.
  apply (bind_rel (node_rel caught));
    [by apply (keeps_sim_node_rel caught), keeps_sim_random_sample|].
  intros targets w3 _.
  apply (bind_rel (node_rel caught)); [by apply (keeps_sim_node_rel caught)|].
  intros s' w4 _.
  apply (bind_rel (node_rel caught)); [by apply (keeps_sim_node_rel caught)|].
  intros now w5 _.
  apply (bind_rel (node_rel caught)); [by apply (keeps_sim_node_rel caught)|].
  intros message w6 _.
  apply (bind_rel (node_rel caught));
    [by apply (node_rel_same_nodes caught)|].
  intros _ w7 _. apply (for_rel (node_rel caught)). intros t w8 _.
  unfold attempt. rewrite bind_get_sim. cbv beta.
  case_match; [|reflexivity].
  apply (bind_rel (node_rel caught)); [by apply (keeps_sim_node_rel caught)|].
  intros u w9 _. case_match; [|reflexivity].
  apply (bind_rel (node_rel caught));
    [by apply (keeps_sim_node_rel caught), keeps_sim_deref|].
  intros m w10 _. case_match; [|reflexivity].
  apply (bind_rel (node_rel caught)); [by apply (keeps_sim_node_rel caught)|].
  intros _ w11 _. apply receive_message_caught.
Qed.

Lemma step_caught w : node_rel caught w (after step w).
Proof.
  unfold after.
  destruct (running (sim w)) eqn:Hr;
    [|by rewrite step_not_running by done].
  rewrite (step_unfold w Hr). cbv zeta.
  destruct (nodes_in_state INFECTED (nodes (sim w))) as [|i keys] eqn:Hk.
  { by apply (node_rel_same_nodes caught). }
  rewrite <-Hk. clear Hk. set (w1 := set_sim _ w).
  trans w1; [by apply (node_rel_same_nodes caught)|].
  apply (bind_rel (node_rel caught)).
  - apply (for_rel (node_rel caught)). intros. apply gossip_step_caught.
  - intros _ w2 _. rewrite bind_get_sim. cbv beta.
    apply (for_rel (node_rel caught)). intros. apply recover_caught.
Qed.

Lemma quiet_run_caught (qs : list quiet_op) : ∀ w,
  node_rel caught w (run (op_of <$> qs) w).
Proof.
  assert (∀ q w, node_rel caught w (exec (op_of q) w).2) as Hq.
  { intros [|kwargs|] w; simpl.
    - apply step_caught.
    - by apply (update_parameters_rel caught).
    - by apply (node_rel_same_sim caught). }
  induction qs as [|q qs IH]; intros w; [reflexivity|].
  rewrite fmap_cons. cbn [run]. specialize (Hq q w).
  destruct (exec (op_of q) w) as [[[]|e|] w']; simpl in Hq; try reflexivity;
    (etrans; [exact Hq|apply IH]).
Qed.

(** X24. A node is infected only by a message it receives. Over any
    history of calls other than [start_gossip] and [reset_simulation], a
    node forgets no message, and a node that was SUSCEPTIBLE at the
    beginning and is not at the end holds at least one message more than
    it did. *)
Theorem infection_comes_with_a_message
    (qs : list quiet_op) (w : World) (i : nat) (n n' : GossipNode) :
  nodes (sim w) !! i = Some n →
  nodes (sim (run (op_of <$> qs) w)) !! i = Some n' →
  messages n ⊆ messages n' ∧
  (state n = SUSCEPTIBLE → state n' ≠ SUSCEPTIBLE →
   (size (messages n) < size (messages n'))%nat).
Proof.
  intros Hn Hn'.
  destruct (Forall2_lookup_l _ _ _ _ _ (quiet_run_caught qs w) Hn)
    as (n'' & Hn'' & Hc).
  rewrite Hn' in Hn''. by injection Hn'' as <-.
Qed.

Lemma infection_comes_with_a_message_witness :
  nodes (sim started_world) !! 1%nat
  = Some (default (GossipNode_init 0 0 0)
            (nodes (sim started_world) !! 1%nat)) ∧
  nodes (sim (run (op_of <$> [QStep]) started_world)) !! 1%nat
  = Some (default (GossipNode_init 0 0 0)
            (nodes (sim (run (op_of <$> [QStep]) started_world)) !! 1%nat)) ∧
  messages (default (GossipNode_init 0 0 0)
              (nodes (sim started_world) !! 1%nat))
  ⊆ messages (default (GossipNode_init 0 0 0)
                (nodes (sim (run (op_of <$> [QStep]) started_world))
                   !! 1%nat)).
Proof.
  assert (nodes (sim started_world) !! 1%nat
          = Some (default (GossipNode_init 0 0 0)
                    (nodes (sim started_world) !! 1%nat))) as H1
    by (vm_compute; reflexivity).
  assert (nodes (sim (run (op_of <$> [QStep]) started_world)) !! 1%nat
          = Some (default (GossipNode_init 0 0 0)
                    (nodes (sim (run (op_of <$> [QStep]) started_world))
                       !! 1%nat))) as H2
    by (vm_compute; reflexivity).
  split; [exact H1|]. split; [exact H2|].
  exact (proj1 (infection_comes_with_a_message [QStep] started_world 1
                  _ _ H1 H2)).
Defined.

(** ** The links of a field that needs no repair *)

Lemma close_grows (r : Q) (w w' : World) (i j : nat) :
  node_rel grows w w' →
  close r (nodes (sim w')) i j ↔ close r (nodes (sim w)) i j.
Proof.
  intros Hg. unfold close. split; intros (Hij & n1 & n2 & H1 & H2 & Hc).
  - destruct (Forall2_lookup_r _ _ _ _ _ Hg H1) as (m1 & Hm1 & Hg1).
    destruct (Forall2_lookup_r _ _ _ _ _ Hg H2) as (m2 & Hm2 & Hg2).
    split; [done|]. exists m1, m2. split; [done|]. split; [done|].
    by rewrite <-(within_radius_grows _ _ _ _ r Hg1 Hg2).
  - destruct (Forall2_lookup_l _ _ _ _ _ Hg H1) as (m1 & Hm1 & Hg1).
    destruct (Forall2_lookup_l _ _ _ _ _ Hg H2) as (m2 & Hm2 & Hg2).
    split; [done|]. exists m1, m2. split; [done|]. split; [done|].
    by rewrite (within_radius_grows _ _ _ _ r Hg1 Hg2).
Qed.

Lemma close_sym (r : Q) (l : list GossipNode) (i j : nat) :
  close r l i j → close r l j i.
Proof.
  intros (Hij & n1 & n2 & H1 & H2 & Hc). split; [done|].
  exists n2, n1. by rewrite within_radius_sym.
Qed.

Lemma pairwise_only_close (N : nat) (n : Z) (r : Q) (w : World) :
  Z.to_nat n = N → length (nodes (sim w)) = N →
  only_close r (nodes (sim w)) →
  ∃ w',
    for_ (range n) (λ i,
      for_ (range_from (i + 1) n) (λ j,
        node1 ← get_node i;
        node2 ← get_node j;
        if within_radius node1 node2 r then
          modify_node i (add_neighbor j);;
          modify_node j (add_neighbor i)
        else mret tt)) w
    = (Return tt, w') ∧
    only_close r (nodes (sim w')).
Proof.
  intros HN Hlen Hoc.
  destruct (for_inv
    (λ w', length (nodes (sim w')) = N ∧ only_close r (nodes (sim w')))
    (range n) (λ i,
      for_ (range_from (i + 1) n) (λ j,
        node1 ← get_node i;
        node2 ← get_node j;
        if within_radius node1 node2 r then
          modify_node i (add_neighbor j);;
          modify_node j (add_neighbor i)
        else mret tt)) w) as (w' & E & _ & Hoc'); [done| |by exists w'].
  intros i w1 Hi HI1. unfold range in Hi. apply elem_of_seq in Hi.
  apply (for_inv
    (λ w', length (nodes (sim w')) = N ∧ only_close r (nodes (sim w'))));
    [done|].
  intros j w2 Hj [Hl2 Hoc2]. unfold range_from in Hj.
  apply elem_of_seq in Hj.
  destruct (lookup_lt_is_Some_2 (nodes (sim w2)) i) as [n1 Hn1]; [lia|].
  destruct (lookup_lt_is_Some_2 (nodes (sim w2)) j) as [n2 Hn2]; [lia|].
  rewrite bind_run, (get_node_run _ _ _ Hn1).
  rewrite bind_run, (get_node_run _ _ _ Hn2).
  destruct (within_radius n1 n2 r) eqn:Hclose; [|by exists w2].
  rewrite bind_run, !modify_node_run. eexists. split; [reflexivity|].
  set (w3 := set_sim _ (set_sim _ w2)).
  assert (nodes (sim w3) = linked i j (nodes (sim w2))) as Hw3
    by reflexivity.
  assert (node_rel grows w2 w3) as Hg.
  { etrans; [apply (modify_node_grows i j w2)|].
    apply (modify_node_grows j i). }
  split; [by rewrite Hw3, linked_length|].
  assert (close r (nodes (sim w2)) i j) as Hij.
  { split; [lia|]. by exists n1, n2. }
  intros a b Hab. apply (close_grows r w2 w3); [done|].
  rewrite Hw3 in Hab. apply adj_linked in Hab; [|lia..].
  destruct Hab as [Hab|[[-> ->]|[-> ->]]];
    [by apply Hoc2|done|by apply close_sym].
Qed.

Lemma pairwise_same_rest (n : Z) (r : Q) (w : World) :
  same_rest w (for_ (range n) (λ i,
    for_ (range_from (i + 1) n) (λ j,
      node1 ← get_node i;
      node2 ← get_node j;
      if within_radius node1 node2 r then
        modify_node i (add_neighbor j);;
        modify_node j (add_neighbor i)
      else mret tt)) w).2.
Proof. by apply (pairwise_rel same_rest). Qed.

(** X25. When the nodes placed within the connection radius of each other
    already form a connected graph, construction adds no repair link: in
    the engine the constructor returns, two nodes are neighbours exactly
    when they are different and within 0.15 times the smaller side of the
    field of each other. *)
Theorem connected_field_links_exactly_close_nodes
    (n wd ht : Z) (w0 : World) :
  ∃ w,
    GossipSimulator_init n wd ht w0 = (Return tt, w) ∧
    let r := (inject_Z (Z.min wd ht) * (15 # 100))%Q in
    ((∀ i j, (i < length (nodes (sim w)))%nat →
             (j < length (nodes (sim w)))%nat →
             rtc (close r (nodes (sim w))) i j) →
     ∀ i j, adj (nodes (sim w)) i j ↔ close r (nodes (sim w)) i j).
Proof.
  destruct (init_run n wd ht w0) as (w & E & _ & _).
  exists w. split; [done|]. revert E.
  unfold GossipSimulator_init. rewrite bind_modify_sim.
  set (w1 := set_sim _ w0). rewrite bind_run.
  unfold _initialize_nodes. rewrite bind_get_sim. cbv beta. unfold range.
  destruct (initialize_nodes_fresh_loop (Z.to_nat (num_nodes (sim w1))) 0 w1)
    as (w2 & new & -> & [_ Hs2] & Hn2 & Hl2 & Hnew); [done|].
  unfold _build_network_topology. rewrite bind_get_sim. cbv beta.
  assert (width (sim w2) = wd ∧ height (sim w2) = ht ∧ num_nodes (sim w2) = n)
    as (-> & -> & Hnum2).
  { change (width (set_nodes [] (sim w2)) = wd
            ∧ height (set_nodes [] (sim w2)) = ht
            ∧ num_nodes (set_nodes [] (sim w2)) = n).
    by rewrite Hs2. }
  rewrite Hnum2.
  set (r := (inject_Z (Z.min wd ht) * (15 # 100))%Q).
  assert (length (nodes (sim w2)) = Z.to_nat n) as Hlen2.
  { rewrite Hn2. simpl. exact Hl2. }
  assert (only_close r (nodes (sim w2))) as Hoc2.
  { intros i j (nd & Hnd & Hj). rewrite Hn2 in Hnd. simpl in Hnd.
    destruct (Hnew i nd Hnd) as (Hinit & _). rewrite Hinit in Hj.
    set_solver. }
  rewrite bind_run.
  destruct (pairwise_links (Z.to_nat n) n r w2)
    as (w3 & E3 & Hg3 & Hlinks); [done|done|].
  destruct (pairwise_only_close (Z.to_nat n) n r w2)
    as (w3' & E3' & Hoc3); [done|done|done|].
  pose proof (pairwise_same_rest n r w2) as [_ Hs3].
  rewrite E3 in E3', Hs3.
  injection E3' as <-. simpl in Hs3. rewrite E3.
  assert (length (nodes (sim w3)) = Z.to_nat n) as Hlen3
    by (by rewrite <-(node_rel_length _ _ _ Hg3)).
  assert (∀ i j, close r (nodes (sim w3)) i j → adj (nodes (sim w3)) i j)
    as Hca.
  { intros i j (Hij & n1 & n2 & H1 & H2 & Hc).
    pose proof (lookup_lt_Some _ _ _ H1). pose proof (lookup_lt_Some _ _ _ H2).
    exists n1. split; [done|]. destruct (decide (i < j)%nat).
    - apply (Hlinks i j ltac:(lia) n1 n2 H1 H2 Hc).
    - rewrite within_radius_sym in Hc.
      apply (Hlinks j i ltac:(lia) n2 n1 H2 H1 Hc). }
  intros E. cbv zeta. intros Hconn.
  pose proof (ensure_connectivity_grows w3) as Hg. rewrite E in Hg.
  simpl in Hg.
  assert (_ensure_connectivity w3 = (Return tt, w3)) as E'.
  { apply ensure_connectivity_connected.
    - rewrite Hlen3. f_equal.
      change (n = num_nodes (set_nodes [] (sim w3))).
      by rewrite Hs3.
    - intros i j (_ & _ & n2 & _ & H2 & _)%Hoc3.
      by eapply lookup_lt_Some.
    - intros i j Hi Hj. rewrite (node_rel_length _ _ _ Hg) in Hi, Hj.
      eapply rtc_subrel; [|by apply Hconn].
      intros a b Hab. by apply Hca, (close_grows r w3 w). }
  rewrite E' in E. injection E as <-.
  intros i j. split; [apply Hoc3|apply Hca].
Qed.

Lemma connected_field_links_exactly_close_nodes_witness :
  ∃ w,
    GossipSimulator_init 2 800 600 (fresh_world (λ _, 0%N)) = (Return tt, w) ∧
    ∀ i j, adj (nodes (sim w)) i j
           ↔ close (inject_Z (Z.min 800 600) * (15 # 100))%Q
               (nodes (sim w)) i j.
Proof.
  destruct (connected_field_links_exactly_close_nodes 2 800 600
              (fresh_world (λ _, 0%N))) as (w & E & H).
  exists w. split; [exact E|]. apply H. clear H.
  assert (w = pair_world) as -> by (unfold pair_world, after; by rewrite E).
  assert (length (nodes (sim pair_world)) = 2%nat) as Hl
    by (vm_compute; reflexivity).
  assert (nodes (sim pair_world) !! 0%nat = Some pair_node0) as H0
    by (vm_compute; reflexivity).
  assert (nodes (sim pair_world) !! 1%nat = Some pair_node1) as H1
    by (vm_compute; reflexivity).
  assert (within_radius pair_node0 pair_node1
            (inject_Z (Z.min 800 600) * (15 # 100))%Q = true) as Hc
    by (vm_compute; reflexivity).
  assert (close (inject_Z (Z.min 800 600) * (15 # 100))%Q
            (nodes (sim pair_world)) 0 1) as H01.
  { split; [done|]. by exists pair_node0, pair_node1. }
  intros i j Hi Hj. rewrite Hl in Hi, Hj.
  destruct i as [|[|i]], j as [|[|j]]; try lia.
  - apply rtc_refl.
  - by apply rtc_once.
  - by apply rtc_once, close_sym.
  - apply rtc_refl.
Defined.

(** ** The statistics of a fresh start *)

Lemma filter_ext_elem {A} (P Q : A → Prop)
    `{!∀ a, Decision (P a)} `{!∀ a, Decision (Q a)} (l : list A) :
  (∀ a, a ∈ l → P a ↔ Q a) → filter P l = filter Q l.
Proof.
  induction l as [|a l IH]; intros Hext; [done|].
  rewrite !filter_cons.
  rewrite IH by (intros b Hb; apply Hext; by right).
  destruct (decide (P a)) as [HP|HP].
  - by rewrite decide_True by (apply Hext; [by left|done]).
  - rewrite decide_False; [done|]. intros HQ.
    apply HP, Hext; [by left|done].
Qed.

Lemma seeded_state (ids : list Z) (k : nat) (n : GossipNode) :
  state (seeded ids k n)
  = if bool_decide (Z.of_nat k ∈ ids) then INFECTED else SUSCEPTIBLE.
Proof. unfold seeded. by case_bool_decide. Qed.

Lemma seeded_messages (ids : list Z) (k : nat) (n : GossipNode) :
  messages (seeded ids k n) = ∅.
Proof. unfold seeded. by case_bool_decide. Qed.

Lemma seeded_infected (ids : list Z) (l : list GossipNode) :
  nodes_in_state INFECTED (imap (seeded ids) l)
  = filter (λ k, Z.of_nat k ∈ ids) (seq 0 (length l)).
Proof.
  unfold nodes_in_state. rewrite length_imap. apply filter_ext_elem.
  intros k Hk%elem_of_seq. rewrite list_lookup_imap.
  destruct (lookup_lt_is_Some_2 l k) as [n ->]; [lia|]. cbn.
  rewrite seeded_state. case_bool_decide; naive_solver.
Qed.

Lemma no_messages_total (l : list GossipNode) :
  Forall (λ n, messages n = ∅) l →
  sum_list ((λ n, size (messages n)) <$> l) = 0%nat.
Proof.
  induction 1 as [|n l Hn _ IH]; [done|].
  rewrite fmap_cons. cbn [sum_list sum_list_with]. by rewrite IH, Hn.
Qed.

Lemma seeded_counts (ids : list Z) (l : list GossipNode) :
  count_state REMOVED (imap (seeded ids) l) = 0%nat ∧
  sum_list ((λ n, size (messages n)) <$> imap (seeded ids) l) = 0%nat.
Proof.
  split.
  - rewrite <-nodes_in_state_length.
    destruct (nodes_in_state REMOVED (imap (seeded ids) l)) as [|k ks] eqn:E;
      [done|].
    assert (k ∈ nodes_in_state REMOVED (imap (seeded ids) l)) as Hk
      by (rewrite E; by left).
    apply elem_of_nodes_in_state in Hk as (n & Hn & Hst).
    rewrite list_lookup_imap in Hn.
    destruct (l !! k) as [n0|]; [|done]. injection Hn as <-.
    rewrite seeded_state in Hst. by case_bool_decide.
  - apply no_messages_total, Forall_lookup. intros k n Hn.
    rewrite list_lookup_imap in Hn.
    destruct (l !! k) as [n0|]; [|done]. injection Hn as <-.
    apply seeded_messages.
Qed.

Lemma seeds_count (s : GossipSimulator) (ids : list Z) :
  seeds s ids
  = length (filter (λ k, Z.of_nat k ∈ ids) (seq 0 (length (nodes s)))).
Proof.
  unfold seeds.
  assert (list_to_set (C := gset Z) (existing_ids s ids)
          = list_to_set
              (Z.of_nat <$> filter (λ k, Z.of_nat k ∈ ids)
                                   (seq 0 (length (nodes s))))) as ->.
  { apply set_eq. intros z. rewrite !elem_of_list_to_set.
    unfold existing_ids. rewrite list_elem_of_filter, list_elem_of_fmap.
    unfold in_nodes. rewrite andb_true_iff, Z.leb_le, bool_decide_eq_true.
    rewrite lookup_lt_is_Some. split.
    - intros [[Hz Hlt] Hin]. exists (Z.to_nat z).
      rewrite list_elem_of_filter, elem_of_seq, Z2Nat.id by done.
      split; [done|]. split; [done|]. lia.
    - intros (k & -> & [Hin Hk%elem_of_seq]%list_elem_of_filter).
      rewrite Nat2Z.id. split; [|done]. split; lia. }
  rewrite size_list_to_set, length_fmap; [done|].
  apply NoDup_fmap; [apply _|]. apply NoDup_filter, NoDup_seq.
Qed.

(** X26. The statistics right after [start_gossip] are known from the
    arguments alone: step 0, running, no node removed, no message held, as
    many nodes infected as there are different identifiers among the given
    ones that are keys of nodes (node 0 alone when no list is given), and
    all the other nodes susceptible. *)
Theorem start_gossip_statistics
    (initial_infected : option (list Z)) (w : World) :
  let k := seeds (sim w) (default [0] initial_infected) in
  statistics (sim (after (start_gossip initial_infected) w))
  = mkStatistics 0 (length (nodes (sim w)) - k) k 0 0 true.
Proof.
  cbv zeta. unfold after. rewrite start_gossip_run. unfold statistics.
  cbn [snd sim set_sim nodes set_nodes set_running set_step_count
       step_count running].
  set (ids := default [0] initial_infected).
  destruct (seeded_counts ids (nodes (sim w))) as [Hrem Hmsg].
  pose proof (count_state_partition (imap (seeded ids) (nodes (sim w))))
    as Hpart.
  rewrite length_imap, Hrem in Hpart.
  assert (count_state INFECTED (imap (seeded ids) (nodes (sim w)))
          = seeds (sim w) ids) as Hinf.
  { by rewrite <-nodes_in_state_length, seeded_infected, seeds_count. }
  rewrite Hrem, Hmsg, Hinf. rewrite Hinf in Hpart. f_equal. lia.
Qed.

(** ** Infection spreads along the links *)

#[global] Instance only_at_preorder (T : nat → Prop) : PreOrder (only_at T).
Proof.
  unfold only_at. split; [done|].
  intros a b c Hab Hbc t Ht. by rewrite Hbc, Hab.
Qed.

#[global] Instance spreads_from_preorder (w0 : World) (keys : list nat) :
  PreOrder (spreads_from w0 keys).
Proof.
  unfold spreads_from. split.
  - intros w Hw. split; [done|reflexivity].
  - intros a b c Hab Hbc Ha. destruct (Hab Ha) as [Hb Hab'].
    destruct (Hbc Hb) as [Hc Hbc']. split; [done|by etrans].
Qed.

Lemma only_at_same_nodes (T : nat → Prop) (w w' : World) :
  nodes (sim w') = nodes (sim w) → only_at T w w'.
Proof. intros H t _. by rewrite H. Qed.


Lemma modify_node_only_at (T : nat → Prop) i f w :
  T i → only_at T w (modify_node i f w).2.
Proof.
  intros Hi t Ht. cbn. apply list_lookup_alter_ne. by intros ->.
Qed.

Lemma receive_message_only_at (T : nat → Prop) i message w :
  T i → only_at T w (receive_message i message w).2.
Proof.
  intros Hi. unfold receive_message.
  apply (bind_rel (only_at T)).
  { apply only_at_same_nodes. by rewrite keeps_sim_get_node. }
  intros n w1 _. apply (bind_rel (only_at T)).
  { apply only_at_same_nodes. by rewrite keeps_sim_deref. }
  intros m w2 _. case_match; [reflexivity|].
  apply (bind_rel (only_at T)); [by apply modify_node_only_at|].
  intros _ w3 _.
  apply (bind_rel (only_at T)); [by apply modify_node_only_at|].
  intros _ w4 _. apply (bind_rel (only_at T)).
  { apply only_at_same_nodes. by rewrite keeps_sim_get_node. }
  intros n' w5 _. case_decide; [|reflexivity].
  apply (bind_rel (only_at T)); [by apply only_at_same_nodes|].
  intros u w6 _. case_match; [by apply modify_node_only_at|reflexivity].
Qed.

Lemma attempt_only_at (T : nat → Prop) message t w :
  T t → only_at T w (attempt message t w).2.
Proof.
  intros Ht. unfold attempt. rewrite bind_get_sim. cbv beta.
  case_match; [|reflexivity].
  apply (bind_rel (only_at T)); [by apply only_at_same_nodes|].
  intros u w1 _. case_match; [|reflexivity].
  apply (bind_rel (only_at T)).
  { apply only_at_same_nodes. by rewrite keeps_sim_deref. }
  intros m w2 _. case_match; [|reflexivity].
  apply (bind_rel (only_at T)); [by apply only_at_same_nodes|].
  intros _ w3 _. by apply receive_message_only_at.
Qed.









(** ** The reach of one round *)

Lemma rounds_targets_only_at (message : ref) (ts : list nat) (w : World) :
  only_at (λ t, t ∈ ts) w (for_ ts (attempt message) w).2.
Proof.
  apply (for_rel (only_at _)). intros t w' Ht. by apply attempt_only_at.
Qed.

(** X28. One gossip round reaches at most [gossip_fanout] nodes, all of
    them neighbours of the sender: whatever the outcome of the round,
    there is a list of targets, no longer than the fanout (empty for a
    negative fanout), made of neighbours of the node, outside of which
    every node of the engine is exactly as it was. *)
Theorem gossip_round_reaches_at_most_fanout_neighbors
    (i : nat) (w : World) :
  ∃ ts : list nat,
    Z.of_nat (length ts) ≤ Z.max 0 (gossip_fanout (sim w)) ∧
    (∀ t, t ∈ ts →
       ∃ node, nodes (sim w) !! i = Some node ∧ t ∈ neighbors node) ∧
    ∀ t, t ∉ ts →
      nodes (sim (after (_gossip_step i) w)) !! t = nodes (sim w) !! t.
Proof.
  unfold after. rewrite gossip_step_unfold, bind_run. unfold get_node.
  destruct (nodes (sim w) !! i) as [node|] eqn:Hn.
  2:{ exists []. split; [simpl; lia|]. split; [|done].
      by intros t ?%elem_of_nil. }
  case_decide.
  { exists []. split; [simpl; lia|]. split; [|done].
    by intros t ?%elem_of_nil. }
  rewrite bind_get_sim. cbv beta. rewrite bind_run. set (k := Z.min _ _).
  pose proof (keeps_sim_random_sample (elements (neighbors node)) k w) as Hs.
  destruct (decide (0 ≤ gossip_fanout (sim w))) as [Hfan|Hfan].
  2:{ exists []. split; [simpl; lia|]. split; [by intros t ?%elem_of_nil|].
      intros t _. unfold random_sample.
      assert ((k <? 0) = true) as -> by (apply Z.ltb_lt; lia). done. }
  destruct (random_sample_run (elements (neighbors node)) k w)
    as (ts & w1 & E1 & Hs1 & _ & Hlen1 & Hsub1); [subst k; lia|].
  rewrite E1. exists ts. split; [lia|]. split.
  { intros t Ht%Hsub1%elem_of_elements. by exists node. }
  rewrite bind_get_sim. cbv beta.
  rewrite bind_run. cbn [time_time]. rewrite bind_run. cbn [new_message].
  rewrite bind_modify_sim.
  match goal with |- context [for_ ts (attempt ?r) ?w2] =>
    set (message := r); set (w2' := w2) end.
  intros t Ht. rewrite (rounds_targets_only_at message ts w2' t Ht).
  subst w2'. cbn. by rewrite Hs1.
Qed.
